(** * Filesort buffer and merge-cost estimation (sql/filesort_utils.cc)

    A shallow embedding of [Filesort_buffer] (the sort arena), of the
    comparators that [Filesort_buffer::sort_buffer] selects, and of the
    merge-cost estimators [get_merge_cost] and
    [get_merge_many_buffs_cost_fast].

    Conventions.
    - [size_t] and [ha_rows] are 64-bit, [uint] is 32-bit; their values are
      integers in [Z], and every machine operation writes its wrap-around
      ([wrap64], [wrap32]).  A pointer is an address in [Z], [nullptr] is 0,
      and [sizeof(uchar * )] is 8.
    - [DBUG_ASSERT (c)] is a check: an operation that reaches it with [c]
      false has no result ([None]), as in a debug build.  The branches of
      [sort_buffer] are also given for a release build, where the
      assertion is compiled out ([sort_buffer_dispatch_in]).
    - What the C++ library and the headers that are not part of this file
      decide is a parameter of the model: the classes [Sort_env],
      [Arena_env] and [Merge_constants].
    - The estimators compute in [double].  They are given over an
      arithmetic that is a parameter ([Double_env], module [Double]), with
      IEEE 754 binary64 and exact arithmetic as instances; the properties
      that rounding does not touch are stated on the instance at the real
      numbers, written out first.  *)

From Stdlib Require Import ZArith List Bool Lia Permutation Sorted.
From Stdlib Require Import Reals Lra Floats.
Import ListNotations.

Open Scope Z_scope.

(** ** Machine integers *)

Definition wrap64 (z : Z) : Z := z mod 2 ^ 64.
Definition wrap32 (z : Z) : Z := z mod 2 ^ 32.

Arguments wrap64 : simpl never.
Arguments wrap32 : simpl never.

Definition size_t_max : Z := 2 ^ 64 - 1.
Definition pointer_size : Z := 8.
Definition nullptr : Z := 0.

(** ** Checked operations: the option monad *)

Definition bind {A B : Type} (c : option A) (k : A -> option B) : option B :=
  match c with
  | Some a => k a
  | None => None
  end.

Notation "x <- c ;; k" := (bind c (fun x => k))
  (at level 61, c at next level, right associativity).
Notation "c ;;; k" := (bind c (fun _ => k))
  (at level 61, right associativity).

Definition DBUG_ASSERT (c : bool) : option unit :=
  if c then Some tt else None.

(** ** Data model *)

(** The bytes of the blocks, by address.  The arena never writes them. *)
Definition memory : Type := Z -> Z.

(** One element of [m_blocks]: the address [my_malloc] returned, and the
    size that was requested for it (the vector itself stores only the
    address; the size is kept here to state how much the blocks hold). *)
Record Block : Type := mkBlock {
  blk_start : Z;
  blk_size : Z
}.

(** [std::vector<uchar * >]: its elements and its [capacity()]. *)
Record vector : Type := mkVector {
  vec_data : list Z;
  vec_capacity : Z
}.

Definition vec_size (v : vector) : Z := Z.of_nat (length (vec_data v)).

Definition vec_empty : vector := mkVector [] 0.

(** [clear()] keeps the storage. *)
Definition vec_clear (v : vector) : vector := mkVector [] (vec_capacity v).

(** [reserve(n)]: storage for exactly [n] elements unless there is more. *)
Definition vec_reserve (n : Z) (v : vector) : vector :=
  mkVector (vec_data v) (Z.max (vec_capacity v) n).

Record Filesort_buffer : Type := mkFilesort_buffer {
  m_record_pointers : vector;
  m_blocks : list Block;
  m_next_rec_ptr : Z;
  m_current_block_end : Z;
  m_current_block_size : Z;
  m_space_used_other_blocks : Z;
  m_max_record_length : Z;
  m_max_size_in_bytes : Z;
  m_peak_memory_used : Z
}.

Definition set_record_pointers (v : vector) (b : Filesort_buffer) :=
  mkFilesort_buffer v (m_blocks b) (m_next_rec_ptr b)
    (m_current_block_end b) (m_current_block_size b)
    (m_space_used_other_blocks b) (m_max_record_length b)
    (m_max_size_in_bytes b) (m_peak_memory_used b).

(** A freshly constructed buffer with its budget and record length set. *)
Definition empty_buffer (max_size record_length : Z) : Filesort_buffer :=
  mkFilesort_buffer vec_empty [] nullptr nullptr 0 0 record_length max_size 0.

(** ** The comparators *)

(** [my_mem_compare]: the do-while loop runs [len] times for [len > 0],
    which its first assertion requires; [len] counts the iterations left. *)
Fixpoint my_mem_compare (m : memory) (s1 s2 : Z) (len : nat) : bool :=
  match len with
  | O => false
  | S len' =>
      if negb (m s1 =? m s2) then m s1 <? m s2
      else my_mem_compare m (s1 + 1) (s2 + 1) len'
  end.

(** [memcmp] of the C library. *)
Fixpoint memcmp (m : memory) (s1 s2 : Z) (n : nat) : Z :=
  match n with
  | O => 0
  | S n' =>
      if m s1 =? m s2 then memcmp m (s1 + 1) (s2 + 1) n'
      else m s1 - m s2
  end.

Definition COMPARE (m : memory) (s1 s2 : Z) (N : Z) (rest : bool) : bool :=
  if negb (m (s1 + N) =? m (s2 + N)) then m (s1 + N) <? m (s2 + N)
  else rest.

Definition my_mem_compare_longkey (m : memory) (s1 s2 : Z) (len : Z) : bool :=
  COMPARE m s1 s2 0
    (COMPARE m s1 s2 1
       (COMPARE m s1 s2 2
          (COMPARE m s1 s2 3
             (memcmp m (s1 + 4) (s2 + 4) (Z.to_nat (wrap64 (len - 4)))
                <? 0)))).

(** The first [n] bytes of the key at address [p]. *)
Fixpoint key_bytes (m : memory) (p : Z) (n : nat) : list Z :=
  match n with
  | O => []
  | S n' => m p :: key_bytes m (p + 1) n'
  end.

(** Lexicographic order on byte strings of one length. *)
Fixpoint lex_lt (a b : list Z) : bool :=
  match a, b with
  | x :: a', y :: b' => if x =? y then lex_lt a' b' else x <? y
  | _, _ => false
  end.

Fixpoint bytes_eqb (a b : list Z) : bool :=
  match a, b with
  | [], [] => true
  | x :: a', y :: b' => (x =? y) && bytes_eqb a' b'
  | _, _ => false
  end.

(** ** [std::stable_sort] and [std::sort] *)

(** The standard fixes the result of [std::stable_sort] for a strict weak
    ordering: the sorted permutation that keeps equivalent elements in
    their order.  Straight insertion computes it: an element moves left
    past exactly the elements that are less than it. *)
Fixpoint stable_insert {A : Type} (less : A -> A -> bool) (x : A)
  (l : list A) : list A :=
  match l with
  | [] => [x]
  | y :: l' => if less y x then y :: stable_insert less x l' else x :: l
  end.

Fixpoint std_stable_sort {A : Type} (less : A -> A -> bool) (l : list A)
  : list A :=
  match l with
  | [] => []
  | x :: l' => stable_insert less x (std_stable_sort less l')
  end.

(** What the headers that are not part of this file leave open for
    [sort_buffer]: the descriptor type [st_sort_field], the comparator
    [cmp_varlen_keys] (sql/cmp_varlen_keys.h) with the bytes of a
    variable-length key that it decodes, and the order in which [std::sort]
    leaves equivalent elements. *)
Class Sort_env : Type := {
  st_sort_field : Type;
  cmp_varlen_keys : list st_sort_field -> bool -> memory -> Z -> Z -> bool;
  varlen_key : memory -> Z -> list Z;
  std_sort : (Z -> Z -> bool) -> list Z -> list Z
}.

(** ** Sort parameters (sql/sort_param.h) *)

Inductive enum_sort_algorithm : Type :=
| FILESORT_ALG_NONE
| FILESORT_ALG_STD_SORT
| FILESORT_ALG_STD_STABLE.

(** The members and accessors of [Sort_param] that [sort_buffer] reads;
    [max_compare_length] and [ref_length] are [uint]. *)
Record Sort_param `{Sort_env} : Type := mkSort_param {
  m_force_stable_sort : bool;
  m_sort_algorithm : enum_sort_algorithm;
  max_compare_length : Z;
  using_varlen_keys : bool;
  using_addon_fields : bool;
  ref_length : Z;
  local_sortorder : list st_sort_field;
  use_hash : bool
}.

Arguments mkSort_param {_} _ _ _ _ _ _ _ _.

Definition set_sort_algorithm `{Sort_env} (a : enum_sort_algorithm)
  (param : Sort_param) : Sort_param :=
  mkSort_param (m_force_stable_sort param) a (max_compare_length param)
    (using_varlen_keys param) (using_addon_fields param) (ref_length param)
    (local_sortorder param) (use_hash param).

(** The comparator objects: each class with the arguments of its
    constructor. *)
Inductive Comparator `{Sort_env} : Type :=
| Mem_compare (n : Z)
| Mem_compare_longkey (n : Z)
| Mem_compare_varlen_key (sfa : list st_sort_field) (use_hash_arg : bool).

Arguments Mem_compare {_} n.
Arguments Mem_compare_longkey {_} n.
Arguments Mem_compare_varlen_key {_} sfa use_hash_arg.

(** [operator()] of the three classes. *)
Definition compare_with `{Sort_env} (c : Comparator) (m : memory)
  (s1 s2 : Z) : bool :=
  match c with
  | Mem_compare n => my_mem_compare m s1 s2 (Z.to_nat n)
  | Mem_compare_longkey n => my_mem_compare_longkey m s1 s2 n
  | Mem_compare_varlen_key sfa h => cmp_varlen_keys sfa h m s1 s2
  end.

(** The library call that [sort_buffer] ends in. *)
Inductive Sort_call `{Sort_env} : Type :=
| No_sort
| Call_std_sort (c : Comparator)
| Call_std_stable_sort (c : Comparator).

Arguments No_sort {_}.
Arguments Call_std_sort {_} c.
Arguments Call_std_stable_sort {_} c.

(** The branches of [Filesort_buffer::sort_buffer]: the algorithm written
    to [param->m_sort_algorithm] and the call made. *)
Definition sort_buffer_dispatch `{Sort_env} (param : Sort_param) (count : Z)
  : option (enum_sort_algorithm * Sort_call) :=
  let force_stable_sort := m_force_stable_sort param in
  if count <=? 1 then Some (FILESORT_ALG_NONE, No_sort)
  else if max_compare_length param =? 0 then Some (FILESORT_ALG_NONE, No_sort)
  else if using_varlen_keys param then
    if force_stable_sort then
      Some (FILESORT_ALG_STD_STABLE,
            Call_std_stable_sort
              (Mem_compare_varlen_key (local_sortorder param) (use_hash param)))
    else
      Some (FILESORT_ALG_STD_SORT,
            Call_std_sort
              (Mem_compare_varlen_key (local_sortorder param) (use_hash param)))
  else if (count <=? 100) && negb force_stable_sort then
    if max_compare_length param <? 10 then
      Some (FILESORT_ALG_STD_SORT,
            Call_std_sort (Mem_compare (max_compare_length param)))
    else
      Some (FILESORT_ALG_STD_SORT,
            Call_std_sort (Mem_compare_longkey (max_compare_length param)))
  else
    let compare_len := max_compare_length param in
    compare_len <-
      (if force_stable_sort && negb (using_addon_fields param) then
         DBUG_ASSERT ((compare_len >? ref_length param)
                      && negb (using_varlen_keys param)) ;;;
         Some (wrap32 (compare_len - ref_length param))
       else Some compare_len) ;;
    if compare_len <? 10 then
      Some (FILESORT_ALG_STD_STABLE,
            Call_std_stable_sort (Mem_compare compare_len))
    else
      Some (FILESORT_ALG_STD_STABLE,
            Call_std_stable_sort (Mem_compare_longkey compare_len)).

(** The call applied to the range [begin, begin + count) of the record
    pointers.  The callers pass a [count] within the size of the array;
    a larger one, which C++ leaves undefined, sorts all of it here. *)
Definition run_sort_call `{Sort_env} (m : memory) (call : Sort_call)
  (count : Z) (ptrs : list Z) : list Z :=
  let n := Z.to_nat count in
  match call with
  | No_sort => ptrs
  | Call_std_sort c =>
      std_sort (compare_with c m) (firstn n ptrs) ++ skipn n ptrs
  | Call_std_stable_sort c =>
      std_stable_sort (compare_with c m) (firstn n ptrs) ++ skipn n ptrs
  end.

(** [Filesort_buffer::sort_buffer (param, count)]; [m] holds the bytes
    that the callers wrote to the records. *)
Definition sort_buffer `{Sort_env} (m : memory) (param : Sort_param)
  (count : Z) (buf : Filesort_buffer)
  : option (Sort_param * Filesort_buffer) :=
  r <- sort_buffer_dispatch param count ;;
  let v := m_record_pointers buf in
  Some (set_sort_algorithm (fst r) param,
        set_record_pointers
          (mkVector (run_sort_call m (snd r) count (vec_data v))
             (vec_capacity v))
          buf).

(** The key bytes that order the records: a variable-length key as a
    whole, else the leading bytes of the fixed-length key, without the
    row locator when stability is forced and no addon fields follow. *)
Definition compared_length `{Sort_env} (param : Sort_param) : Z :=
  if m_force_stable_sort param && negb (using_addon_fields param)
  then max_compare_length param - ref_length param
  else max_compare_length param.

Definition compared_key `{Sort_env} (m : memory) (param : Sort_param)
  (p : Z) : list Z :=
  if using_varlen_keys param then varlen_key m p
  else key_bytes m p (Z.to_nat (compared_length param)).

(** An environment to run examples in: a variable-length key is one
    length byte and that many bytes, compared as byte strings, and
    [std::sort] happens to be stable. *)
Definition example_sort_env : Sort_env :=
  {| st_sort_field := unit;
     cmp_varlen_keys := fun _ _ m s1 s2 =>
       lex_lt (key_bytes m s1 (S (Z.to_nat (m s1))))
         (key_bytes m s2 (S (Z.to_nat (m s2))));
     varlen_key := fun m p => key_bytes m p (S (Z.to_nat (m p)));
     std_sort := fun less l => std_stable_sort less l |}.

(** [max_compare_length] and [ref_length] are values of [uint]. *)
Definition param_in_range `{Sort_env} (param : Sort_param) : Prop :=
  0 <= max_compare_length param < 2 ^ 32
  /\ 0 <= ref_length param < 2 ^ 32.

Definition call_comparator `{Sort_env} (call : Sort_call)
  : option Comparator :=
  match call with
  | No_sort => None
  | Call_std_sort c => Some c
  | Call_std_stable_sort c => Some c
  end.

(** An example: three records of five bytes, a one-byte key and a
    four-byte row locator, at the addresses 1000, 1005 and 1010.  The keys
    are "b", "a", "a", and the locators count down, so that a comparison
    that read them would swap the two "a" records. *)
Definition example_memory : memory :=
  fun a =>
    if a =? 1000 then 98 else if a =? 1004 then 3
    else if a =? 1005 then 97 else if a =? 1009 then 2
    else if a =? 1010 then 97 else if a =? 1014 then 1
    else 0.

Definition example_param : @Sort_param example_sort_env :=
  mkSort_param true FILESORT_ALG_NONE 5 false false 4 [] false.

Definition example_records : Filesort_buffer :=
  mkFilesort_buffer (mkVector [1000; 1005; 1010] 4) [mkBlock 1000 32768]
    1015 33768 32768 0 5 65536 0.

(** ** The arena: growth, reset and release *)

(** What [Filesort_buffer] takes from outside this file: the constant
    [MIN_SORT_MEMORY], and the two places where the C++ library chooses a
    capacity: [shrink_to_fit()], a request that need not be honoured, and
    the reallocation of a [push_back] on a full vector. *)
Class Arena_env : Type := {
  MIN_SORT_MEMORY : Z;
  (** capacity after [shrink_to_fit()], from the size and the capacity *)
  shrink_to_fit_capacity : Z -> Z -> Z;
  (** capacity after a [push_back] that finds the vector full *)
  push_back_capacity : Z -> Z
}.

Definition vec_shrink_to_fit `{Arena_env} (v : vector) : vector :=
  mkVector (vec_data v) (shrink_to_fit_capacity (vec_size v) (vec_capacity v)).

Definition vec_push_back `{Arena_env} (x : Z) (v : vector) : vector :=
  mkVector (vec_data v ++ [x])
    (if vec_size v <? vec_capacity v then vec_capacity v
     else push_back_capacity (vec_capacity v)).

(** Modelled from the spec: [AddWithSaturate] is defined in
    add_with_saturate.h, which is not part of this file.  The spec divides
    the remaining budget by the record length plus the pointer size; the
    helper, as its name says, keeps that sum within [size_t]: it is the
    sum, or the largest value when the sum does not fit. *)
Definition AddWithSaturate (a b : Z) : Z :=
  if a + b >? size_t_max then size_t_max else a + b.

Definition set_peak_memory_used (p : Z) (b : Filesort_buffer) :=
  mkFilesort_buffer (m_record_pointers b) (m_blocks b) (m_next_rec_ptr b)
    (m_current_block_end b) (m_current_block_size b)
    (m_space_used_other_blocks b) (m_max_record_length b)
    (m_max_size_in_bytes b) p.

Definition set_blocks (bl : list Block) (b : Filesort_buffer) :=
  mkFilesort_buffer (m_record_pointers b) bl (m_next_rec_ptr b)
    (m_current_block_end b) (m_current_block_size b)
    (m_space_used_other_blocks b) (m_max_record_length b)
    (m_max_size_in_bytes b) (m_peak_memory_used b).

Definition set_next_rec_ptr (p : Z) (b : Filesort_buffer) :=
  mkFilesort_buffer (m_record_pointers b) (m_blocks b) p
    (m_current_block_end b) (m_current_block_size b)
    (m_space_used_other_blocks b) (m_max_record_length b)
    (m_max_size_in_bytes b) (m_peak_memory_used b).

Definition set_space_used_other_blocks (n : Z) (b : Filesort_buffer) :=
  mkFilesort_buffer (m_record_pointers b) (m_blocks b) (m_next_rec_ptr b)
    (m_current_block_end b) (m_current_block_size b) n
    (m_max_record_length b) (m_max_size_in_bytes b) (m_peak_memory_used b).

(** [Filesort_buffer::update_peak_memory_used]. *)
Definition update_peak_memory_used (b : Filesort_buffer) : Filesort_buffer :=
  set_peak_memory_used
    (Z.max (m_peak_memory_used b)
       (wrap64
          (wrap64
             (wrap64 (vec_capacity (m_record_pointers b) * pointer_size)
              + m_current_block_size b)
           + m_space_used_other_blocks b)))
    b.

(** [Filesort_buffer::free_sort_buffer]: both vectors are replaced by
    fresh ones, which hold no storage. *)
Definition free_sort_buffer (b : Filesort_buffer) : Filesort_buffer :=
  let b := update_peak_memory_used b in
  mkFilesort_buffer vec_empty [] nullptr nullptr 0 0
    (m_max_record_length b) (m_max_size_in_bytes b) (m_peak_memory_used b).

(** [Filesort_buffer::reset]. *)
Definition reset (b : Filesort_buffer) : option Filesort_buffer :=
  let b := update_peak_memory_used b in
  let b := set_record_pointers (vec_clear (m_record_pointers b)) b in
  let b :=
    if (2 <=? length (m_blocks b))%nat
    then set_blocks (skipn (length (m_blocks b) - 1) (m_blocks b)) b
    else b in
  let b :=
    if m_max_record_length b >? m_current_block_size b
    then free_sort_buffer b else b in
  b <- match m_blocks b with
       | [] =>
           DBUG_ASSERT (m_next_rec_ptr b =? nullptr) ;;;
           DBUG_ASSERT (m_current_block_end b =? nullptr) ;;;
           DBUG_ASSERT (m_current_block_size b =? 0) ;;;
           Some b
       | blk :: _ =>
           let b := set_next_rec_ptr (blk_start blk) b in
           DBUG_ASSERT (m_current_block_end b
                        =? m_next_rec_ptr b + m_current_block_size b) ;;;
           Some b
       end ;;
  Some (set_space_used_other_blocks 0 b).

(** [Filesort_buffer::allocate_sized_block]; [new_block] is what
    [my_malloc] returns for the request, [nullptr] when it has no memory.
    The result is the returned flag ([true]: failure) and the buffer. *)
Definition allocate_sized_block (new_block : Z) (block_size : Z)
  (b : Filesort_buffer) : bool * Filesort_buffer :=
  if new_block =? nullptr then (true, b)
  else
    (false,
     mkFilesort_buffer (m_record_pointers b)
       (m_blocks b ++ [mkBlock new_block block_size])
       new_block
       (new_block + block_size)
       block_size
       (wrap64 (m_space_used_other_blocks b + m_current_block_size b))
       (m_max_record_length b) (m_max_size_in_bytes b)
       (m_peak_memory_used b)).

(** [Filesort_buffer::allocate_block].  The function calls itself after a
    [shrink_to_fit()] that lowered the capacity; [fuel] bounds the depth of
    these calls, and [None] means that it was used up.  The fault
    injection of debug builds ([DBUG_EXECUTE_IF]) makes [my_malloc] fail,
    which is the case [new_block = nullptr]. *)
Fixpoint allocate_block_rec `{Arena_env} (fuel : nat) (new_block : Z)
  (num_rows : Z) (b : Filesort_buffer) : option (bool * Filesort_buffer) :=
  match fuel with
  | O => None
  | S fuel' =>
      let v := m_record_pointers b in
      let bytes_needed := wrap64 (num_rows * m_max_record_length b) in
      let next_block_size :=
        if m_current_block_size b =? 0 then MIN_SORT_MEMORY
        else wrap64 (m_current_block_size b + m_current_block_size b / 2) in
      let space_used :=
        wrap64 (m_current_block_size b + m_space_used_other_blocks b) in
      let space_used :=
        wrap64 (space_used + wrap64 (vec_capacity v * pointer_size)) in
      let space_left :=
        if space_used >? m_max_size_in_bytes b then 0
        else m_max_size_in_bytes b - space_used in
      let min_num_rows_capacity :=
        wrap64 (vec_size v
                + space_left
                  / AddWithSaturate (m_max_record_length b) pointer_size) in
      let space_left :=
        if min_num_rows_capacity >? vec_capacity v
        then wrap64 (space_left
                     - wrap64 (wrap64 (min_num_rows_capacity - vec_capacity v)
                               * pointer_size))
        else space_left in
      let next_block_size :=
        Z.min (Z.max next_block_size bytes_needed) space_left in
      if next_block_size <? bytes_needed then
        let excess_bytes :=
          wrap64 (wrap64 (vec_capacity v - vec_size v) * pointer_size) in
        if excess_bytes >=? 32768 then
          let old_capacity := vec_capacity v in
          let b := set_record_pointers (vec_shrink_to_fit v) b in
          if vec_capacity (m_record_pointers b) <? old_capacity
          then allocate_block_rec fuel' new_block num_rows b
          else Some (true, b)
        else Some (true, b)
      else Some (allocate_sized_block new_block next_block_size b)
  end.

(** Each nested call comes with a lower capacity, so one more than the
    capacity bounds the depth. *)
Definition allocate_block `{Arena_env} (new_block : Z) (num_rows : Z)
  (b : Filesort_buffer) : option (bool * Filesort_buffer) :=
  allocate_block_rec
    (S (Z.to_nat (vec_capacity (m_record_pointers b)))) new_block num_rows b.

(** Modelled from the spec: [get_next_record_pointer] is defined in
    sql/filesort_utils.h, which is not part of this file.  The spec has the
    executor ask the arena for a record slot, "triggering on-demand block
    growth", and has slots carved "by bump allocation": when the current
    block has no room for a record of the maximum length, one block is
    added with [allocate_block (1)], and [nullptr] is returned when that
    fails; the slot is the cursor, which moves on by the record length. *)
Definition get_next_record_pointer `{Arena_env} (new_block : Z)
  (b : Filesort_buffer) : option (Z * Filesort_buffer) :=
  r <- (if m_next_rec_ptr b + m_max_record_length b >? m_current_block_end b
        then allocate_block new_block 1 b
        else Some (false, b)) ;;
  let b := snd r in
  if fst r then Some (nullptr, b)
  else
    let ptr := m_next_rec_ptr b in
    let b := set_record_pointers (vec_push_back ptr (m_record_pointers b)) b in
    Some (ptr, set_next_rec_ptr (ptr + m_max_record_length b) b).

(** The loop that ends [preallocate_records]; [host k] is what [my_malloc]
    would return to the [k]-th call of [get_next_record_pointer].  A call
    that succeeds adds one pointer, so [fuel] counts the pointers still to
    add, and [None] is a failed assertion. *)
Fixpoint carve_records `{Arena_env} (fuel : nat) (host : nat -> Z) (k : nat)
  (num_records : Z) (b : Filesort_buffer) : option Filesort_buffer :=
  if vec_size (m_record_pointers b) <? num_records then
    match fuel with
    | O => None
    | S fuel' =>
        r <- get_next_record_pointer (host k) b ;;
        DBUG_ASSERT (negb (fst r =? nullptr)) ;;;
        carve_records fuel' host (S k) num_records (snd r)
    end
  else Some b.

(** [Filesort_buffer::preallocate_records]; [new_block] is what
    [my_malloc] returns for the block of the exact size. *)
Definition preallocate_records `{Arena_env} (new_block : Z)
  (host : nat -> Z) (num_records : Z) (b : Filesort_buffer)
  : option (bool * Filesort_buffer) :=
  b <- reset b ;;
  let bytes_needed := wrap64 (num_records * m_max_record_length b) in
  if wrap64 (bytes_needed + wrap64 (num_records * pointer_size))
     >? m_max_size_in_bytes b
  then Some (true, b)
  else
    let r :=
      if m_next_rec_ptr b + bytes_needed >? m_current_block_end b then
        let b := free_sort_buffer b in
        let r := allocate_sized_block new_block bytes_needed b in
        if fst r then r
        else
          (false,
           set_record_pointers
             (vec_reserve num_records (m_record_pointers (snd r))) (snd r))
      else (false, b) in
    if fst r then Some r
    else
      b <- carve_records (Z.to_nat num_records) host 0 num_records (snd r) ;;
      Some (false, b).

(** [Filesort_buffer::get_contiguous_buffer]: the address and the size of
    the returned array. *)
Definition get_contiguous_buffer (new_block : Z) (b : Filesort_buffer)
  : (Z * Z) * Filesort_buffer :=
  if negb (m_current_block_size b =? m_max_size_in_bytes b) then
    let b := free_sort_buffer b in
    let r := allocate_sized_block new_block (m_max_size_in_bytes b) b in
    if fst r then ((nullptr, 0), snd r)
    else ((blk_start (last (m_blocks (snd r)) (mkBlock nullptr 0)),
           m_max_size_in_bytes b), snd r)
  else
    ((blk_start (last (m_blocks b) (mkBlock nullptr 0)),
      m_max_size_in_bytes b), b).

(** What the arena has committed: the bytes of its blocks and the storage
    reserved by the record pointer array. *)
Definition blocks_total_bytes (b : Filesort_buffer) : Z :=
  fold_right (fun blk acc => blk_size blk + acc) 0 (m_blocks b).

Definition committed_bytes (b : Filesort_buffer) : Z :=
  blocks_total_bytes b + vec_capacity (m_record_pointers b) * pointer_size.

(** A run of [allocate_block] calls: each with what [my_malloc] would
    return and the number of rows asked for.  The run stops with [None]
    only when a call has no result. *)
Fixpoint grow_many `{Arena_env} (calls : list (Z * Z)) (b : Filesort_buffer)
  : option Filesort_buffer :=
  match calls with
  | [] => Some b
  | (new_block, num_rows) :: rest =>
      r <- allocate_block new_block num_rows b ;;
      grow_many rest (snd r)
  end.

(** The counters of a buffer are values of their types and agree with
    its vectors: the size of the pointer array is within its capacity,
    and the two block counters add up to the bytes of the blocks. *)
Definition counters_ok (b : Filesort_buffer) : Prop :=
  vec_size (m_record_pointers b) <= vec_capacity (m_record_pointers b)
  /\ 0 <= m_current_block_size b
  /\ 0 <= m_space_used_other_blocks b
  /\ 0 <= m_max_record_length b < 2 ^ 64
  /\ 0 <= m_max_size_in_bytes b < 2 ^ 64
  /\ blocks_total_bytes b
     = m_current_block_size b + m_space_used_other_blocks b.

(** The footprint that [update_peak_memory_used] adds up fits [size_t]. *)
Definition footprint_fits (b : Filesort_buffer) : Prop :=
  0 <= vec_capacity (m_record_pointers b)
  /\ 0 <= m_current_block_size b
  /\ 0 <= m_space_used_other_blocks b
  /\ vec_capacity (m_record_pointers b) * pointer_size
     + m_current_block_size b + m_space_used_other_blocks b < 2 ^ 64.

(** The committed bytes are within the budget [m_max_size_in_bytes]. *)
Definition within_budget (b : Filesort_buffer) : Prop :=
  committed_bytes b <= m_max_size_in_bytes b.

(** The cursor is null without a block, and else ends where the last
    block ends. *)
Definition cursor_ok (b : Filesort_buffer) : Prop :=
  match m_blocks b with
  | [] =>
      m_next_rec_ptr b = nullptr /\ m_current_block_end b = nullptr
      /\ m_current_block_size b = 0
  | _ :: _ =>
      m_current_block_end b
      = blk_start (last (m_blocks b) (mkBlock nullptr 0))
        + m_current_block_size b
  end.

(** [b'] is [b] but for the capacity of the record pointer array, which
    is between the size of the array and the capacity in [b]. *)
Definition same_but_capacity (b b' : Filesort_buffer) : Prop :=
  m_blocks b' = m_blocks b
  /\ m_next_rec_ptr b' = m_next_rec_ptr b
  /\ m_current_block_end b' = m_current_block_end b
  /\ m_current_block_size b' = m_current_block_size b
  /\ m_space_used_other_blocks b' = m_space_used_other_blocks b
  /\ m_max_record_length b' = m_max_record_length b
  /\ m_max_size_in_bytes b' = m_max_size_in_bytes b
  /\ m_peak_memory_used b' = m_peak_memory_used b
  /\ vec_data (m_record_pointers b') = vec_data (m_record_pointers b)
  /\ vec_size (m_record_pointers b) <= vec_capacity (m_record_pointers b')
     <= vec_capacity (m_record_pointers b).

(** [shrink_to_fit()] never raises the capacity and keeps the elements. *)
Definition shrink_to_fit_sound `{Arena_env} : Prop :=
  forall size capacity,
    size <= capacity ->
    size <= shrink_to_fit_capacity size capacity <= capacity.

(** The blocks lie at addresses above [nullptr]. *)
Definition block_addresses_ok (b : Filesort_buffer) : Prop :=
  Forall (fun blk => 0 < blk_start blk) (m_blocks b).

(** [n] record slots of [len] bytes, one after the other from [base]. *)
Definition slots (base len : Z) (n : nat) : list Z :=
  map (fun i => base + Z.of_nat i * len) (seq 0 n).

(** An example environment: the first block has 32 KiB, and the vector
    shrinks to its size and doubles when full, as in the common C++
    libraries. *)
Definition example_arena_env : Arena_env :=
  {| MIN_SORT_MEMORY := 32768;
     shrink_to_fit_capacity := fun size _ => size;
     push_back_capacity := fun capacity => Z.max 1 (2 * capacity) |}.

(** A buffer with one block of 32 KiB and a pointer array that is empty
    but holds storage for 5000 pointers, as [reset] leaves it after a sort
    of many short rows; the rows now have 1000 bytes. *)
Definition example_slack_buffer : Filesort_buffer :=
  mkFilesort_buffer (mkVector [] 5000) [mkBlock 4096 32768] 4096 36864 32768
    0 1000 100000 0.

(** A buffer with a budget of 32 KiB and rows of 100 bytes, after its
    first block was added: the block has 30344 bytes, which leaves room for
    the pointers of the 303 rows that fit. *)
Definition example_grown_buffer : Filesort_buffer :=
  mkFilesort_buffer (mkVector [] 0) [mkBlock 4096 30344] 4096 34440 30344 0
    100 32768 0.

(** A buffer that keeps a block of 100 bytes for records of length 0. *)
Definition example_empty_records_buffer : Filesort_buffer :=
  mkFilesort_buffer (mkVector [] 0) [mkBlock 4096 100] 4096 4196 100 0 0
    1000 0.

(** The shape of a buffer that [reset] has returned. *)
Definition is_reset (b : Filesort_buffer) : Prop :=
  vec_data (m_record_pointers b) = []
  /\ m_space_used_other_blocks b = 0
  /\ wrap64
       (wrap64
          (wrap64 (vec_capacity (m_record_pointers b) * pointer_size)
           + m_current_block_size b) + 0)
     <= m_peak_memory_used b
  /\ (m_max_record_length b > m_current_block_size b ->
      vec_capacity (m_record_pointers b) = 0 /\ m_blocks b = [])
  /\ match m_blocks b with
     | [] =>
         m_next_rec_ptr b = nullptr /\ m_current_block_end b = nullptr
         /\ m_current_block_size b = 0
     | [blk] =>
         m_next_rec_ptr b = blk_start blk
         /\ m_current_block_end b = blk_start blk + m_current_block_size b
     | _ :: _ :: _ => False
     end.

(** ** The merge-cost estimators in exact arithmetic *)

(** In this part [double] is read as the real numbers, without rounding;
    the estimators over an arithmetic that rounds follow in [Double], of
    which these are the instance at the reals
    ([real_get_merge_many_buffs_cost_fast]). *)

(** The constants of the headers that are not part of this file:
    [MERGEBUFF] and [MERGEBUFF2] (sql/sql_sort.h), [IO_SIZE] (my_io.h).
    They are positive there. *)
Class Merge_constants : Type := {
  MERGEBUFF : Z;
  MERGEBUFF2 : Z;
  IO_SIZE : Z
}.

(** The two members of [Cost_model_table] (sql/opt_costmodel.h) that the
    estimators call. *)
Record Cost_model_table : Type := mkCost_model_table {
  io_block_read_cost : R -> R;
  key_compare_cost : R -> R
}.

(** [std::log2], for the arguments from 1 on that the estimators pass;
    [std::log] is [ln]. *)
Definition log2 (x : R) : R := (ln x / ln 2)%R.

(** [get_merge_cost]: the product [num_elements * elem_size] is taken in
    [ha_rows] before the conversion to [double]. *)
Definition get_merge_cost `{Merge_constants}
  (num_elements num_buffers elem_size : Z) (cost_model : Cost_model_table)
  : R :=
  let io_ops :=
    (IZR (wrap64 (num_elements * elem_size)) / IZR IO_SIZE)%R in
  let io_cost := io_block_read_cost cost_model io_ops in
  let cpu_cost :=
    key_compare_cost cost_model
      (IZR num_elements * log2 (IZR num_buffers))%R in
  (2 * io_cost + cpu_cost)%R.

(** The variables of the loop of [get_merge_many_buffs_cost_fast]. *)
Record Merge_state : Type := mkMerge_state {
  ms_num_buffers : Z;
  ms_last_n_elems : Z;
  ms_num_keys_per_buffer : Z;
  ms_total_cost : R
}.

(** The body of the loop: one pass of [merge_many_buff]. *)
Definition merge_pass `{Merge_constants} (elem_size : Z)
  (cost_model : Cost_model_table) (s : Merge_state) : Merge_state :=
  let num_buffers := ms_num_buffers s in
  let num_keys_per_buffer := ms_num_keys_per_buffer s in
  let loop_limit := wrap64 (num_buffers - MERGEBUFF * 3 / 2) in
  let num_merge_calls := wrap64 (1 + loop_limit / MERGEBUFF) in
  let num_remaining_buffs :=
    wrap64 (num_buffers - wrap64 (num_merge_calls * MERGEBUFF)) in
  let total_cost :=
    (ms_total_cost s
     + IZR num_merge_calls
       * get_merge_cost (wrap64 (num_keys_per_buffer * MERGEBUFF))
           MERGEBUFF elem_size cost_model)%R in
  let last_n_elems :=
    wrap64 (ms_last_n_elems s
            + wrap64 (num_remaining_buffs * num_keys_per_buffer)) in
  let total_cost :=
    (total_cost
     + get_merge_cost last_n_elems (wrap64 (1 + num_remaining_buffs))
         elem_size cost_model)%R in
  mkMerge_state num_merge_calls last_n_elems
    (wrap64 (num_keys_per_buffer * MERGEBUFF)) total_cost.

(** The loop [while (num_buffers >= MERGEBUFF2)]; [None] when it has not
    ended after [fuel] passes. *)
Fixpoint merge_passes `{Merge_constants} (fuel : nat) (elem_size : Z)
  (cost_model : Cost_model_table) (s : Merge_state) : option Merge_state :=
  if ms_num_buffers s >=? MERGEBUFF2 then
    match fuel with
    | O => None
    | S fuel' =>
        merge_passes fuel' elem_size cost_model
          (merge_pass elem_size cost_model s)
    end
  else Some s.

(** [get_merge_many_buffs_cost_fast].  A division by zero has no result.
    With [2 <= MERGEBUFF] and [MERGEBUFF * 3 / 2 <= MERGEBUFF2] a pass
    leaves at most half of the buffers, so that 64 passes end the loop
    for every 64-bit count. *)
Definition get_merge_many_buffs_cost_fast `{Merge_constants}
  (num_rows num_keys_per_buffer elem_size : Z)
  (cost_model : Cost_model_table) : option R :=
  if num_keys_per_buffer =? 0 then None
  else
    let num_buffers := num_rows / num_keys_per_buffer in
    let last_n_elems := num_rows mod num_keys_per_buffer in
    let total_cost :=
      (IZR num_buffers
       * key_compare_cost cost_model
           (IZR num_keys_per_buffer * ln (1 + IZR num_keys_per_buffer))
       + key_compare_cost cost_model
           (IZR last_n_elems * ln (1 + IZR last_n_elems)))%R in
    s <- merge_passes 64 elem_size cost_model
           (mkMerge_state num_buffers last_n_elems num_keys_per_buffer
              total_cost) ;;
    let last_n_elems :=
      wrap64 (ms_last_n_elems s
              + wrap64 (ms_num_keys_per_buffer s * ms_num_buffers s)) in
    Some (ms_total_cost s
          + get_merge_cost last_n_elems (wrap64 (1 + ms_num_buffers s))
              elem_size cost_model)%R.

(** A cost function of the table is non-negative and non-decreasing on
    the amounts of work, which are not negative. *)
Definition cost_monotone (f : R -> R) : Prop :=
  (forall x, 0 <= x -> 0 <= f x)%R
  /\ (forall x y, 0 <= x -> x <= y -> f x <= f y)%R.

(** The constants as MySQL has them. *)
Definition mysql_merge_constants : Merge_constants :=
  {| MERGEBUFF := 7; MERGEBUFF2 := 15; IO_SIZE := 4096 |}.

(** What the estimator needs of the constants: a fan-in of at least two,
    and a loop that is left before [num_buffers - MERGEBUFF * 3 / 2] can
    wrap. *)
Definition merge_constants_ok `{Merge_constants} : Prop :=
  2 <= MERGEBUFF /\ MERGEBUFF * 3 / 2 <= MERGEBUFF2 /\ MERGEBUFF2 < 2 ^ 64
  /\ 0 < IO_SIZE.

(** The cost of sorting the buffers, with which the estimate starts. *)
Definition sort_cost (cost_model : Cost_model_table)
  (num_rows num_keys_per_buffer : Z) : R :=
  let num_buffers := num_rows / num_keys_per_buffer in
  let last_n_elems := num_rows mod num_keys_per_buffer in
  (IZR num_buffers
   * key_compare_cost cost_model
       (IZR num_keys_per_buffer * ln (1 + IZR num_keys_per_buffer))
   + key_compare_cost cost_model
       (IZR last_n_elems * ln (1 + IZR last_n_elems)))%R.

(** A table that charges for bytes read and nothing for comparisons. *)
Definition io_only_table : Cost_model_table :=
  mkCost_model_table (fun x => x) (fun _ => 0%R).

(** ** Debug and release builds *)

(** [DBUG_ASSERT] is checked in a debug build and compiled out of a
    release build: [dbug_on] names the build. *)
Definition DBUG_ASSERT_in (dbug_on : bool) (c : bool) : option unit :=
  if dbug_on then DBUG_ASSERT c else Some tt.

(** The branches of [Filesort_buffer::sort_buffer] in a build.  With
    [dbug_on] this is [sort_buffer_dispatch]. *)
Definition sort_buffer_dispatch_in `{Sort_env} (dbug_on : bool)
  (param : Sort_param) (count : Z)
  : option (enum_sort_algorithm * Sort_call) :=
  let force_stable_sort := m_force_stable_sort param in
  if count <=? 1 then Some (FILESORT_ALG_NONE, No_sort)
  else if max_compare_length param =? 0 then Some (FILESORT_ALG_NONE, No_sort)
  else if using_varlen_keys param then
    if force_stable_sort then
      Some (FILESORT_ALG_STD_STABLE,
            Call_std_stable_sort
              (Mem_compare_varlen_key (local_sortorder param) (use_hash param)))
    else
      Some (FILESORT_ALG_STD_SORT,
            Call_std_sort
              (Mem_compare_varlen_key (local_sortorder param) (use_hash param)))
  else if (count <=? 100) && negb force_stable_sort then
    if max_compare_length param <? 10 then
      Some (FILESORT_ALG_STD_SORT,
            Call_std_sort (Mem_compare (max_compare_length param)))
    else
      Some (FILESORT_ALG_STD_SORT,
            Call_std_sort (Mem_compare_longkey (max_compare_length param)))
  else
    let compare_len := max_compare_length param in
    compare_len <-
      (if force_stable_sort && negb (using_addon_fields param) then
         DBUG_ASSERT_in dbug_on
           ((compare_len >? ref_length param)
            && negb (using_varlen_keys param)) ;;;
         Some (wrap32 (compare_len - ref_length param))
       else Some compare_len) ;;
    if compare_len <? 10 then
      Some (FILESORT_ALG_STD_STABLE,
            Call_std_stable_sort (Mem_compare compare_len))
    else
      Some (FILESORT_ALG_STD_STABLE,
            Call_std_stable_sort (Mem_compare_longkey compare_len)).

(** [Filesort_buffer::sort_buffer] in a build.  With [dbug_on] this is
    [sort_buffer]. *)
Definition sort_buffer_in `{Sort_env} (dbug_on : bool) (m : memory)
  (param : Sort_param) (count : Z) (buf : Filesort_buffer)
  : option (Sort_param * Filesort_buffer) :=
  r <- sort_buffer_dispatch_in dbug_on param count ;;
  let v := m_record_pointers buf in
  Some (set_sort_algorithm (fst r) param,
        set_record_pointers
          (mkVector (run_sort_call m (snd r) count (vec_data v))
             (vec_capacity v))
          buf).

(** The comparator looks at the first [n] bytes of the two keys only: it
    returns the same in two memories that agree on them. *)
Definition reads_first `{Sort_env} (c : Comparator) (n : Z) : Prop :=
  forall m m' s1 s2,
    (forall o, 0 <= o < n ->
               m (s1 + o) = m' (s1 + o) /\ m (s2 + o) = m' (s2 + o)) ->
    compare_with c m s1 s2 = compare_with c m' s1 s2.

(** A comparator within its precondition on keys of [key_length] bytes:
    [my_mem_compare] asserts [len > 0]; [my_mem_compare_longkey] reads the
    bytes 0 to 3 and [len - 4] more; neither may look past the key. *)
Definition comparator_in_key `{Sort_env} (key_length : Z) (c : Comparator)
  : Prop :=
  match c with
  | Mem_compare n => 0 < n <= key_length /\ reads_first c n
  | Mem_compare_longkey n => 10 <= n <= key_length /\ reads_first c n
  | Mem_compare_varlen_key _ _ => True
  end.

(** Parameters that break the assertion of [sort_buffer]: stability is
    forced, and the key is all row locator, or shorter than it. *)
Definition example_param_ref_only : @Sort_param example_sort_env :=
  mkSort_param true FILESORT_ALG_NONE 4 false false 4 [] false.

Definition example_param_short_key : @Sort_param example_sort_env :=
  mkSort_param true FILESORT_ALG_NONE 3 false false 4 [] false.

(** Two records with keys of three bytes, at 1100 and at 1000, in this
    order.  The keys are equal, three zero bytes each, in both memories;
    the byte after the key is the smaller at 1000 in the first memory and
    at 1100 in the second. *)
Definition example_two_records : Filesort_buffer :=
  mkFilesort_buffer (mkVector [1100; 1000] 2) [mkBlock 1000 32768]
    1103 33768 32768 0 3 65536 0.

Definition example_short_keys : memory :=
  fun a => if a =? 1003 then 1 else if a =? 1103 then 2 else 0.

Definition example_short_keys_swapped : memory :=
  fun a => if a =? 1003 then 2 else if a =? 1103 then 1 else 0.

(** ** The estimators in the arithmetic of [double] *)

(** The estimators compute in [double].  What they use of it: the
    conversion of an integer, which C++ applies to a row count wherever it
    meets a [double]; the sum, the product and the quotient; [std::log]
    and [std::log2] of the C library; and the order.  [dnonneg] holds of
    the values from 0 up, infinity included, and of no NaN; [dfinite] of
    the finite ones among them. *)
Class Double_env : Type := {
  double : Type;
  to_double : Z -> double;
  dadd : double -> double -> double;
  dmul : double -> double -> double;
  ddiv : double -> double -> double;
  std_log : double -> double;
  std_log2 : double -> double;
  dle : double -> double -> Prop;
  dnonneg : double -> Prop;
  dfinite : double -> Prop
}.

Module Double.

(** The two members of [Cost_model_table] (sql/opt_costmodel.h) that the
    estimators call. *)
Record Cost_model_table `{Double_env} : Type := mkCost_model_table {
  io_block_read_cost : double -> double;
  key_compare_cost : double -> double
}.

Arguments mkCost_model_table {_} _ _.

(** [get_merge_cost]: the product [num_elements * elem_size] is taken in
    [ha_rows] and then converted; [IO_SIZE], [num_elements], [num_buffers]
    and the literal 2 are converted where they meet a [double]. *)
Definition get_merge_cost `{Merge_constants} `{Double_env}
  (num_elements num_buffers elem_size : Z) (cost_model : Cost_model_table)
  : double :=
  let io_ops :=
    ddiv (to_double (wrap64 (num_elements * elem_size))) (to_double IO_SIZE) in
  let io_cost := io_block_read_cost cost_model io_ops in
  let cpu_cost :=
    key_compare_cost cost_model
      (dmul (to_double num_elements) (std_log2 (to_double num_buffers))) in
  dadd (dmul (to_double 2) io_cost) cpu_cost.

(** The variables of the loop of [get_merge_many_buffs_cost_fast]. *)
Record Merge_state `{Double_env} : Type := mkMerge_state {
  ms_num_buffers : Z;
  ms_last_n_elems : Z;
  ms_num_keys_per_buffer : Z;
  ms_total_cost : double
}.

Arguments mkMerge_state {_} _ _ _ _.

(** The body of the loop: one pass of [merge_many_buff]. *)
Definition merge_pass `{Merge_constants} `{Double_env} (elem_size : Z)
  (cost_model : Cost_model_table) (s : Merge_state) : Merge_state :=
  let num_buffers := ms_num_buffers s in
  let num_keys_per_buffer := ms_num_keys_per_buffer s in
  let loop_limit := wrap64 (num_buffers - MERGEBUFF * 3 / 2) in
  let num_merge_calls := wrap64 (1 + loop_limit / MERGEBUFF) in
  let num_remaining_buffs :=
    wrap64 (num_buffers - wrap64 (num_merge_calls * MERGEBUFF)) in
  let total_cost :=
    dadd (ms_total_cost s)
      (dmul (to_double num_merge_calls)
         (get_merge_cost (wrap64 (num_keys_per_buffer * MERGEBUFF))
            MERGEBUFF elem_size cost_model)) in
  let last_n_elems :=
    wrap64 (ms_last_n_elems s
            + wrap64 (num_remaining_buffs * num_keys_per_buffer)) in
  let total_cost :=
    dadd total_cost
      (get_merge_cost last_n_elems (wrap64 (1 + num_remaining_buffs))
         elem_size cost_model) in
  mkMerge_state num_merge_calls last_n_elems
    (wrap64 (num_keys_per_buffer * MERGEBUFF)) total_cost.

(** The loop [while (num_buffers >= MERGEBUFF2)]; [None] when it has not
    ended after [fuel] passes. *)
Fixpoint merge_passes `{Merge_constants} `{Double_env} (fuel : nat)
  (elem_size : Z) (cost_model : Cost_model_table) (s : Merge_state)
  : option Merge_state :=
  if ms_num_buffers s >=? MERGEBUFF2 then
    match fuel with
    | O => None
    | S fuel' =>
        merge_passes fuel' elem_size cost_model
          (merge_pass elem_size cost_model s)
    end
  else Some s.

(** The cost of sorting the buffers, with which the estimate starts. *)
Definition sort_cost `{Double_env} (cost_model : Cost_model_table)
  (num_buffers last_n_elems num_keys_per_buffer : Z) : double :=
  dadd
    (dmul (to_double num_buffers)
       (key_compare_cost cost_model
          (dmul (to_double num_keys_per_buffer)
             (std_log (dadd (to_double 1) (to_double num_keys_per_buffer))))))
    (key_compare_cost cost_model
       (dmul (to_double last_n_elems)
          (std_log (dadd (to_double 1) (to_double last_n_elems))))).

(** [get_merge_many_buffs_cost_fast].  A division by zero has no result;
    64 passes end the loop for every 64-bit count. *)
Definition get_merge_many_buffs_cost_fast `{Merge_constants} `{Double_env}
  (num_rows num_keys_per_buffer elem_size : Z)
  (cost_model : Cost_model_table) : option double :=
  if num_keys_per_buffer =? 0 then None
  else
    let num_buffers := num_rows / num_keys_per_buffer in
    let last_n_elems := num_rows mod num_keys_per_buffer in
    let total_cost :=
      sort_cost cost_model num_buffers last_n_elems num_keys_per_buffer in
    s <- merge_passes 64 elem_size cost_model
           (mkMerge_state num_buffers last_n_elems num_keys_per_buffer
              total_cost) ;;
    let last_n_elems :=
      wrap64 (ms_last_n_elems s
              + wrap64 (ms_num_keys_per_buffer s * ms_num_buffers s)) in
    Some (dadd (ms_total_cost s)
            (get_merge_cost last_n_elems (wrap64 (1 + ms_num_buffers s))
               elem_size cost_model)).

(** The formula of the spec for the cost of one merge, evaluated in
    [double]: the product of the two counts is their product as numbers. *)
Definition merge_cost_formula `{Merge_constants} `{Double_env}
  (num_elements num_buffers elem_size : Z) (cost_model : Cost_model_table)
  : double :=
  dadd
    (dmul (to_double 2)
       (io_block_read_cost cost_model
          (ddiv (to_double (num_elements * elem_size)) (to_double IO_SIZE))))
    (key_compare_cost cost_model
       (dmul (to_double num_elements) (std_log2 (to_double num_buffers)))).

End Double.

(** Exact arithmetic: the reals, none of which is infinite. *)
Definition real_double_env : Double_env :=
  {| double := R;
     to_double := IZR;
     dadd := Rplus;
     dmul := Rmult;
     ddiv := Rdiv;
     std_log := ln;
     std_log2 := log2;
     dle := Rle;
     dnonneg := fun x => (0 <= x)%R;
     dfinite := fun x => (0 <= x)%R |}.

(** A cost table of the estimators in exact arithmetic, as a table of
    [real_double_env]. *)
Definition real_table (cost_model : Cost_model_table)
  : @Double.Cost_model_table real_double_env :=
  @Double.mkCost_model_table real_double_env
    (io_block_read_cost cost_model) (key_compare_cost cost_model).

(** The arithmetic of IEEE 754 binary64, which is that of [double] on the
    platforms of the server: every operation rounds to nearest, ties to
    even, and so does the conversion of an integer.  [std::log] and
    [std::log2] come from the C library. *)
Definition binary64_of_Z (z : Z) : float :=
  SF2Prim (binary_normalize prec emax z 0 false).

Definition binary64_env (c_log c_log2 : float -> float) : Double_env :=
  {| double := float;
     to_double := binary64_of_Z;
     dadd := PrimFloat.add;
     dmul := PrimFloat.mul;
     ddiv := PrimFloat.div;
     std_log := c_log;
     std_log2 := c_log2;
     dle := fun a b => PrimFloat.leb a b = true;
     dnonneg := fun a => PrimFloat.leb 0 a = true;
     dfinite := fun a =>
       PrimFloat.leb 0 a && PrimFloat.ltb a infinity = true |}.

(** What the arithmetic of [double] has in common with exact arithmetic on
    the values that the estimators compute, which are not negative: the
    operations that combine costs are non-decreasing, and the three
    amounts of work that are passed to the cost table (the blocks of a
    merge, its comparisons, and the comparisons of sorting a buffer) are
    finite and non-decreasing in the row counts.  Rounding to nearest
    keeps the order, and a sum or product of such values can reach
    infinity but is no NaN.  Nothing here says that a sum or a product is
    exact, and no law bounds an error of rounding. *)
Record double_laws `{Double_env} : Prop := {
  dle_refl : forall a, dnonneg a -> dle a a;
  dle_trans : forall a b c, dle a b -> dle b c -> dle a c;
  dfinite_nonneg : forall a, dfinite a -> dnonneg a;
  dadd_nonneg : forall a b, dnonneg a -> dnonneg b -> dnonneg (dadd a b);
  dadd_monotone : forall a b c d,
    dnonneg a -> dnonneg c -> dle a b -> dle c d ->
    dle (dadd a c) (dadd b d);
  dadd_grows : forall a b, dnonneg a -> dnonneg b -> dle a (dadd a b);
  scale_nonneg : forall n c,
    0 <= n < 2 ^ 64 -> dfinite c -> dnonneg (dmul (to_double n) c);
  scale_positive_nonneg : forall n c,
    1 <= n < 2 ^ 64 -> dnonneg c -> dnonneg (dmul (to_double n) c);
  scale_monotone : forall n1 n2 c1 c2,
    0 <= n1 <= n2 -> n2 < 2 ^ 64 -> dfinite c1 -> dfinite c2 ->
    dle c1 c2 -> dle (dmul (to_double n1) c1) (dmul (to_double n2) c2);
  scale_positive_monotone : forall n1 n2 c,
    1 <= n1 <= n2 -> n2 < 2 ^ 64 -> dnonneg c ->
    dle (dmul (to_double n1) c) (dmul (to_double n2) c);
  io_ops_finite : forall bytes io_size,
    0 <= bytes < 2 ^ 64 -> 0 < io_size < 2 ^ 64 ->
    dfinite (ddiv (to_double bytes) (to_double io_size));
  io_ops_monotone : forall bytes1 bytes2 io_size,
    0 <= bytes1 <= bytes2 -> bytes2 < 2 ^ 64 -> 0 < io_size < 2 ^ 64 ->
    dle (ddiv (to_double bytes1) (to_double io_size))
      (ddiv (to_double bytes2) (to_double io_size));
  merge_work_finite : forall e nb,
    0 <= e < 2 ^ 64 -> 1 <= nb < 2 ^ 64 ->
    dfinite (dmul (to_double e) (std_log2 (to_double nb)));
  merge_work_monotone : forall e1 e2 nb1 nb2,
    0 <= e1 <= e2 -> e2 < 2 ^ 64 -> 1 <= nb1 <= nb2 -> nb2 < 2 ^ 64 ->
    dle (dmul (to_double e1) (std_log2 (to_double nb1)))
      (dmul (to_double e2) (std_log2 (to_double nb2)));
  sort_work_finite : forall n,
    0 <= n < 2 ^ 64 ->
    dfinite (dmul (to_double n) (std_log (dadd (to_double 1) (to_double n))));
  sort_work_monotone : forall n1 n2,
    0 <= n1 <= n2 -> n2 < 2 ^ 64 ->
    dle (dmul (to_double n1) (std_log (dadd (to_double 1) (to_double n1))))
      (dmul (to_double n2) (std_log (dadd (to_double 1) (to_double n2))))
}.

(** A cost function of the table is finite, not negative and
    non-decreasing on the finite amounts of work. *)
Definition double_cost_monotone `{Double_env} (f : double -> double) : Prop :=
  (forall x, dfinite x -> dfinite (f x))
  /\ (forall x y, dfinite x -> dfinite y -> dle x y -> dle (f x) (f y)).

(** The constants are values of [ha_rows] too. *)
Definition merge_constants_in_range `{Merge_constants} : Prop :=
  merge_constants_ok /\ IO_SIZE < 2 ^ 64.

(** Two runs of the loop of the estimator, the second with at least the
    buffers and the rows of the first, and at least its cost. *)
Definition pass_ordered `{Double_env} (max_rows : Z)
  (s1 s2 : Double.Merge_state) : Prop :=
  Double.ms_num_keys_per_buffer s1 = Double.ms_num_keys_per_buffer s2
  /\ 0 <= Double.ms_num_buffers s1 <= Double.ms_num_buffers s2
  /\ 0 <= Double.ms_last_n_elems s1 <= Double.ms_last_n_elems s2
  /\ 1 <= Double.ms_num_keys_per_buffer s2
  /\ Double.ms_last_n_elems s2
     + Double.ms_num_keys_per_buffer s2 * Double.ms_num_buffers s2
     <= max_rows
  /\ dnonneg (Double.ms_total_cost s1)
  /\ dnonneg (Double.ms_total_cost s2)
  /\ dle (Double.ms_total_cost s1) (Double.ms_total_cost s2).

(** [num_merge_calls] and [num_remaining_buffs] of a pass of the loop of
    [get_merge_many_buffs_cost_fast], from its [num_buffers]. *)
Definition pass_merge_calls `{Merge_constants} (num_buffers : Z) : Z :=
  let loop_limit := wrap64 (num_buffers - MERGEBUFF * 3 / 2) in
  wrap64 (1 + loop_limit / MERGEBUFF).

Definition pass_remaining_buffs `{Merge_constants} (num_buffers : Z) : Z :=
  wrap64 (num_buffers - wrap64 (pass_merge_calls num_buffers * MERGEBUFF)).

(** The merges that the loop simulates from [num_buffers] buffers, as
    counts of buffers: for each pass the buffers that it leaves to the
    last merge of the pass, and in the end the buffers that the final
    merge finds.  This is the loop without its costs and its rows. *)
Fixpoint merge_schedule `{Merge_constants} (fuel : nat) (num_buffers : Z)
  : list Z * Z :=
  if num_buffers >=? MERGEBUFF2 then
    match fuel with
    | O => ([], num_buffers)
    | S fuel' =>
        let rest := merge_schedule fuel' (pass_merge_calls num_buffers) in
        (pass_remaining_buffs num_buffers :: fst rest, snd rest)
    end
  else ([], num_buffers).

(** The passes of a run are covered by those of another: for each of them
    the other run has a pass too, which leaves at least as many buffers to
    its last merge. *)
Fixpoint passes_covered (passes1 passes2 : list Z) : Prop :=
  match passes1, passes2 with
  | [], _ => True
  | r1 :: rest1, r2 :: rest2 => r1 <= r2 /\ passes_covered rest1 rest2
  | _ :: _, [] => False
  end.

(** The merges of a run are covered by those of another: its passes are,
    and the final merge of the other finds at least as many buffers. *)
Definition schedule_covered (s1 s2 : list Z * Z) : Prop :=
  passes_covered (fst s1) (fst s2) /\ snd s1 <= snd s2.

(** Two runs that have left the loop, the second with at least the
    buffers, the rows and the cost of the first. *)
Definition run_ordered `{Merge_constants} `{Double_env} (max_rows : Z)
  (r1 r2 : Double.Merge_state) : Prop :=
  0 <= Double.ms_num_buffers r1 <= Double.ms_num_buffers r2
  /\ Double.ms_num_buffers r2 < MERGEBUFF2
  /\ 0 <= Double.ms_last_n_elems r1
  /\ 0 <= Double.ms_num_keys_per_buffer r1
  /\ 0 <= Double.ms_last_n_elems r2
  /\ 0 <= Double.ms_num_keys_per_buffer r2
  /\ Double.ms_last_n_elems r1
     + Double.ms_num_keys_per_buffer r1 * Double.ms_num_buffers r1
     <= Double.ms_last_n_elems r2
        + Double.ms_num_keys_per_buffer r2 * Double.ms_num_buffers r2
  /\ Double.ms_last_n_elems r2
     + Double.ms_num_keys_per_buffer r2 * Double.ms_num_buffers r2
     <= max_rows
  /\ dnonneg (Double.ms_total_cost r1)
  /\ dle (Double.ms_total_cost r1) (Double.ms_total_cost r2).

(** [std::log] and [std::log2] of the C library at small integers, each
    the nearest [double] to the logarithm.  The tables have no value at
    other arguments (NaN): an example that looks at a logarithm stays
    within them. *)
Definition example_log (x : float) : float :=
  if PrimFloat.eqb x 1 then 0%float
  else if PrimFloat.eqb x 2 then 0x1.62e42fefa39efp-1%float
  else if PrimFloat.eqb x 10 then 0x1.26bb1bbb55516p+1%float
  else if PrimFloat.eqb x 11 then 0x1.32ee3b77f374cp+1%float
  else nan.

Definition example_log2 (x : float) : float :=
  if PrimFloat.eqb x 1 then 0%float
  else if PrimFloat.eqb x 2 then 1%float
  else if PrimFloat.eqb x 3 then 0x1.95c01a39fbd68p+0%float
  else if PrimFloat.eqb x 4 then 2%float
  else if PrimFloat.eqb x 5 then 0x1.2934f0979a371p+1%float
  else if PrimFloat.eqb x 6 then 0x1.4ae00d1cfdeb4p+1%float
  else if PrimFloat.eqb x 7 then 0x1.675767f54042dp+1%float
  else if PrimFloat.eqb x 8 then 3%float
  else if PrimFloat.eqb x 9 then 0x1.95c01a39fbd68p+1%float
  else if PrimFloat.eqb x 10 then 0x1.a934f0979a371p+1%float
  else if PrimFloat.eqb x 15 then 0x1.f414fdb498226p+1%float
  else nan.

Definition example_binary64 : Double_env :=
  binary64_env example_log example_log2.

(** Cost tables in binary64.  One charges for blocks read and nothing
    for comparisons; three charge by a step: 0.3 (the nearest [double])
    for work from one comparison on, one unit from 40 comparisons on, one
    unit from 8 blocks on; one charges infinity for every comparison.  A
    table that charges the same for all comparisons does not look at the
    logarithms. *)
Definition binary64_io_only_table : @Double.Cost_model_table example_binary64 :=
  @Double.mkCost_model_table example_binary64
    (fun x => x) (fun _ => 0%float).

Definition binary64_rounding_table
  : @Double.Cost_model_table example_binary64 :=
  @Double.mkCost_model_table example_binary64
    (fun _ => 0%float)
    (fun x => if PrimFloat.leb 1 x then 0x1.3333333333333p-2%float
              else 0%float).

Definition binary64_compare_step_table
  : @Double.Cost_model_table example_binary64 :=
  @Double.mkCost_model_table example_binary64
    (fun _ => 0%float)
    (fun x => if PrimFloat.leb 40 x then 1%float else 0%float).

Definition binary64_io_step_table
  : @Double.Cost_model_table example_binary64 :=
  @Double.mkCost_model_table example_binary64
    (fun x => if PrimFloat.leb 8 x then 1%float else 0%float)
    (fun _ => 0%float).

Definition binary64_infinite_table
  : @Double.Cost_model_table example_binary64 :=
  @Double.mkCost_model_table example_binary64
    (fun _ => 0%float) (fun _ => infinity).

(** The estimate in binary64 with the constants of MySQL. *)
Definition binary64_estimate (num_rows num_keys_per_buffer elem_size : Z)
  (cost_model : @Double.Cost_model_table example_binary64) : option float :=
  @Double.get_merge_many_buffs_cost_fast mysql_merge_constants
    example_binary64 num_rows num_keys_per_buffer elem_size cost_model.

(** The merges that the estimator simulates with the constants of MySQL. *)
Definition mysql_schedule (num_buffers : Z) : list Z * Z :=
  @merge_schedule mysql_merge_constants 64 num_buffers.

(** Both costs of a table are cost functions. *)
Definition table_monotone `{Double_env} (cost_model : Double.Cost_model_table)
  : Prop :=
  double_cost_monotone (Double.io_block_read_cost cost_model)
  /\ double_cost_monotone (Double.key_compare_cost cost_model).

(** ** Further notions for the properties of the operations *)

(** [std::sort] returns a permutation of its range. *)
Definition std_sort_permutes `{Sort_env} : Prop :=
  forall less l, Permutation l (std_sort less l).

(** The range is in the order of the compared keys: no record has a key
    below that of an earlier record. *)
Definition sorted_by_key `{Sort_env} (m : memory) (param : Sort_param)
  (ptrs : list Z) : Prop :=
  StronglySorted
    (fun p q => lex_lt (compared_key m param q) (compared_key m param p)
                = false)
    ptrs.

(** The footprint of a buffer, as [update_peak_memory_used] adds it up,
    without the wrap-around. *)
Definition footprint (b : Filesort_buffer) : Z :=
  vec_capacity (m_record_pointers b) * pointer_size
  + m_current_block_size b + m_space_used_other_blocks b.

(** Every record pointer lies in a block that the buffer owns. *)
Definition pointers_in_blocks (b : Filesort_buffer) : Prop :=
  Forall
    (fun p =>
       Exists (fun blk => blk_start blk <= p <= blk_start blk + blk_size blk)
         (m_blocks b))
    (vec_data (m_record_pointers b)).

(** The size that [allocate_block] aims at before it looks at the rows
    asked for and at the budget: the first block has [MIN_SORT_MEMORY]
    bytes, a later one half as much again as the current one. *)
Definition growth_target `{Arena_env} (b : Filesort_buffer) : Z :=
  if m_current_block_size b =? 0 then MIN_SORT_MEMORY
  else wrap64 (m_current_block_size b + m_current_block_size b / 2).

(** A buffer with two blocks and two records in the second one. *)
Definition example_two_blocks : Filesort_buffer :=
  mkFilesort_buffer (mkVector [40000; 40100] 2)
    [mkBlock 4096 32768; mkBlock 40000 49152] 40200 89152 49152 32768 100
    1048576 0.

(** The rows of a state of the merge loop: the buffers still to merge,
    of [ms_num_keys_per_buffer] rows each, and the rows of the last,
    partial buffer are [num_rows] in all. *)
Definition rows_accounted (num_rows : Z) (s : Merge_state) : Prop :=
  0 <= ms_num_buffers s /\ 0 <= ms_last_n_elems s
  /\ 1 <= ms_num_keys_per_buffer s
  /\ ms_last_n_elems s + ms_num_keys_per_buffer s * ms_num_buffers s
     = num_rows.

(** The current block is the last one of the buffer, and there is none
    when its size is 0. *)
Definition current_block_ok (b : Filesort_buffer) : Prop :=
  m_current_block_size b = blk_size (last (m_blocks b) (mkBlock nullptr 0)).

(** The state of a buffer between the calls of its operations: the
    counters agree with the blocks, the committed bytes are within the
    budget, and the cursor ends at the last block, which is the current
    one. *)
Definition arena_ok (b : Filesort_buffer) : Prop :=
  counters_ok b /\ within_budget b /\ cursor_ok b /\ current_block_ok b.

(** ** Proof tools *)

(** Reduce the members of a buffer that is written out. *)
Ltac buffer_members :=
  cbn [m_record_pointers m_blocks m_next_rec_ptr m_current_block_end
       m_current_block_size m_space_used_other_blocks m_max_record_length
       m_max_size_in_bytes m_peak_memory_used vec_data vec_capacity
       blk_start blk_size fst snd] in *.

Ltac unfold_setters :=
  unfold set_record_pointers, set_peak_memory_used, set_blocks,
    set_next_rec_ptr, set_space_used_other_blocks in *.

(** Unfold [reset] on a buffer that is written out. *)
Ltac reset_members :=
  cbv beta iota zeta delta
    [reset update_peak_memory_used vec_clear free_sort_buffer
     set_record_pointers set_peak_memory_used set_blocks set_next_rec_ptr
     set_space_used_other_blocks m_record_pointers m_blocks m_next_rec_ptr
     m_current_block_end m_current_block_size m_space_used_other_blocks
     m_max_record_length m_max_size_in_bytes m_peak_memory_used vec_data
     vec_capacity].

(** * Properties *)

(** ** Machine integers *)

Lemma wrap64_small z : 0 <= z < 2 ^ 64 -> wrap64 z = z.
Proof. intros Hz. unfold wrap64. now apply Z.mod_small. Qed.

Lemma wrap32_small z : 0 <= z < 2 ^ 32 -> wrap32 z = z.
Proof. intros Hz. unfold wrap32. now apply Z.mod_small. Qed.

Lemma wrap64_range z : 0 <= wrap64 z < 2 ^ 64.
Proof. unfold wrap64. apply Z.mod_pos_bound. lia. Qed.

Lemma wrap64_le z : 0 <= z -> wrap64 z <= z.
Proof. intros Hz. unfold wrap64. apply Z.mod_le; lia. Qed.

(** ** The stable sort *)

Section StableSort.
Context {A : Type}.
Variable less : A -> A -> bool.

Lemma stable_insert_perm x l : Permutation (x :: l) (stable_insert less x l).
Proof.
  induction l as [|y l IH]; simpl; [reflexivity|].
  destruct (less y x); [|reflexivity].
  rewrite perm_swap. now constructor.
Qed.

Lemma std_stable_sort_perm l : Permutation l (std_stable_sort less l).
Proof.
  induction l as [|x l IH]; simpl; [constructor|].
  rewrite <- stable_insert_perm. now constructor.
Qed.

Lemma std_stable_sort_length l : length (std_stable_sort less l) = length l.
Proof. symmetry. apply Permutation_length, std_stable_sort_perm. Qed.

(** [cls] selects elements none of which is less than another one. *)
Variable cls : A -> bool.
Hypothesis cls_equiv :
  forall x y, cls x = true -> cls y = true -> less y x = false.

Lemma stable_insert_filter x l :
  filter cls (stable_insert less x l) = filter cls (x :: l).
Proof.
  induction l as [|y l IH]; [reflexivity|].
  cbn [stable_insert]. destruct (less y x) eqn:Hyx; [|reflexivity].
  cbn [filter] in *. rewrite IH.
  destruct (cls x) eqn:Hx; [|reflexivity].
  destruct (cls y) eqn:Hy; [|reflexivity].
  rewrite (cls_equiv x y Hx Hy) in Hyx. discriminate.
Qed.

Lemma std_stable_sort_filter l :
  filter cls (std_stable_sort less l) = filter cls l.
Proof.
  induction l as [|x l IH]; [reflexivity|].
  cbn [std_stable_sort]. rewrite stable_insert_filter.
  cbn [filter]. now rewrite IH.
Qed.
End StableSort.

(** With a comparator that is a strict weak ordering the result is
    sorted: no element is less than an earlier one. *)
Section StableSortSorted.
Context {A : Type}.
Variable less : A -> A -> bool.
Hypothesis less_asym : forall x y, less x y = true -> less y x = false.
Hypothesis not_less_trans :
  forall x y z, less y x = false -> less z y = false -> less z x = false.

Lemma stable_insert_sorted x l :
  StronglySorted (fun a b => less b a = false) l ->
  StronglySorted (fun a b => less b a = false) (stable_insert less x l).
Proof.
  induction 1 as [|y l Hsorted IH Hall]; cbn [stable_insert].
  - repeat constructor.
  - destruct (less y x) eqn:Hyx.
    + constructor; [exact IH|].
      apply (Permutation_Forall (stable_insert_perm less x l)).
      constructor; [now apply less_asym | exact Hall].
    + constructor; [now constructor|].
      constructor; [exact Hyx|].
      apply Forall_forall. intros z Hz.
      rewrite Forall_forall in Hall. specialize (Hall z Hz).
      now apply (not_less_trans x y z).
Qed.

Lemma std_stable_sort_sorted l :
  StronglySorted (fun a b => less b a = false) (std_stable_sort less l).
Proof.
  induction l as [|x l IH]; cbn [std_stable_sort]; [constructor|].
  now apply stable_insert_sorted.
Qed.
End StableSortSorted.

(** Sorting a prefix in place leaves a list whose prefix is the sorted
    one and whose rest is the old rest. *)
Lemma firstn_sorted_prefix {A : Type} (n : nat) (sorted l : list A) :
  length sorted = length (firstn n l) ->
  firstn n (sorted ++ skipn n l) = sorted
  /\ skipn n (sorted ++ skipn n l) = skipn n l.
Proof.
  intros Hlen. rewrite length_firstn in Hlen.
  destruct (Nat.le_gt_cases n (length l)) as [Hle|Hgt].
  - assert (length sorted = n) by lia. subst n. split.
    + rewrite firstn_app, Nat.sub_diag, firstn_all. cbn. apply app_nil_r.
    + rewrite skipn_app, Nat.sub_diag, skipn_all. reflexivity.
  - rewrite (skipn_all2 l) by lia. rewrite app_nil_r. split.
    + apply firstn_all2. lia.
    + apply skipn_all2. lia.
Qed.

(** ** The comparators are the lexicographic order of the key bytes *)

Lemma lex_lt_irrefl k : lex_lt k k = false.
Proof.
  induction k as [|x k IH]; [reflexivity|].
  cbn. now rewrite Z.eqb_refl.
Qed.

Lemma bytes_eqb_eq a b : bytes_eqb a b = true <-> a = b.
Proof.
  revert b. induction a as [|x a IH]; intros [|y b]; cbn; try easy.
  rewrite andb_true_iff, Z.eqb_eq, IH. split.
  - now intros [-> ->].
  - intros [= -> ->]. now split.
Qed.

Lemma my_mem_compare_lex m s1 s2 len :
  my_mem_compare m s1 s2 len
  = lex_lt (key_bytes m s1 len) (key_bytes m s2 len).
Proof.
  revert s1 s2. induction len as [|len IH]; intros s1 s2; [reflexivity|].
  cbn. destruct (m s1 =? m s2); cbn; [apply IH | reflexivity].
Qed.

Lemma memcmp_lex m s1 s2 n :
  (memcmp m s1 s2 n <? 0) = lex_lt (key_bytes m s1 n) (key_bytes m s2 n).
Proof.
  revert s1 s2. induction n as [|n IH]; intros s1 s2; [reflexivity|].
  cbn. destruct (m s1 =? m s2); [apply IH|].
  destruct (Z.ltb_spec (m s1 - m s2) 0), (Z.ltb_spec (m s1) (m s2));
    lia || reflexivity.
Qed.

Lemma key_bytes_4 m p n :
  key_bytes m p (4 + n)
  = m (p + 0) :: m (p + 1) :: m (p + 2) :: m (p + 3) :: key_bytes m (p + 4) n.
Proof.
  cbn [key_bytes Nat.add].
  replace (p + 1 + 1) with (p + 2) by lia.
  replace (p + 2 + 1) with (p + 3) by lia.
  replace (p + 3 + 1) with (p + 4) by lia.
  now rewrite Z.add_0_r.
Qed.

Lemma my_mem_compare_longkey_lex m s1 s2 len :
  4 <= len < 2 ^ 64 ->
  my_mem_compare_longkey m s1 s2 len
  = lex_lt (key_bytes m s1 (Z.to_nat len)) (key_bytes m s2 (Z.to_nat len)).
Proof.
  intros Hlen. unfold my_mem_compare_longkey.
  rewrite wrap64_small by lia.
  replace (Z.to_nat len) with (4 + Z.to_nat (len - 4))%nat by lia.
  rewrite !key_bytes_4, memcmp_lex. unfold COMPARE. cbn [lex_lt].
  repeat match goal with
         | |- context [?a =? ?b] => destruct (a =? b); cbn [negb]
         end; reflexivity.
Qed.

(** The lexicographic order of keys of one length is a strict weak
    ordering, so that the sorted range is in the order of the keys. *)
Lemma lex_lt_asym a b : lex_lt a b = true -> lex_lt b a = false.
Proof.
  revert b. induction a as [|x a IH]; intros [|y b]; cbn; try easy.
  rewrite (Z.eqb_sym y x).
  destruct (Z.eqb_spec x y) as [->|Hne]; [apply IH|].
  destruct (Z.ltb_spec x y), (Z.ltb_spec y x); lia || easy.
Qed.

Lemma lex_lt_not_trans a b c :
  length a = length b -> length b = length c ->
  lex_lt b a = false -> lex_lt c b = false -> lex_lt c a = false.
Proof.
  revert b c. induction a as [|x a IH]; intros [|y b] [|z c]; cbn;
    try easy.
  intros [= Hab] [= Hbc].
  destruct (Z.eqb_spec y x) as [Hyx|Hyx], (Z.eqb_spec z y) as [Hzy|Hzy],
    (Z.eqb_spec z x) as [Hzx|Hzx];
    destruct (Z.ltb_spec y x), (Z.ltb_spec z y), (Z.ltb_spec z x);
    try lia; try easy.
  now apply IH.
Qed.

Lemma key_bytes_length m p n : length (key_bytes m p n) = n.
Proof.
  revert p. induction n as [|n IH]; intros p; cbn; [reflexivity|].
  now rewrite IH.
Qed.

(** ** [sort_buffer] *)

Section SortBuffer.
Context `{Sort_env}.

Lemma set_record_pointers_same buf :
  set_record_pointers
    (mkVector (vec_data (m_record_pointers buf))
       (vec_capacity (m_record_pointers buf))) buf = buf.
Proof. destruct buf as [[d c] ? ? ? ? ? ? ? ?]. reflexivity. Qed.

(** C7.  A call of [sort_buffer] with [count <= 1], or with a maximum
    compare length of 0, returns with the buffer as it was (the record
    pointers, their capacity and every other member), and the algorithm
    written to the parameters is [FILESORT_ALG_NONE]. *)
Theorem sort_buffer_trivial_is_noop (m : memory) (param : Sort_param)
  (count : Z) (buf : Filesort_buffer) :
  count <= 1 \/ max_compare_length param = 0 ->
  sort_buffer m param count buf
  = Some (set_sort_algorithm FILESORT_ALG_NONE param, buf).
Proof.
  intros Htrivial. unfold sort_buffer, sort_buffer_dispatch.
  destruct (Z.leb_spec count 1) as [Hc|Hc].
  - cbn. now rewrite set_record_pointers_same.
  - destruct Htrivial as [Hle|Hzero]; [lia|].
    rewrite Hzero. cbn. now rewrite set_record_pointers_same.
Qed.

(** The outcomes of the dispatch, branch by branch. *)
Lemma sort_buffer_dispatch_cases (param : Sort_param) (count : Z)
  (alg : enum_sort_algorithm) (call : Sort_call) :
  sort_buffer_dispatch param count = Some (alg, call) ->
  (alg = FILESORT_ALG_NONE /\ call = No_sort
   /\ (count <= 1 \/ max_compare_length param = 0))
  \/ (1 < count /\ max_compare_length param <> 0 /\
      ((using_varlen_keys param = true /\
        call = (if m_force_stable_sort param
                then Call_std_stable_sort
                       (Mem_compare_varlen_key (local_sortorder param)
                          (use_hash param))
                else Call_std_sort
                       (Mem_compare_varlen_key (local_sortorder param)
                          (use_hash param))))
       \/ (using_varlen_keys param = false /\
           m_force_stable_sort param = false /\ count <= 100 /\
           call = Call_std_sort
                    (if max_compare_length param <? 10
                     then Mem_compare (max_compare_length param)
                     else Mem_compare_longkey (max_compare_length param)))
       \/ (using_varlen_keys param = false /\
           (m_force_stable_sort param = true \/ 100 < count) /\
           exists compare_len,
             (if m_force_stable_sort param && negb (using_addon_fields param)
              then max_compare_length param > ref_length param
                   /\ compare_len
                      = wrap32 (max_compare_length param - ref_length param)
              else compare_len = max_compare_length param)
             /\ alg = FILESORT_ALG_STD_STABLE
             /\ call = Call_std_stable_sort
                         (if compare_len <? 10 then Mem_compare compare_len
                          else Mem_compare_longkey compare_len)))).
Proof.
  unfold sort_buffer_dispatch.
  destruct (Z.leb_spec count 1) as [Hc|Hc].
  { intros [= <- <-]. left. auto. }
  destruct (Z.eqb_spec (max_compare_length param) 0) as [Hz|Hz].
  { intros [= <- <-]. left. auto. }
  intros Hd. right. split; [lia|]. split; [assumption|].
  destruct (using_varlen_keys param) eqn:Hvar.
  { left. split; [reflexivity|].
    destruct (m_force_stable_sort param); now inversion Hd. }
  right.
  destruct (Z.leb_spec count 100) as [Hh|Hh];
    destruct (m_force_stable_sort param) eqn:Hfs; cbn [andb negb] in Hd.
  2:{ left. repeat split; try assumption.
      destruct (max_compare_length param <? 10); now inversion Hd. }
  all: right; split; [reflexivity|]; split; [auto; right; lia|].
  - destruct (using_addon_fields param) eqn:Haddon; cbn [negb bind] in Hd.
    + exists (max_compare_length param). split; [reflexivity|].
      destruct (max_compare_length param <? 10); now inversion Hd.
    + destruct (Z.gtb_spec (max_compare_length param) (ref_length param))
        as [Hgt|Hgt]; cbn in Hd; [|discriminate].
      exists (wrap32 (max_compare_length param - ref_length param)).
      split; [split; [lia|reflexivity]|].
      destruct (_ <? 10); now inversion Hd.
  - destruct (using_addon_fields param) eqn:Haddon; cbn [negb bind] in Hd.
    + exists (max_compare_length param). split; [reflexivity|].
      destruct (max_compare_length param <? 10); now inversion Hd.
    + destruct (Z.gtb_spec (max_compare_length param) (ref_length param))
        as [Hgt|Hgt]; cbn in Hd; [|discriminate].
      exists (wrap32 (max_compare_length param - ref_length param)).
      split; [split; [lia|reflexivity]|].
      destruct (_ <? 10); now inversion Hd.
  - exists (max_compare_length param). split; [reflexivity|].
    cbn in Hd. destruct (max_compare_length param <? 10); now inversion Hd.
Qed.
End SortBuffer.

Section SortBufferComparators.
Context `{Sort_env}.

(** Keys with the same bytes: [cmp_varlen_keys] is a strict order of the
    keys, so that it never puts a key before an equal one. *)
Hypothesis cmp_varlen_keys_irrefl :
  forall sfa h m s1 s2,
    varlen_key m s1 = varlen_key m s2 -> cmp_varlen_keys sfa h m s1 s2 = false.

(** What a stable sort call does to the record pointers, for a class of
    records none of which the comparator puts before another one. *)
Lemma stable_call_keeps_order (m : memory) (c : Comparator) (count : Z)
  (ptrs : list Z) (cls : Z -> bool) :
  (forall x y, cls x = true -> cls y = true -> compare_with c m y x = false)
  -> let after := run_sort_call m (Call_std_stable_sort c) count ptrs in
     filter cls (firstn (Z.to_nat count) after)
     = filter cls (firstn (Z.to_nat count) ptrs)
     /\ skipn (Z.to_nat count) after = skipn (Z.to_nat count) ptrs
     /\ Permutation ptrs after.
Proof.
  intros Hcls. cbn [run_sort_call].
  set (n := Z.to_nat count).
  set (sorted := std_stable_sort (compare_with c m) (firstn n ptrs)).
  destruct (firstn_sorted_prefix n sorted ptrs) as [Hfirst Hskip].
  { apply std_stable_sort_length. }
  cbv zeta. rewrite Hfirst, Hskip. split; [|split; [reflexivity|]].
  - apply std_stable_sort_filter. exact Hcls.
  - rewrite <- (firstn_skipn n ptrs) at 1.
    apply Permutation_app_tail, std_stable_sort_perm.
Qed.

(** The fixed-length comparator of a length is the lexicographic order of
    that many key bytes. *)
Lemma fixed_comparator_lex (n : Z) (m : memory) (s1 s2 : Z) :
  0 <= n < 2 ^ 64 ->
  compare_with (if n <? 10 then Mem_compare n else Mem_compare_longkey n)
    m s1 s2
  = lex_lt (key_bytes m s1 (Z.to_nat n)) (key_bytes m s2 (Z.to_nat n)).
Proof.
  intros Hn. destruct (Z.ltb_spec n 10); cbn.
  - apply my_mem_compare_lex.
  - apply my_mem_compare_longkey_lex. lia.
Qed.

(** The same by compared key, for a comparator that never puts a record
    before one with the same compared key. *)
Lemma stable_call_by_key (m : memory) (param : Sort_param) (c : Comparator)
  (count : Z) (ptrs : list Z) :
  (forall x y, compared_key m param x = compared_key m param y ->
               compare_with c m y x = false) ->
  let after := run_sort_call m (Call_std_stable_sort c) count ptrs in
  (forall key,
     filter (fun p => bytes_eqb (compared_key m param p) key)
       (firstn (Z.to_nat count) after)
     = filter (fun p => bytes_eqb (compared_key m param p) key)
         (firstn (Z.to_nat count) ptrs))
  /\ skipn (Z.to_nat count) after = skipn (Z.to_nat count) ptrs
  /\ Permutation ptrs after.
Proof.
  intros Hcmp after. split.
  - intros key.
    apply (stable_call_keeps_order m c count ptrs
             (fun p => bytes_eqb (compared_key m param p) key)).
    intros x y Hx Hy. apply Hcmp.
    apply bytes_eqb_eq in Hx, Hy. congruence.
  - apply (stable_call_keeps_order m c count ptrs (fun _ => false)).
    discriminate.
Qed.

(** The stable sort with a fixed-length comparator leaves the pointers
    in the order of their keys. *)
Lemma fixed_stable_sort_sorted (n : Z) (m : memory) (ptrs : list Z) :
  0 <= n < 2 ^ 64 ->
  StronglySorted
    (fun p q =>
       lex_lt (key_bytes m q (Z.to_nat n)) (key_bytes m p (Z.to_nat n))
       = false)
    (std_stable_sort
       (compare_with
          (if n <? 10 then Mem_compare n else Mem_compare_longkey n) m)
       ptrs).
Proof.
  intros Hn.
  set (less := compare_with
                 (if n <? 10 then Mem_compare n else Mem_compare_longkey n)
                 m).
  assert (Hless : forall p q,
            less p q
            = lex_lt (key_bytes m p (Z.to_nat n))
                (key_bytes m q (Z.to_nat n))).
  { intros p q. subst less. now apply fixed_comparator_lex. }
  assert (Hsorted :
    StronglySorted (fun p q => less q p = false) (std_stable_sort less ptrs)).
  { apply std_stable_sort_sorted.
    - intros x y. rewrite !Hless. apply lex_lt_asym.
    - intros x y z. rewrite !Hless.
      apply lex_lt_not_trans; now rewrite !key_bytes_length. }
  induction Hsorted as [|p l _ IH Hall]; constructor; [exact IH|].
  eapply Forall_impl; [|exact Hall].
  intros q Hq. cbv beta in Hq |- *. now rewrite <- Hless.
Qed.

(** C3.  A call of [sort_buffer] with [m_force_stable_sort] set keeps
    the records with equal compared key bytes in their order: for every
    byte string, the records of the sorted range that have it as their
    compared key are the same sequence before and after the call; the
    pointers past the range stay, and the call permutes the pointers.  The
    call has a result when the assertion of the function holds.  In
    particular three records with the one-byte keys "b", "a", "a" come
    out as the second, the third, the first. *)
Theorem sort_buffer_stable (m : memory) (param : Sort_param) (count : Z)
  (buf : Filesort_buffer) :
  param_in_range param ->
  m_force_stable_sort param = true ->
  (forall param' buf',
      sort_buffer m param count buf = Some (param', buf') ->
      let before := vec_data (m_record_pointers buf) in
      let after := vec_data (m_record_pointers buf') in
      (forall key,
         filter (fun p => bytes_eqb (compared_key m param p) key)
           (firstn (Z.to_nat count) after)
         = filter (fun p => bytes_eqb (compared_key m param p) key)
             (firstn (Z.to_nat count) before))
      /\ skipn (Z.to_nat count) after = skipn (Z.to_nat count) before
      /\ Permutation before after)
  /\ ((using_varlen_keys param = false ->
       using_addon_fields param = false ->
       max_compare_length param > ref_length param) ->
      exists param' buf', sort_buffer m param count buf = Some (param', buf'))
  /\ (forall p0 p1 p2,
      using_varlen_keys param = false ->
      compared_length param = 1 ->
      count = 3 ->
      vec_data (m_record_pointers buf) = [p0; p1; p2] ->
      m p0 = 98 -> m p1 = 97 -> m p2 = 97 ->
      exists param' buf',
        sort_buffer m param count buf = Some (param', buf')
        /\ vec_data (m_record_pointers buf') = [p1; p2; p0]).
Proof.
  intros [Hmcl Href] Hfs. split; [|split].
  - intros param' buf' Hsort. unfold sort_buffer in Hsort.
    destruct (sort_buffer_dispatch param count) as [[alg call]|] eqn:Hd;
      [|discriminate].
    cbn in Hsort. inversion Hsort; subst param' buf'. clear Hsort. cbn.
    apply sort_buffer_dispatch_cases in Hd.
    destruct Hd as [(_ & -> & _) | (Hcount & Hnz & Hd)].
    { cbn. auto using Permutation_refl. }
    destruct Hd as [[Hvar ->] | [(_ & Hfs' & _) | (Hvar & _ & Hd)]];
      [|congruence|].
    + rewrite Hfs. apply stable_call_by_key.
      intros x y Hxy. cbn. apply cmp_varlen_keys_irrefl.
      unfold compared_key in Hxy. rewrite Hvar in Hxy. now symmetry.
    + destruct Hd as (compare_len & Hlen & _ & ->).
      assert (Hcl : 0 <= compare_len < 2 ^ 64
                    /\ compare_len = compared_length param).
      { unfold compared_length. rewrite Hfs in *. cbn [andb] in *.
        destruct (negb (using_addon_fields param)).
        - destruct Hlen as [Hgt ->]. rewrite wrap32_small; lia.
        - subst compare_len. lia. }
      destruct Hcl as [Hrange Hcl].
      apply stable_call_by_key. intros x y Hxy.
      rewrite fixed_comparator_lex by exact Hrange.
      unfold compared_key in Hxy. rewrite Hvar, <- Hcl in Hxy.
      rewrite Hxy. apply lex_lt_irrefl.
  - intros Hassert. unfold sort_buffer, sort_buffer_dispatch.
    destruct (count <=? 1); [cbn; eauto|].
    destruct (max_compare_length param =? 0); [cbn; eauto|].
    rewrite Hfs. destruct (using_varlen_keys param); [cbn; eauto|].
    rewrite andb_false_r. cbn [andb].
    destruct (using_addon_fields param); cbn [negb].
    + cbn. destruct (_ <? 10); cbn; eauto.
    + destruct (Z.gtb_spec (max_compare_length param) (ref_length param));
        [|specialize (Hassert eq_refl eq_refl); lia].
      cbn. destruct (_ <? 10); cbn; eauto.
  - intros p0 p1 p2 Hvar Hone -> Hptrs Hb Ha1 Ha2.
    unfold sort_buffer, sort_buffer_dispatch.
    assert (Hnz : (max_compare_length param =? 0) = false).
    { apply Z.eqb_neq. unfold compared_length in Hone.
      destruct (_ && _) in Hone; lia. }
    rewrite Hnz, Hvar, Hfs, Hptrs. cbn [andb negb].
    replace (3 <=? 1) with false by reflexivity.
    rewrite andb_false_r.
    unfold compared_length in Hone. rewrite Hfs in Hone. cbn [andb] in Hone.
    assert (Hsorted :
      std_stable_sort (compare_with (Mem_compare 1) m) [p0; p1; p2]
      = [p1; p2; p0]).
    { unfold compare_with. change (Z.to_nat 1) with 1%nat.
      cbn [std_stable_sort stable_insert my_mem_compare].
      rewrite Ha1, Ha2. cbn. rewrite Ha1, Hb. cbn. rewrite ?Ha2, ?Hb.
      reflexivity. }
    assert (Hlen :
      (if negb (using_addon_fields param)
       then DBUG_ASSERT ((max_compare_length param >? ref_length param)
                         && true) ;;;
            Some (wrap32 (max_compare_length param - ref_length param))
       else Some (max_compare_length param)) = Some 1).
    { destruct (negb (using_addon_fields param)).
      - destruct (Z.gtb_spec (max_compare_length param) (ref_length param));
          [|lia].
        cbn. rewrite Hone. reflexivity.
      - now rewrite Hone. }
    rewrite Hlen. cbn [bind]. replace (1 <? 10) with true by reflexivity.
    eexists _, _. split; [reflexivity|].
    cbn [fst snd run_sort_call set_record_pointers m_record_pointers vec_data].
    replace (Z.to_nat 3) with 3%nat by reflexivity.
    cbn [firstn skipn]. rewrite Hsorted. reflexivity.
Qed.
End SortBufferComparators.

(** *** The theorems at the example *)

Lemma example_cmp_varlen_keys_irrefl :
  forall sfa h m s1 s2,
    @varlen_key example_sort_env m s1 = @varlen_key example_sort_env m s2 ->
    @cmp_varlen_keys example_sort_env sfa h m s1 s2 = false.
Proof.
  intros sfa h m s1 s2 Hkey.
  change (lex_lt (@varlen_key example_sort_env m s1)
            (@varlen_key example_sort_env m s2) = false).
  rewrite Hkey. apply lex_lt_irrefl.
Qed.

Lemma example_param_in_range : param_in_range example_param.
Proof. unfold param_in_range. cbn. lia. Qed.

Lemma sort_buffer_trivial_is_noop_witness :
  sort_buffer example_memory example_param 1 example_records
  = Some (set_sort_algorithm FILESORT_ALG_NONE example_param, example_records).
Proof.
  apply (sort_buffer_trivial_is_noop example_memory example_param 1
           example_records).
  left. lia.
Defined.

Lemma sort_buffer_stable_witness :
  exists param' buf',
    sort_buffer example_memory example_param 3 example_records
    = Some (param', buf')
    /\ vec_data (m_record_pointers buf') = [1005; 1010; 1000].
Proof.
  destruct (sort_buffer_stable example_cmp_varlen_keys_irrefl example_memory
              example_param 3 example_records example_param_in_range eq_refl)
    as (_ & _ & Hscenario).
  apply Hscenario; reflexivity.
Defined.

(** ** The comparison that orders the records under forced stability *)

Lemma stable_insert_ext {A : Type} (less less' : A -> A -> bool) (x : A)
  (l : list A) :
  (forall y, In y l -> less y x = less' y x) ->
  stable_insert less x l = stable_insert less' x l.
Proof.
  induction l as [|y l IH]; intros Hext; [reflexivity|].
  cbn [stable_insert]. rewrite (Hext y) by now left.
  destruct (less' y x); [|reflexivity].
  rewrite IH; [reflexivity|]. intros z Hz. apply Hext. now right.
Qed.

Lemma std_stable_sort_ext {A : Type} (less less' : A -> A -> bool)
  (l : list A) :
  (forall x y, In x l -> In y l -> less x y = less' x y) ->
  std_stable_sort less l = std_stable_sort less' l.
Proof.
  induction l as [|x l IH]; intros Hext; [reflexivity|].
  cbn [std_stable_sort]. rewrite IH.
  - apply stable_insert_ext. intros y Hy. apply Hext; [|now left].
    right. eapply Permutation_in; [|exact Hy].
    apply Permutation_sym, std_stable_sort_perm.
  - intros y z Hy Hz. apply Hext; now right.
Qed.

Lemma std_stable_sort_short {A : Type} (less : A -> A -> bool) (l : list A) :
  (length l <= 1)%nat -> std_stable_sort less l = l.
Proof. destruct l as [|x [|y l]]; cbn; intros Hlen; try reflexivity; lia. Qed.

Section SortBufferExcludesRef.
Context `{Sort_env}.

(** What [sort_buffer] returns under forced stability with fixed-length
    keys and no addon fields: the stable sort of the range by the first
    [max_compare_length - ref_length] bytes of the keys. *)
Lemma sort_buffer_forced_fixed (m : memory) (param : Sort_param) (count : Z)
  (buf : Filesort_buffer) :
  param_in_range param ->
  using_varlen_keys param = false ->
  m_force_stable_sort param = true ->
  using_addon_fields param = false ->
  max_compare_length param > ref_length param ->
  let len := Z.to_nat (max_compare_length param - ref_length param) in
  let less := fun p q => lex_lt (key_bytes m p len) (key_bytes m q len) in
  let ptrs := vec_data (m_record_pointers buf) in
  sort_buffer m param count buf
  = Some (set_sort_algorithm
            (if count <=? 1 then FILESORT_ALG_NONE
             else FILESORT_ALG_STD_STABLE) param,
          set_record_pointers
            (mkVector
               (std_stable_sort less (firstn (Z.to_nat count) ptrs)
                ++ skipn (Z.to_nat count) ptrs)
               (vec_capacity (m_record_pointers buf)))
            buf).
Proof.
  intros [Hmcl Href] Hvar Hfs Haddon Hgt len less ptrs.
  unfold sort_buffer, sort_buffer_dispatch.
  destruct (Z.leb_spec count 1) as [Hone|Hmany].
  - cbn [bind fst snd run_sort_call]. fold ptrs.
    rewrite std_stable_sort_short, firstn_skipn; [reflexivity|].
    rewrite length_firstn. lia.
  - destruct (Z.eqb_spec (max_compare_length param) 0); [lia|].
    rewrite Hvar, Hfs, Haddon, andb_false_r. cbn [andb negb].
    destruct (Z.gtb_spec (max_compare_length param) (ref_length param));
      [|lia].
    cbn [DBUG_ASSERT bind andb]. rewrite wrap32_small by lia.
    set (clen := max_compare_length param - ref_length param).
    assert (Hsort : forall l,
              std_stable_sort
                (compare_with
                   (if clen <? 10 then Mem_compare clen
                    else Mem_compare_longkey clen)
                   m) l
              = std_stable_sort less l).
    { intros l. apply std_stable_sort_ext. intros x y _ _.
      apply fixed_comparator_lex. subst clen. lia. }
    destruct (clen <? 10) eqn:Hshort; cbn [bind fst snd run_sort_call];
      fold ptrs; now rewrite Hsort.
Qed.

(** C6.  With fixed-length keys, forced stability, no addon fields and
    [max_compare_length > ref_length], [sort_buffer] orders the records by
    exactly the first [max_compare_length - ref_length] bytes of their
    keys.  The record pointers that it returns are the stable sort of the
    range by the lexicographic order of those bytes, so that the range
    comes out sorted by them; and the bytes after them, the row locator,
    take no part: with other bytes there, in a memory that agrees on the
    leading bytes of the keys in the range, the call returns the same. *)
Theorem sort_buffer_excludes_ref (m : memory) (param : Sort_param)
  (count : Z) (buf : Filesort_buffer) :
  param_in_range param ->
  using_varlen_keys param = false ->
  m_force_stable_sort param = true ->
  using_addon_fields param = false ->
  max_compare_length param > ref_length param ->
  let len := Z.to_nat (max_compare_length param - ref_length param) in
  let less := fun p q => lex_lt (key_bytes m p len) (key_bytes m q len) in
  let ptrs := vec_data (m_record_pointers buf) in
  exists param' buf',
    sort_buffer m param count buf = Some (param', buf')
    /\ (1 < count -> m_sort_algorithm param' = FILESORT_ALG_STD_STABLE)
    /\ vec_data (m_record_pointers buf')
       = std_stable_sort less (firstn (Z.to_nat count) ptrs)
         ++ skipn (Z.to_nat count) ptrs
    /\ StronglySorted (fun p q => less q p = false)
         (firstn (Z.to_nat count) (vec_data (m_record_pointers buf')))
    /\ (forall m',
          (forall p, In p (firstn (Z.to_nat count) ptrs) ->
                     key_bytes m' p len = key_bytes m p len) ->
          sort_buffer m' param count buf = Some (param', buf')).
Proof.
  intros Hrange Hvar Hfs Haddon Hgt len less ptrs.
  eexists _, _. split.
  { apply sort_buffer_forced_fixed; assumption. }
  split; [|split; [|split]].
  - intros Hcount. cbn.
    destruct (Z.leb_spec count 1); [lia|reflexivity].
  - reflexivity.
  - cbn [set_record_pointers m_record_pointers vec_data]. fold ptrs len less.
    destruct (firstn_sorted_prefix (Z.to_nat count)
                (std_stable_sort less (firstn (Z.to_nat count) ptrs)) ptrs)
      as [Hfirst _].
    { apply std_stable_sort_length. }
    rewrite Hfirst. apply std_stable_sort_sorted.
    + intros x y. apply lex_lt_asym.
    + intros x y z. apply lex_lt_not_trans.
      * subst len. now rewrite !key_bytes_length.
      * subst len. now rewrite !key_bytes_length.
  - intros m' Hagree.
    rewrite (sort_buffer_forced_fixed m') by assumption.
    cbv zeta. fold len ptrs. do 5 f_equal.
    apply std_stable_sort_ext. intros x y Hx Hy.
    now rewrite (Hagree x Hx), (Hagree y Hy).
Qed.
End SortBufferExcludesRef.

(** A memory with other row locators: in [example_memory] they count
    down, here they count up. *)
Lemma sort_buffer_excludes_ref_witness :
  exists param' buf',
    sort_buffer example_memory example_param 3 example_records
    = Some (param', buf')
    /\ vec_data (m_record_pointers buf') = [1005; 1010; 1000]
    /\ sort_buffer
         (fun a => if a =? 1004 then 1 else if a =? 1009 then 2
                   else if a =? 1014 then 3 else example_memory a)
         example_param 3 example_records
       = Some (param', buf').
Proof.
  destruct (sort_buffer_excludes_ref example_memory example_param 3
              example_records example_param_in_range eq_refl eq_refl
              eq_refl ltac:(cbn; lia))
    as (param' & buf' & Hsort & _ & Hdata & _ & Hlocator).
  exists param', buf'. split; [exact Hsort|]. split.
  - rewrite Hdata. reflexivity.
  - apply Hlocator. intros p Hp.
    cbn in Hp. destruct Hp as [<-|[<-|[<-|[]]]]; reflexivity.
Defined.

(** ** The comparators that [sort_buffer] calls *)

Lemma key_bytes_agree (m m' : memory) (p : Z) (n : nat) :
  (forall o, 0 <= o < Z.of_nat n -> m (p + o) = m' (p + o)) ->
  key_bytes m p n = key_bytes m' p n.
Proof.
  revert p. induction n as [|n IH]; intros p Hagree; [reflexivity|].
  cbn [key_bytes]. f_equal.
  - specialize (Hagree 0 ltac:(lia)). now rewrite Z.add_0_r in Hagree.
  - apply IH. intros o Ho.
    replace (p + 1 + o) with (p + (1 + o)) by lia. apply Hagree. lia.
Qed.

Section SortBufferCalls.
Context `{Sort_env}.

Lemma sort_buffer_dispatch_in_debug (param : Sort_param) (count : Z) :
  sort_buffer_dispatch_in true param count = sort_buffer_dispatch param count.
Proof. reflexivity. Qed.

(** The fixed-length comparator that [sort_buffer] builds for a length
    looks at that many bytes. *)
Lemma fixed_comparator_in_key (key_length n : Z) :
  0 < n <= key_length -> n < 2 ^ 64 ->
  comparator_in_key key_length
    (if n <? 10 then Mem_compare n else Mem_compare_longkey n).
Proof.
  intros Hn Hmax.
  assert (Hreads :
    reads_first (if n <? 10 then Mem_compare n else Mem_compare_longkey n) n).
  { intros m m' s1 s2 Hagree.
    rewrite !fixed_comparator_lex by lia.
    rewrite (key_bytes_agree m m' s1), (key_bytes_agree m m' s2);
      [reflexivity| |]; intros o Ho; apply Hagree; lia. }
  destruct (Z.ltb_spec n 10); cbn [comparator_in_key]; split; try lia;
    exact Hreads.
Qed.

(** The branches of [sort_buffer] in either build, under what it
    asserts where it asserts it: there is a result, and its comparator is
    within the key. *)
Lemma sort_buffer_dispatch_in_key (dbug_on : bool) (param : Sort_param)
  (count : Z) :
  param_in_range param ->
  (1 < count -> max_compare_length param <> 0 ->
   m_force_stable_sort param = true ->
   using_addon_fields param = false ->
   using_varlen_keys param = false ->
   max_compare_length param > ref_length param) ->
  exists alg call,
    sort_buffer_dispatch_in dbug_on param count = Some (alg, call)
    /\ forall c, call_comparator call = Some c ->
                 comparator_in_key (max_compare_length param) c.
Proof.
  intros [Hmcl Href] Hassert. unfold sort_buffer_dispatch_in.
  destruct (Z.leb_spec count 1) as [|Hcount].
  { eexists _, _. split; [reflexivity|]. discriminate. }
  destruct (Z.eqb_spec (max_compare_length param) 0) as [|Hlength].
  { eexists _, _. split; [reflexivity|]. discriminate. }
  destruct (using_varlen_keys param) eqn:Hvar.
  { destruct (m_force_stable_sort param); eexists _, _;
      (split; [reflexivity|]); intros c [= <-]; exact I. }
  assert (Hfull :
    comparator_in_key (max_compare_length param)
      (if max_compare_length param <? 10
       then Mem_compare (max_compare_length param)
       else Mem_compare_longkey (max_compare_length param))).
  { apply fixed_comparator_in_key; lia. }
  destruct ((count <=? 100) && negb (m_force_stable_sort param)).
  { destruct (max_compare_length param <? 10); eexists _, _;
      (split; [reflexivity|]); intros c [= <-]; exact Hfull. }
  destruct (m_force_stable_sort param) eqn:Hfs; cbn [andb].
  - destruct (using_addon_fields param) eqn:Haddon; cbn [negb].
    + cbn [bind]. destruct (max_compare_length param <? 10); eexists _, _;
        (split; [reflexivity|]); intros c [= <-]; exact Hfull.
    + specialize (Hassert Hcount Hlength eq_refl eq_refl eq_refl).
      destruct (Z.gtb_spec (max_compare_length param) (ref_length param));
        [|lia].
      assert (Hkey :
        comparator_in_key (max_compare_length param)
          (if max_compare_length param - ref_length param <? 10
           then Mem_compare (max_compare_length param - ref_length param)
           else Mem_compare_longkey
                  (max_compare_length param - ref_length param))).
      { apply fixed_comparator_in_key; lia. }
      unfold DBUG_ASSERT_in, DBUG_ASSERT. cbn [andb negb].
      rewrite wrap32_small by lia.
      destruct dbug_on; cbn [bind];
        destruct (max_compare_length param - ref_length param <? 10);
        eexists _, _; (split; [reflexivity|]); intros c [= <-]; exact Hkey.
  - cbn [bind]. destruct (max_compare_length param <? 10); eexists _, _;
      (split; [reflexivity|]); intros c [= <-]; exact Hfull.
Qed.

(** C10, as the code has it.  When [max_compare_length > ref_length]
    holds in the calls that sort (more than one record, a key that is not
    empty) with stability forced, fixed-length keys and no addon fields,
    which is what [sort_buffer] asserts there, every call has a result in
    both builds: [sort_buffer] records the algorithm and applies the
    sort of its branch to the record pointers, in any memory and on any
    buffer.  The comparator that it passes to that sort is within its
    precondition: [Mem_compare] has a length above 0,
    [Mem_compare_longkey] one of at least 10, neither length exceeds
    [max_compare_length], and the comparator returns the same in any two
    memories that agree on that many bytes of the two keys, so that it
    looks at no byte past the compared key. *)
Theorem sort_buffer_comparator_preconditions (dbug_on : bool)
  (param : Sort_param) (count : Z) :
  param_in_range param ->
  (1 < count -> max_compare_length param <> 0 ->
   m_force_stable_sort param = true ->
   using_addon_fields param = false ->
   using_varlen_keys param = false ->
   max_compare_length param > ref_length param) ->
  exists alg call,
    sort_buffer_dispatch_in dbug_on param count = Some (alg, call)
    /\ (forall m buf,
          sort_buffer_in dbug_on m param count buf
          = Some (set_sort_algorithm alg param,
                  set_record_pointers
                    (mkVector
                       (run_sort_call m call count
                          (vec_data (m_record_pointers buf)))
                       (vec_capacity (m_record_pointers buf)))
                    buf))
    /\ forall c, call_comparator call = Some c ->
                 comparator_in_key (max_compare_length param) c.
Proof.
  intros Hrange Hassert.
  destruct (sort_buffer_dispatch_in_key dbug_on param count Hrange Hassert)
    as (alg & call & Hdispatch & Hkey).
  exists alg, call. split; [exact Hdispatch|]. split; [|exact Hkey].
  intros m buf. unfold sort_buffer_in. rewrite Hdispatch. reflexivity.
Qed.
End SortBufferCalls.

Lemma sort_buffer_in_debug `{Sort_env} (m : memory) (param : Sort_param)
  (count : Z) (buf : Filesort_buffer) :
  sort_buffer_in true m param count buf = sort_buffer m param count buf.
Proof. reflexivity. Qed.

Lemma sort_buffer_comparator_preconditions_witness :
  exists alg call,
    sort_buffer_dispatch_in false example_param 3 = Some (alg, call)
    /\ (forall m buf,
          sort_buffer_in false m example_param 3 buf
          = Some (set_sort_algorithm alg example_param,
                  set_record_pointers
                    (mkVector
                       (run_sort_call m call 3
                          (vec_data (m_record_pointers buf)))
                       (vec_capacity (m_record_pointers buf)))
                    buf))
    /\ forall c, call_comparator call = Some c ->
                 comparator_in_key (max_compare_length example_param) c.
Proof.
  apply (sort_buffer_comparator_preconditions false example_param 3
           example_param_in_range).
  intros _ _ _ _ _. cbn. lia.
Defined.

(** C10 as stated fails.  In a release build the assertion is not
    there: with forced stability, no addon fields and a key that is all
    row locator, [sort_buffer] calls [Mem_compare] with length 0; with a
    key shorter than the row locator the length wraps in [uint], and it
    calls [Mem_compare_longkey] with 2 ^ 32 - 1, which looks at the byte at
    offset 3 of keys of 3 bytes: two records with equal keys come out in
    the order of the bytes after their keys.  A debug build stops at the
    assertion. *)
Lemma sort_buffer_calls_comparator_out_of_range :
  sort_buffer_dispatch_in false example_param_ref_only 2
  = Some (FILESORT_ALG_STD_STABLE, Call_std_stable_sort (Mem_compare 0))
  /\ sort_buffer_dispatch_in false example_param_short_key 2
     = Some (FILESORT_ALG_STD_STABLE,
             Call_std_stable_sort (Mem_compare_longkey 4294967295))
  /\ (forall o, 0 <= o < max_compare_length example_param_short_key ->
                example_short_keys (1000 + o)
                = example_short_keys_swapped (1000 + o)
                /\ example_short_keys (1100 + o)
                   = example_short_keys_swapped (1100 + o))
  /\ compare_with (@Mem_compare_longkey example_sort_env 4294967295)
       example_short_keys 1000 1100 = true
  /\ compare_with (@Mem_compare_longkey example_sort_env 4294967295)
       example_short_keys_swapped 1000 1100 = false
  /\ option_map (fun r => vec_data (m_record_pointers (snd r)))
       (sort_buffer_in false example_short_keys example_param_short_key 2
          example_two_records)
     = Some [1000; 1100]
  /\ option_map (fun r => vec_data (m_record_pointers (snd r)))
       (sort_buffer_in false example_short_keys_swapped
          example_param_short_key 2 example_two_records)
     = Some [1100; 1000]
  /\ sort_buffer_dispatch_in true example_param_ref_only 2 = None
  /\ sort_buffer_dispatch_in true example_param_short_key 2 = None.
Proof.
  split; [reflexivity|]. split; [reflexivity|].
  split; [|repeat split; reflexivity].
  intros o Ho. cbn in Ho.
  assert (Ho' : o = 0 \/ o = 1 \/ o = 2) by lia.
  destruct Ho' as [->|[->| ->]]; split; reflexivity.
Qed.

(** ** [reset] *)

Section Reset.

Lemma skipn_last_block (blk d : Block) (bl : list Block) :
  skipn (length (blk :: bl) - 1) (blk :: bl) = [last (blk :: bl) d].
Proof.
  cbn [length Nat.sub]. rewrite Nat.sub_0_r.
  revert blk. induction bl as [|blk' bl IH]; intros blk; [reflexivity|].
  cbn [length skipn]. rewrite IH. reflexivity.
Qed.

Lemma is_reset_fixed (b : Filesort_buffer) : is_reset b -> reset b = Some b.
Proof.
  destruct b as [[data cap] blocks next e cur other mrl budget peak].
  unfold is_reset. cbn.
  intros (-> & -> & Hpeak & Hfree & Hcursor).
  unfold reset, update_peak_memory_used, vec_clear, free_sort_buffer,
    update_peak_memory_used. cbn.
  rewrite (Z.max_l peak) by lia.
  destruct blocks as [|blk [|blk' bl]]; [| |contradiction]; cbn.
  - destruct Hcursor as (-> & -> & ->).
    destruct (Z.gtb_spec mrl 0) as [Hgt|Hle]; cbn.
    + destruct (Hfree ltac:(lia)) as [-> _]. cbn in *.
      rewrite (Z.max_l peak) by lia. reflexivity.
    + reflexivity.
  - destruct Hcursor as (-> & ->).
    destruct (Z.gtb_spec mrl cur) as [Hgt|Hle]; cbn.
    + destruct (Hfree ltac:(lia)) as [_ [=]].
    + rewrite Z.eqb_refl. reflexivity.
Qed.

Lemma reset_is_reset (b : Filesort_buffer) :
  footprint_fits b -> cursor_ok b ->
  exists b1, reset b = Some b1 /\ is_reset b1.
Proof.
  destruct b as [[data cap] blocks next e cur other mrl budget peak].
  unfold footprint_fits, cursor_ok, is_reset. cbn.
  intros (Hcap & Hcur & Hother & Hfits) Hcursor.
  unfold reset, update_peak_memory_used, vec_clear, free_sort_buffer,
    update_peak_memory_used, pointer_size in *.
  unfold_setters. buffer_members.
  rewrite !(wrap64_small (cap * 8)) by lia.
  rewrite !(wrap64_small (cap * 8 + cur)) by lia.
  rewrite !(wrap64_small (cap * 8 + cur + other)) by lia.
  set (peak1 := Z.max peak (cap * 8 + cur + other)).
  assert (Hpeak1 : cap * 8 + cur + other <= peak1) by (subst peak1; lia).
  assert (Hzero : wrap64 (wrap64 (wrap64 0 + 0) + 0) = 0) by reflexivity.
  assert (Hpeak0 : 0 <= peak1) by lia.
  destruct blocks as [|blk [|blk' bl]].
  - destruct Hcursor as (-> & -> & ->). cbn [length Nat.leb].
    buffer_members.
    destruct (Z.gtb_spec mrl 0) as [Hgt|Hle]; cbn.
    + eexists. split; [reflexivity|]. cbn. rewrite Hzero.
      repeat split; lia.
    + eexists. split; [reflexivity|]. cbn.
      rewrite ?Z.add_0_r, ?(wrap64_small (cap * 8)),
        ?(wrap64_small (cap * 8)) by lia.
      repeat split; lia.
  - cbn [length Nat.leb]. cbn [last] in Hcursor. subst e.
    buffer_members.
    destruct (Z.gtb_spec mrl cur) as [Hgt|Hle]; cbn.
    + eexists. split; [reflexivity|]. cbn. rewrite Hzero.
      repeat split; lia.
    + rewrite Z.eqb_refl. cbn.
      eexists. split; [reflexivity|]. cbn.
      rewrite ?Z.add_0_r, ?(wrap64_small (cap * 8)),
        ?(wrap64_small (cap * 8 + cur)), ?(wrap64_small (cap * 8 + cur))
        by lia.
      repeat split; lia.
  - replace (2 <=? length (blk :: blk' :: bl))%nat with true by reflexivity.
    rewrite (skipn_last_block blk (mkBlock nullptr 0)).
    set (cur_blk := last (blk :: blk' :: bl) (mkBlock nullptr 0)) in *.
    subst e. buffer_members.
    destruct (Z.gtb_spec mrl cur) as [Hgt|Hle]; cbn.
    + eexists. split; [reflexivity|]. cbn. rewrite Hzero.
      repeat split; lia.
    + rewrite Z.eqb_refl. cbn.
      eexists. split; [reflexivity|]. cbn.
      rewrite ?Z.add_0_r, ?(wrap64_small (cap * 8)),
        ?(wrap64_small (cap * 8 + cur)), ?(wrap64_small (cap * 8 + cur))
        by lia.
      repeat split; lia.
Qed.

(** What [reset] keeps: the record length, the budget, and of the
    blocks at most one, which was there before. *)
Lemma reset_keeps (b b1 : Filesort_buffer) :
  reset b = Some b1 ->
  m_max_record_length b1 = m_max_record_length b
  /\ m_max_size_in_bytes b1 = m_max_size_in_bytes b
  /\ (forall P : Block -> Prop,
        Forall P (m_blocks b) -> Forall P (m_blocks b1))
  /\ (m_blocks b1 = []
      \/ m_current_block_size b1 = m_current_block_size b).
Proof.
  destruct b as [[data cap] blocks next e cur other mrl budget peak].
  unfold reset, update_peak_memory_used, vec_clear, free_sort_buffer,
    update_peak_memory_used.
  unfold_setters. buffer_members.
  assert (Hlast : forall P : Block -> Prop,
            Forall P blocks ->
            Forall P (skipn (length blocks - 1) blocks)).
  { intros P HP.
    rewrite <- (firstn_skipn (length blocks - 1) blocks) in HP.
    now apply Forall_app in HP. }
  destruct blocks as [|blk [|blk' bl]].
  - cbn [length Nat.leb]. buffer_members.
    destruct (mrl >? cur); buffer_members; cbn [bind DBUG_ASSERT].
    + cbn. intros [= <-]. cbn. auto.
    + destruct (next =? nullptr), (e =? nullptr), (cur =? 0); cbn;
        try discriminate; intros [= <-]; cbn; auto.
  - cbn [length Nat.leb]. buffer_members.
    destruct (mrl >? cur); buffer_members.
    + cbn. intros [= <-]. cbn. auto.
    + cbn. destruct (e =? blk_start blk + cur); cbn;
        try discriminate; intros [= <-]; cbn; auto.
  - replace (2 <=? length (blk :: blk' :: bl))%nat with true by reflexivity.
    buffer_members.
    specialize (fun P => Hlast P).
    rewrite (skipn_last_block blk (mkBlock nullptr 0)) in *.
    destruct (mrl >? cur); buffer_members.
    + cbn. intros [= <-]. cbn. auto.
    + cbn. destruct (e =? _); cbn;
        try discriminate; intros [= <-]; cbn; auto.
Qed.

(** [reset] checks the cursor: a buffer that it returns has it at the
    start of the one block that is left. *)
Lemma reset_cursor_ok (b b1 : Filesort_buffer) :
  footprint_fits b -> cursor_ok b -> reset b = Some b1 -> cursor_ok b1.
Proof.
  intros Hfits Hcursor Hreset.
  destruct (reset_is_reset b Hfits Hcursor) as (b1' & Hreset' & Hshape).
  rewrite Hreset in Hreset'. injection Hreset' as <-.
  destruct Hshape as (_ & _ & _ & _ & Hshape). unfold cursor_ok.
  destruct (m_blocks b1) as [|blk [|blk' bl]]; [exact Hshape| |contradiction].
  cbn [last]. tauto.
Qed.

(** C9.  [reset] is idempotent.  On a buffer whose cursor ends at its
    last block and whose footprint fits [size_t], as they do in every
    state that the operations reach, [reset] returns a buffer on which a
    second [reset] changes nothing: the blocks, the cursor, the counters,
    the record pointer array with its capacity and the recorded peak are
    all as after the first. *)
Theorem reset_idempotent (b : Filesort_buffer) :
  footprint_fits b -> cursor_ok b ->
  exists b1, reset b = Some b1 /\ reset b1 = Some b1.
Proof.
  intros Hfits Hcursor.
  destruct (reset_is_reset b Hfits Hcursor) as (b1 & Hreset & Hshape).
  exists b1. split; [exact Hreset|]. now apply is_reset_fixed.
Qed.
End Reset.

(** ** [allocate_block] *)

Section Growth.
Context `{Arena_env}.
Hypothesis shrink_sound : shrink_to_fit_sound.

Lemma same_but_capacity_refl (b : Filesort_buffer) :
  vec_size (m_record_pointers b) <= vec_capacity (m_record_pointers b) ->
  same_but_capacity b b.
Proof. intros Hsize. unfold same_but_capacity. repeat split; auto; lia. Qed.

Lemma allocate_sized_block_failed (new_block block_size : Z)
  (b : Filesort_buffer) :
  fst (allocate_sized_block new_block block_size b) = true ->
  snd (allocate_sized_block new_block block_size b) = b.
Proof.
  unfold allocate_sized_block. destruct (new_block =? nullptr); cbn; easy.
Qed.

(** A call of [allocate_block] has a result, and one that failed has
    added no block and has changed nothing but the capacity. *)
Lemma allocate_block_rec_frame (fuel : nat) (new_block num_rows : Z)
  (b : Filesort_buffer) :
  vec_size (m_record_pointers b) <= vec_capacity (m_record_pointers b) ->
  (Z.to_nat (vec_capacity (m_record_pointers b)) < fuel)%nat ->
  exists failed b',
    allocate_block_rec fuel new_block num_rows b = Some (failed, b')
    /\ (failed = true -> same_but_capacity b b').
Proof.
  revert b. induction fuel as [|fuel IH]; intros b Hsize Hfuel; [lia|].
  cbn [allocate_block_rec].
  destruct (Z.min _ _ <? _).
  - destruct (_ >=? 32768).
    + unfold vec_shrink_to_fit. unfold_setters. buffer_members.
      pose proof (shrink_sound _ _ Hsize) as Hshrunk.
      set (cap' := shrink_to_fit_capacity (vec_size (m_record_pointers b))
                     (vec_capacity (m_record_pointers b))) in *.
      destruct (Z.ltb_spec cap' (vec_capacity (m_record_pointers b)))
        as [Hlt|Hge].
      * match goal with
        | |- context [allocate_block_rec fuel new_block num_rows ?b1] =>
            destruct (IH b1) as (failed & b' & Hrec & Hframe)
        end.
        { buffer_members. unfold vec_size in *. buffer_members. lia. }
        { buffer_members. unfold vec_size in *. lia. }
        exists failed, b'. split; [exact Hrec|].
        intros Hfailed. specialize (Hframe Hfailed).
        unfold same_but_capacity in *. buffer_members.
        unfold vec_size in *. buffer_members.
        repeat split; try tauto; lia.
      * eexists _, _. split; [reflexivity|]. intros _.
        unfold same_but_capacity. buffer_members.
        repeat split; lia.
    + eexists _, _. split; [reflexivity|]. intros _.
      now apply same_but_capacity_refl.
  - match goal with
    | |- context [allocate_sized_block ?p ?n ?b0] =>
        pose proof (allocate_sized_block_failed p n b0) as Hfail;
        destruct (allocate_sized_block p n b0) as [failed b']
    end.
    exists failed, b'. split; [reflexivity|].
    intros ->. cbn in Hfail. rewrite (Hfail eq_refl).
    now apply same_but_capacity_refl.
Qed.

Lemma AddWithSaturate_pointer (a : Z) :
  0 <= a -> pointer_size <= AddWithSaturate a pointer_size.
Proof.
  intros Ha. unfold AddWithSaturate, size_t_max, pointer_size.
  destruct (Z.gtb_spec (a + 8) (2 ^ 64 - 1)); lia.
Qed.

(** The space that [allocate_block] finds left is what the budget
    leaves, or less. *)
Lemma space_left_bound (cur other cap size mrl budget : Z) :
  0 <= size <= cap -> 0 <= cur -> 0 <= other -> 0 <= mrl ->
  budget < 2 ^ 64 ->
  cur + other + cap * pointer_size <= budget ->
  let space_used := wrap64 (cur + other) in
  let space_used := wrap64 (space_used + wrap64 (cap * pointer_size)) in
  let space_left :=
    if space_used >? budget then 0 else budget - space_used in
  let min_num_rows_capacity :=
    wrap64 (size + space_left / AddWithSaturate mrl pointer_size) in
  let space_left :=
    if min_num_rows_capacity >? cap
    then wrap64 (space_left
                 - wrap64 (wrap64 (min_num_rows_capacity - cap)
                           * pointer_size))
    else space_left in
  0 <= space_left <= budget - (cur + other + cap * pointer_size).
Proof.
  intros Hsize Hcur Hother Hmrl Hbudget Hfit.
  pose proof (AddWithSaturate_pointer mrl Hmrl) as Hsat.
  set (A := AddWithSaturate mrl pointer_size) in *.
  unfold pointer_size in *.
  rewrite (wrap64_small (cur + other)) by lia.
  rewrite (wrap64_small (cap * 8)) by lia.
  rewrite (wrap64_small (cur + other + cap * 8)) by lia.
  destruct (Z.gtb_spec (cur + other + cap * 8) budget) as [Hover|_]; [lia|].
  set (left0 := budget - (cur + other + cap * 8)).
  assert (Hleft0 : 0 <= left0) by (subst left0; lia).
  assert (Hq : 0 <= left0 / A /\ (left0 / A) * 8 <= left0).
  { split; [apply Z.div_pos; lia|].
    assert (A * (left0 / A) <= left0) by (apply Z.mul_div_le; lia).
    assert (0 <= left0 / A) by (apply Z.div_pos; lia).
    nia. }
  cbv zeta.
  rewrite (wrap64_small (size + left0 / A)) by (subst left0; lia).
  destruct (Z.gtb_spec (size + left0 / A) cap) as [Hgrow|_]; [|lia].
  rewrite (wrap64_small (size + left0 / A - cap)) by (subst left0; lia).
  rewrite (wrap64_small ((size + left0 / A - cap) * 8)) by (subst left0; lia).
  rewrite wrap64_small by (subst left0; lia).
  lia.
Qed.

Lemma blocks_total_bytes_app (bl : list Block) (blk : Block) :
  fold_right (fun blk acc => blk_size blk + acc) 0 (bl ++ [blk])
  = fold_right (fun blk acc => blk_size blk + acc) 0 bl + blk_size blk.
Proof. induction bl as [|x bl IH]; cbn in *; lia. Qed.

Lemma allocate_sized_block_budget (new_block block_size : Z)
  (b : Filesort_buffer) :
  counters_ok b -> within_budget b ->
  0 <= block_size ->
  block_size + committed_bytes b <= m_max_size_in_bytes b ->
  counters_ok (snd (allocate_sized_block new_block block_size b))
  /\ within_budget (snd (allocate_sized_block new_block block_size b)).
Proof.
  intros Hok Hin Hsize Hfit. unfold allocate_sized_block.
  destruct (new_block =? nullptr); cbn [snd]; [now split|].
  destruct Hok as (Hvec & Hcur & Hother & Hmrl & Hbudget & Htotal).
  unfold counters_ok, within_budget, committed_bytes, blocks_total_bytes
    in *.
  buffer_members. rewrite blocks_total_bytes_app. buffer_members.
  pose proof (Zle_0_nat (length (vec_data (m_record_pointers b)))) as Hlen.
  unfold vec_size, pointer_size in *.
  rewrite wrap64_small by lia.
  repeat split; lia.
Qed.

(** [allocate_block] keeps the committed bytes within the budget. *)
Lemma allocate_block_rec_budget (fuel : nat) (new_block num_rows : Z)
  (b : Filesort_buffer) (failed : bool) (b' : Filesort_buffer) :
  counters_ok b -> within_budget b ->
  allocate_block_rec fuel new_block num_rows b = Some (failed, b') ->
  counters_ok b' /\ within_budget b'.
Proof.
  revert b. induction fuel as [|fuel IH]; intros b Hok Hin; [discriminate|].
  cbn [allocate_block_rec].
  pose proof Hok as (Hvec & Hcur & Hother & Hmrl & Hbudget & Htotal).
  pose proof (Zle_0_nat (length (vec_data (m_record_pointers b)))) as Hlen.
  assert (Hfit : m_current_block_size b + m_space_used_other_blocks b
                 + vec_capacity (m_record_pointers b) * pointer_size
                 <= m_max_size_in_bytes b).
  { unfold within_budget, committed_bytes in Hin. lia. }
  pose proof (space_left_bound (m_current_block_size b)
                (m_space_used_other_blocks b)
                (vec_capacity (m_record_pointers b))
                (vec_size (m_record_pointers b))
                (m_max_record_length b) (m_max_size_in_bytes b)
                ltac:(unfold vec_size in *; lia) Hcur Hother
                ltac:(lia) ltac:(lia) Hfit) as Hleft.
  cbv zeta in Hleft.
  match type of Hleft with
  | 0 <= ?sl <= _ => set (space_left := sl) in *
  end.
  match goal with
  | |- context [Z.min (Z.max ?n ?needed) space_left] =>
      set (bytes_needed := needed); set (next_block_size := n)
  end.
  assert (Hneeded : 0 <= bytes_needed) by apply wrap64_range.
  destruct (Z.min _ _ <? _).
  - destruct (_ >=? 32768); [|intros [= <- <-]; now split].
    assert (Hshrunk :
      counters_ok
        (set_record_pointers (vec_shrink_to_fit (m_record_pointers b)) b)
      /\ within_budget
           (set_record_pointers (vec_shrink_to_fit (m_record_pointers b)) b)).
    { pose proof (shrink_sound _ _ Hvec) as Hcap.
      unfold counters_ok, within_budget, committed_bytes, blocks_total_bytes,
        vec_shrink_to_fit, vec_size, pointer_size in *.
      unfold_setters. buffer_members. repeat split; lia. }
    destruct Hshrunk as [Hok' Hin'].
    destruct (_ <? _).
    + intros Hrec. exact (IH _ Hok' Hin' Hrec).
    + intros [= <- <-]. now split.
  - intros [= Hres].
    replace b' with (snd (allocate_sized_block new_block
                            (Z.min (Z.max next_block_size bytes_needed)
                               space_left) b))
      by now rewrite Hres.
    apply allocate_sized_block_budget; try assumption.
    + lia.
    + unfold committed_bytes. lia.
Qed.

(** The cursor ends at the last block in the empty buffer and after
    every operation that adds or releases blocks. *)
Lemma empty_buffer_cursor_ok (max_size record_length : Z) :
  cursor_ok (empty_buffer max_size record_length).
Proof. unfold cursor_ok. cbn. auto. Qed.

Lemma free_sort_buffer_cursor_ok (b : Filesort_buffer) :
  cursor_ok (free_sort_buffer b).
Proof. unfold cursor_ok. cbn. auto. Qed.

Lemma allocate_sized_block_cursor_ok (new_block block_size : Z)
  (b : Filesort_buffer) :
  cursor_ok b ->
  cursor_ok (snd (allocate_sized_block new_block block_size b)).
Proof.
  intros Hcursor. unfold allocate_sized_block.
  destruct (new_block =? nullptr); cbn [snd]; [exact Hcursor|].
  unfold cursor_ok. buffer_members.
  destruct (m_blocks b ++ [mkBlock new_block block_size]) eqn:Happ.
  - now destruct (m_blocks b).
  - rewrite <- Happ, last_last. reflexivity.
Qed.

Lemma allocate_block_rec_cursor_ok (fuel : nat) (new_block num_rows : Z)
  (b : Filesort_buffer) (failed : bool) (b' : Filesort_buffer) :
  cursor_ok b ->
  allocate_block_rec fuel new_block num_rows b = Some (failed, b') ->
  cursor_ok b'.
Proof.
  revert b. induction fuel as [|fuel IH]; intros b Hcursor; [discriminate|].
  cbn [allocate_block_rec].
  destruct (Z.min _ _ <? _).
  - destruct (_ >=? 32768); [|now intros [= <- <-]].
    destruct (_ <? _).
    + apply IH. exact Hcursor.
    + now intros [= <- <-].
  - intros [= Hres].
    match type of Hres with
    | allocate_sized_block ?p ?n ?b0 = _ =>
        pose proof (allocate_sized_block_cursor_ok p n b0 Hcursor) as Hok
    end.
    now rewrite Hres in Hok.
Qed.

(** C2, as the code has it.  A call of [allocate_block] returns, and
    when it returns failure no block was added and the blocks, the cursor,
    both size counters, the record length, the budget, the recorded peak
    and the elements of the record pointer array are as before the call.
    The capacity of the array is the one member that can differ: the
    attempt to reclaim its slack lowers it, to no less than the size. *)
Theorem allocate_block_failure_frame (new_block num_rows : Z)
  (b : Filesort_buffer) :
  vec_size (m_record_pointers b) <= vec_capacity (m_record_pointers b) ->
  exists failed b',
    allocate_block new_block num_rows b = Some (failed, b')
    /\ (failed = true -> same_but_capacity b b').
Proof.
  intros Hsize. apply allocate_block_rec_frame; [exact Hsize | lia].
Qed.

(** C1, as the code has it.  From a buffer whose committed bytes (the
    bytes of its blocks and the capacity of the record pointer array times
    the pointer size) are within the budget, as those of the empty buffer
    are, every run of [allocate_block] calls ends in a buffer whose
    committed bytes are within the budget; and a call that returns failure
    has left the blocks and the counters as they were. *)
Theorem allocate_block_within_budget (b : Filesort_buffer) :
  counters_ok b -> within_budget b ->
  (forall calls, exists b',
      grow_many calls b = Some b' /\ counters_ok b' /\ within_budget b')
  /\ (forall new_block num_rows, exists failed b',
        allocate_block new_block num_rows b = Some (failed, b')
        /\ within_budget b'
        /\ (failed = true -> same_but_capacity b b')).
Proof.
  intros Hok Hin. split.
  - intros calls. revert b Hok Hin.
    induction calls as [|[new_block num_rows] calls IH]; intros b Hok Hin.
    + exists b. cbn [grow_many]. auto.
    + cbn [grow_many].
      destruct (allocate_block_rec_frame
                  (S (Z.to_nat (vec_capacity (m_record_pointers b))))
                  new_block num_rows b (proj1 Hok) ltac:(lia))
        as (failed & b1 & Hcall & _).
      fold (allocate_block new_block num_rows b) in Hcall.
      rewrite Hcall. cbn [bind snd].
      destruct (allocate_block_rec_budget _ _ _ _ _ _ Hok Hin Hcall)
        as [Hok1 Hin1].
      exact (IH b1 Hok1 Hin1).
  - intros new_block num_rows.
    destruct (allocate_block_rec_frame
                (S (Z.to_nat (vec_capacity (m_record_pointers b))))
                new_block num_rows b (proj1 Hok) ltac:(lia))
      as (failed & b1 & Hcall & Hframe).
    fold (allocate_block new_block num_rows b) in Hcall.
    exists failed, b1. split; [exact Hcall|]. split; [|exact Hframe].
    exact (proj2 (allocate_block_rec_budget _ _ _ _ _ _ Hok Hin Hcall)).
Qed.
End Growth.

(** *** The growth operations at the examples *)

Lemma example_shrink_to_fit_sound : @shrink_to_fit_sound example_arena_env.
Proof. intros size capacity Hsize. cbn. lia. Qed.

Lemma empty_buffer_ok (max_size record_length : Z) :
  0 <= max_size < 2 ^ 64 -> 0 <= record_length < 2 ^ 64 ->
  counters_ok (empty_buffer max_size record_length)
  /\ within_budget (empty_buffer max_size record_length)
  /\ cursor_ok (empty_buffer max_size record_length)
  /\ footprint_fits (empty_buffer max_size record_length).
Proof.
  intros Hmax Hlen.
  unfold counters_ok, within_budget, cursor_ok, footprint_fits,
    committed_bytes, blocks_total_bytes, empty_buffer, vec_size, pointer_size.
  cbn. repeat split; lia.
Qed.

(** C1 as stated fails: [allocate_sized_block] has no check against the
    budget, so that a block of 1001 bytes is added to an empty buffer with
    a budget of 1000; and [preallocate_records] (303) finds room in the
    block of [example_grown_buffer] and leaves the growth of the pointer
    array to [push_back], whose doubling ends at 512 pointers: 30344 +
    4096 bytes with a budget of 32768. *)
Lemma growth_exceeds_budget :
  (let r := allocate_sized_block 4096 1001 (empty_buffer 1000 10) in
   within_budget (empty_buffer 1000 10)
   /\ fst r = false /\ committed_bytes (snd r) = 1001
   /\ m_max_size_in_bytes (snd r) = 1000
   /\ ~ within_budget (snd r))
  /\ (@allocate_block example_arena_env 4096 1 (empty_buffer 32768 100)
      = Some (false, example_grown_buffer)
      /\ within_budget example_grown_buffer
      /\ exists b',
           @preallocate_records example_arena_env nullptr
             (fun _ => nullptr) 303 example_grown_buffer = Some (false, b')
           /\ committed_bytes b' = 34440
           /\ m_max_size_in_bytes b' = 32768
           /\ ~ within_budget b').
Proof.
  split.
  - cbv zeta. unfold within_budget.
    assert (Hbytes :
      committed_bytes
        (snd (allocate_sized_block 4096 1001 (empty_buffer 1000 10))) = 1001)
      by (vm_compute; reflexivity).
    assert (Hmax :
      m_max_size_in_bytes
        (snd (allocate_sized_block 4096 1001 (empty_buffer 1000 10))) = 1000)
      by (vm_compute; reflexivity).
    rewrite Hbytes, Hmax.
    repeat split; try reflexivity; try lia.
    vm_compute. discriminate.
  - split; [vm_compute; reflexivity|].
    split; [vm_compute; discriminate|].
    eexists. split; [vm_compute; reflexivity|].
    unfold within_budget.
    match goal with
    | |- committed_bytes ?b = _ /\ _ =>
        assert (Hbytes : committed_bytes b = 34440)
          by (vm_compute; reflexivity);
        assert (Hmax : m_max_size_in_bytes b = 32768)
          by (vm_compute; reflexivity)
    end.
    rewrite Hbytes, Hmax. repeat split; lia.
Qed.

Lemma allocate_block_within_budget_witness :
  exists b',
    @grow_many example_arena_env [(4096, 1); (65536, 400); (0, 1)]
      (empty_buffer 32768 100) = Some b'
    /\ counters_ok b' /\ within_budget b'.
Proof.
  destruct (empty_buffer_ok 32768 100 ltac:(lia) ltac:(lia))
    as (Hok & Hin & _).
  exact (proj1 (@allocate_block_within_budget example_arena_env
                  example_shrink_to_fit_sound (empty_buffer 32768 100)
                  Hok Hin)
           [(4096, 1); (65536, 400); (0, 1)]).
Defined.

(** C2 as stated fails: the call below finds 40000 bytes of slack in the
    pointer array, shrinks the array, tries again, and still has no room
    for 200 rows of 1000 bytes; it returns failure with the capacity at 0,
    where it was 5000. *)
Lemma allocate_block_failure_shrinks :
  @allocate_block example_arena_env 70000 200 example_slack_buffer
  = Some (true, set_record_pointers (mkVector [] 0) example_slack_buffer)
  /\ vec_capacity (m_record_pointers example_slack_buffer) = 5000
  /\ set_record_pointers (mkVector [] 0) example_slack_buffer
     <> example_slack_buffer.
Proof.
  split; [vm_compute; reflexivity|]. split; [reflexivity|].
  intros Heq. apply (f_equal (fun b => vec_capacity (m_record_pointers b)))
    in Heq. discriminate.
Qed.

Lemma allocate_block_failure_frame_witness :
  exists failed b',
    @allocate_block example_arena_env 70000 200 example_slack_buffer
    = Some (failed, b')
    /\ (failed = true -> same_but_capacity example_slack_buffer b').
Proof.
  apply (@allocate_block_failure_frame example_arena_env
           example_shrink_to_fit_sound 70000 200 example_slack_buffer).
  vm_compute. discriminate.
Defined.

(** ** [preallocate_records] *)

Section Preallocate.
Context `{Arena_env}.

Lemma slots_S (base len : Z) (n : nat) :
  slots base len (S n) = slots base len n ++ [base + Z.of_nat n * len].
Proof. unfold slots. rewrite seq_S, map_app. reflexivity. Qed.

Lemma slots_length (base len : Z) (n : nat) : length (slots base len n) = n.
Proof. unfold slots. now rewrite length_map, length_seq. Qed.

(** The slots lie one after the other. *)
Lemma slots_ordered (base len : Z) (n : nat) :
  0 <= len ->
  ForallOrdPairs (fun p q => p + len <= q) (slots base len n).
Proof.
  intros Hlen. unfold slots. generalize 0%nat as start.
  induction n as [|n IH]; intros start; cbn [seq map]; constructor.
  - apply Forall_forall. intros q Hq.
    apply in_map_iff in Hq. destruct Hq as (j & <- & Hj).
    apply in_seq in Hj. nia.
  - apply IH.
Qed.

Lemma slots_NoDup (base len : Z) (n : nat) :
  0 < len -> NoDup (slots base len n).
Proof.
  intros Hlen. unfold slots. generalize 0%nat as start.
  induction n as [|n IH]; intros start; cbn [seq map]; constructor.
  - intros Hin. apply in_map_iff in Hin. destruct Hin as (j & Heq & Hj).
    apply in_seq in Hj. nia.
  - apply IH.
Qed.

(** The loop of [preallocate_records] on a block with room for all the
    records: every pass carves the next slot and asks for no block, so
    that the result is one for all hosts. *)
Lemma carve_records_spec (fuel : nat) (num_records : Z)
  (b : Filesort_buffer) (base : Z) (k : nat) :
  0 < base -> 0 < m_max_record_length b ->
  vec_data (m_record_pointers b) = slots base (m_max_record_length b) k ->
  m_next_rec_ptr b = base + Z.of_nat k * m_max_record_length b ->
  m_current_block_end b = base + m_current_block_size b ->
  num_records * m_max_record_length b <= m_current_block_size b ->
  Z.of_nat k + Z.of_nat fuel = num_records ->
  exists b',
    (forall host k0, carve_records fuel host k0 num_records b = Some b')
    /\ vec_data (m_record_pointers b')
       = slots base (m_max_record_length b) (k + fuel)
    /\ m_blocks b' = m_blocks b
    /\ m_current_block_end b' = m_current_block_end b
    /\ m_current_block_size b' = m_current_block_size b
    /\ m_max_record_length b' = m_max_record_length b
    /\ m_max_size_in_bytes b' = m_max_size_in_bytes b.
Proof.
  revert b k.
  induction fuel as [|fuel IH];
    intros b k Hbase Hlen Hdata Hnext Hend Hroom Hcount.
  - exists b. rewrite Nat.add_0_r. split; [|auto 10].
    intros host k0. cbn [carve_records]. unfold vec_size.
    rewrite Hdata, slots_length.
    destruct (Z.ltb_spec (Z.of_nat k) num_records); [lia|reflexivity].
  - set (b1 := set_next_rec_ptr (m_next_rec_ptr b + m_max_record_length b)
                 (set_record_pointers
                    (vec_push_back (m_next_rec_ptr b) (m_record_pointers b))
                    b)).
    destruct (IH b1 (S k)) as (b' & Hrun & Hslots & Hrest);
      subst b1; unfold_setters; buffer_members; try assumption; try lia.
    { unfold vec_push_back. buffer_members.
      now rewrite slots_S, Hdata, Hnext. }
    exists b'. split.
    + intros host k0. cbn [carve_records]. unfold vec_size at 1.
      rewrite Hdata, slots_length.
      destruct (Z.ltb_spec (Z.of_nat k) num_records); [|lia].
      unfold get_next_record_pointer.
      destruct (Z.gtb_spec (m_next_rec_ptr b + m_max_record_length b)
                  (m_current_block_end b)) as [Hgrow|_]; [nia|].
      cbn [bind fst snd]. unfold_setters. buffer_members.
      destruct (Z.eqb_spec (m_next_rec_ptr b) nullptr) as [Hnull|_];
        [unfold nullptr in Hnull; nia|].
      cbn [negb DBUG_ASSERT bind]. apply Hrun.
    + rewrite Hslots. replace (S k + fuel)%nat with (k + S fuel)%nat by lia.
      split; [reflexivity|]. exact Hrest.
Qed.

(** C8, as the code has it.  For records of a positive length, a count
    [n] with [n * m_max_record_length + n * pointer_size] within the
    budget, and a host that has the memory for the block of the exact size
    ([new_block] is not null), [preallocate_records (n)] returns success.
    The buffer then has the one block that [reset] kept, or the one new
    block of [n * m_max_record_length] bytes; the [n] record pointers are
    the slots at [base], [base + len], ... inside the current block, which
    are distinct and do not overlap; and the result is the same whatever
    the host would have answered to the carving, which never asks it. *)
Theorem preallocate_records_carves (new_block : Z) (host : nat -> Z)
  (n : Z) (b : Filesort_buffer) :
  footprint_fits b -> cursor_ok b -> block_addresses_ok b ->
  0 < m_max_record_length b ->
  0 <= n ->
  n * m_max_record_length b + n * pointer_size <= m_max_size_in_bytes b ->
  m_max_size_in_bytes b < 2 ^ 64 ->
  0 < new_block ->
  exists b',
    preallocate_records new_block host n b = Some (false, b')
    /\ (m_blocks b' = [mkBlock new_block (n * m_max_record_length b)]
        \/ exists b1, reset b = Some b1 /\ m_blocks b' = m_blocks b1)
    /\ (length (m_blocks b') <= 1)%nat
    /\ (let base := m_current_block_end b' - m_current_block_size b' in
        vec_data (m_record_pointers b')
        = slots base (m_max_record_length b) (Z.to_nat n))
    /\ n * m_max_record_length b <= m_current_block_size b'
    /\ NoDup (vec_data (m_record_pointers b'))
    /\ ForallOrdPairs (fun p q => p + m_max_record_length b <= q)
         (vec_data (m_record_pointers b'))
    /\ (forall host',
          preallocate_records new_block host' n b = Some (false, b')).
Proof.
  intros Hfits Hcursor Haddr Hlen Hn Hbudget Hmax Hblock.
  destruct (reset_is_reset b Hfits Hcursor) as (b1 & Hreset & Hshape).
  destruct (reset_keeps b b1 Hreset) as (Hlen1 & Hmax1 & Hblocks1 & _).
  specialize (Hblocks1 _ Haddr).
  destruct Hshape as (Hdata1 & _ & _ & _ & Hcur1).
  unfold preallocate_records. rewrite Hreset. cbn [bind].
  rewrite Hlen1, Hmax1. unfold pointer_size in *.
  set (len := m_max_record_length b) in *.
  assert (Hnlen : 0 <= n * len) by nia.
  rewrite (wrap64_small (n * len)) by lia.
  rewrite (wrap64_small (n * 8)) by lia.
  rewrite (wrap64_small (n * len + n * 8)) by lia.
  destruct (Z.gtb_spec (n * len + n * 8) (m_max_size_in_bytes b)); [lia|].
  (* the buffer that enters the loop *)
  cbv zeta.
  match goal with
  | |- context [carve_records _ _ _ _ (snd ?r)] => set (entry := r)
  end.
  assert (Hloop : exists b2 base,
    entry = (false, b2)
    /\ (m_blocks b2 = [mkBlock new_block (n * len)]
        \/ m_blocks b2 = m_blocks b1)
    /\ (length (m_blocks b2) <= 1)%nat
    /\ vec_data (m_record_pointers b2) = []
    /\ m_next_rec_ptr b2 = base
    /\ m_current_block_end b2 = base + m_current_block_size b2
    /\ n * len <= m_current_block_size b2
    /\ m_max_record_length b2 = len
    /\ (0 < n -> 0 < base)).
  { subst entry.
    destruct (Z.gtb_spec (m_next_rec_ptr b1 + n * len)
                (m_current_block_end b1)) as [Hnew|Hkeep].
    - unfold allocate_sized_block.
      destruct (Z.eqb_spec new_block nullptr) as [Hnull|_];
        [unfold nullptr in Hnull; lia|].
      cbn [fst snd]. unfold free_sort_buffer, update_peak_memory_used.
      unfold_setters. buffer_members.
      eexists _, new_block. split; [reflexivity|]. buffer_members.
      cbn [app length]. repeat split; auto; lia.
    - exists b1, (m_next_rec_ptr b1). split; [reflexivity|].
      destruct (m_blocks b1) as [|blk [|blk' bl]] eqn:Hb1;
        [| |contradiction].
      + destruct Hcur1 as (Hnext & Hend & Hsize).
        rewrite Hnext, Hend, Hsize in *. unfold nullptr in *.
        repeat split; auto; try nia; try (cbn; lia).
      + destruct Hcur1 as (Hnext & Hend).
        rewrite Hnext, Hend in *.
        apply Forall_inv in Hblocks1.
        repeat split; auto; try lia; try (cbn; lia). }
  destruct Hloop
    as (b2 & base & -> & Hbl & Hone & Hdata & Hnext & Hend & Hroom
        & Hlen2 & Hbase).
  cbn [fst snd].
  assert (Hcarve : exists b',
    (forall host0 k0, carve_records (Z.to_nat n) host0 k0 n b2 = Some b')
    /\ vec_data (m_record_pointers b')
       = slots (m_current_block_end b' - m_current_block_size b') len
           (Z.to_nat n)
    /\ m_blocks b' = m_blocks b2
    /\ m_current_block_size b' = m_current_block_size b2).
  { destruct (Z.eq_dec n 0) as [->|Hpos].
    - exists b2. split; [|rewrite Hdata; auto].
      intros host0 k0. cbn [Z.to_nat carve_records]. unfold vec_size.
      now rewrite Hdata.
    - destruct (carve_records_spec (Z.to_nat n) n b2 base 0)
        as (b' & Hcarve & Hslots & Hbl' & Hend' & Hsize' & _);
        try rewrite Hlen2; try assumption; try lia.
      exists b'. split; [exact Hcarve|].
      rewrite Hend', Hsize', Hslots, Hlen2, Hend.
      replace (base + m_current_block_size b2 - m_current_block_size b2)
        with base by lia.
      auto. }
  destruct Hcarve as (b' & Hcarve & Hslots & Hbl' & Hsize').
  exists b'. rewrite Hcarve. cbn [bind].
  split; [reflexivity|].
  split; [rewrite Hbl'; destruct Hbl; [left|right; exists b1]; auto|].
  split; [now rewrite Hbl'|]. split; [exact Hslots|].
  split; [lia|].
  split; [rewrite Hslots; now apply slots_NoDup|].
  split; [rewrite Hslots; apply slots_ordered; lia|].
  intros host'. now rewrite Hcarve.
Qed.
End Preallocate.

(** *** [reset] and [preallocate_records] at the examples *)

Lemma reset_idempotent_witness :
  exists b1, reset example_records = Some b1 /\ reset b1 = Some b1.
Proof.
  apply (reset_idempotent example_records).
  - unfold footprint_fits, pointer_size. cbn. lia.
  - reflexivity.
Defined.

(** C8 as stated fails.  With a host that is out of memory the call
    returns failure, though 5000 records of 100 bytes and their pointers
    are within the budget of 1 MiB; and with records of length 0 the
    three slots carved from the kept block are one and the same. *)
Lemma preallocate_records_can_fail :
  (5000 * 100 + 5000 * pointer_size <= 1048576
   /\ @preallocate_records example_arena_env nullptr (fun _ => nullptr) 5000
        (empty_buffer 1048576 100)
      = Some (true, empty_buffer 1048576 100))
  /\ (exists b',
        @preallocate_records example_arena_env nullptr (fun _ => nullptr) 3
          example_empty_records_buffer = Some (false, b')
        /\ vec_data (m_record_pointers b') = [4096; 4096; 4096]
        /\ ~ NoDup (vec_data (m_record_pointers b'))).
Proof.
  split.
  - split; [unfold pointer_size; lia | vm_compute; reflexivity].
  - eexists. split; [vm_compute; reflexivity|].
    split; [reflexivity|]. cbn.
    intros Hnodup. inversion Hnodup as [|p l Hnotin _]. apply Hnotin.
    now left.
Qed.

Lemma preallocate_records_carves_witness :
  exists b',
    @preallocate_records example_arena_env 4096 (fun _ => nullptr) 5000
      (empty_buffer 1048576 100) = Some (false, b')
    /\ (m_blocks b' = [mkBlock 4096 (5000 * 100)]
        \/ exists b1, reset (empty_buffer 1048576 100) = Some b1
                      /\ m_blocks b' = m_blocks b1)
    /\ (length (m_blocks b') <= 1)%nat
    /\ (let base := m_current_block_end b' - m_current_block_size b' in
        vec_data (m_record_pointers b') = slots base 100 (Z.to_nat 5000))
    /\ 5000 * 100 <= m_current_block_size b'
    /\ NoDup (vec_data (m_record_pointers b'))
    /\ ForallOrdPairs (fun p q => p + 100 <= q)
         (vec_data (m_record_pointers b'))
    /\ (forall host',
          @preallocate_records example_arena_env 4096 host' 5000
            (empty_buffer 1048576 100) = Some (false, b')).
Proof.
  destruct (empty_buffer_ok 1048576 100 ltac:(lia) ltac:(lia))
    as (_ & _ & Hcursor & Hfits).
  apply (@preallocate_records_carves example_arena_env 4096
           (fun _ => nullptr) 5000 (empty_buffer 1048576 100) Hfits Hcursor).
  - constructor.
  - cbn. lia.
  - lia.
  - unfold pointer_size. cbn. lia.
  - cbn. lia.
  - lia.
Defined.

(** ** The merge-cost estimators in exact arithmetic *)

Section MergeMonotone.
Context `{Merge_constants}.
Variable cost_model : Cost_model_table.
Hypothesis constants_ok : merge_constants_ok.
Hypothesis io_monotone : cost_monotone (io_block_read_cost cost_model).
Hypothesis compare_monotone : cost_monotone (key_compare_cost cost_model).
Local Open Scope R_scope.

Lemma ln_nonneg (x : R) : 1 <= x -> 0 <= ln x.
Proof.
  intros Hx. destruct (Req_dec x 1) as [->|Hne].
  - rewrite ln_1. lra.
  - rewrite <- ln_1. apply Rlt_le, ln_increasing; lra.
Qed.

Lemma ln_monotone (x y : R) : 0 < x -> x <= y -> ln x <= ln y.
Proof.
  intros Hx Hxy. destruct (Req_dec x y) as [->|Hne]; [lra|].
  apply Rlt_le, ln_increasing; lra.
Qed.

Lemma ln_2_pos : 0 < ln 2.
Proof. rewrite <- ln_1. apply ln_increasing; lra. Qed.

Lemma log2_nonneg (x : R) : 1 <= x -> 0 <= log2 x.
Proof.
  intros Hx. unfold log2. apply Rmult_le_pos; [now apply ln_nonneg|].
  apply Rlt_le, Rinv_0_lt_compat, ln_2_pos.
Qed.

Lemma log2_monotone (x y : R) : 1 <= x -> x <= y -> log2 x <= log2 y.
Proof.
  intros Hx Hxy. unfold log2. apply Rmult_le_compat_r.
  - apply Rlt_le, Rinv_0_lt_compat, ln_2_pos.
  - apply ln_monotone; lra.
Qed.

Lemma x_ln_monotone (x y : R) :
  0 <= x -> x <= y -> x * ln (1 + x) <= y * ln (1 + y).
Proof.
  intros Hx Hxy. apply Rmult_le_compat; try lra.
  - apply ln_nonneg. lra.
  - apply ln_monotone; lra.
Qed.

(** [get_merge_cost] grows with the elements and with the buffers, as
    long as the bytes of the elements fit [ha_rows]. *)
Lemma get_merge_cost_monotone (e1 e2 nb1 nb2 elem_size : Z) :
  (0 <= e1 <= e2)%Z -> (1 <= nb1 <= nb2)%Z -> (0 <= elem_size)%Z ->
  (e2 * elem_size < 2 ^ 64)%Z ->
  get_merge_cost e1 nb1 elem_size cost_model
  <= get_merge_cost e2 nb2 elem_size cost_model.
Proof.
  intros He Hnb Hsize Hfits.
  destruct constants_ok as (_ & _ & _ & Hio).
  destruct io_monotone as [_ Hio_mono].
  destruct compare_monotone as [_ Hcmp_mono].
  unfold get_merge_cost.
  rewrite !wrap64_small by nia.
  assert (Hops : IZR (e1 * elem_size) / IZR IO_SIZE
                 <= IZR (e2 * elem_size) / IZR IO_SIZE).
  { apply Rmult_le_compat_r.
    - apply Rlt_le, Rinv_0_lt_compat. now apply (IZR_lt 0).
    - apply IZR_le. nia. }
  assert (Hcmp : IZR e1 * log2 (IZR nb1) <= IZR e2 * log2 (IZR nb2)).
  { apply Rmult_le_compat.
    - now apply (IZR_le 0).
    - apply log2_nonneg. apply (IZR_le 1). lia.
    - apply IZR_le. lia.
    - apply log2_monotone; [apply (IZR_le 1) | apply IZR_le]; lia. }
  assert (Hops0 : 0 <= IZR (e1 * elem_size) / IZR IO_SIZE).
  { apply Rmult_le_pos.
    - apply (IZR_le 0). nia.
    - apply Rlt_le, Rinv_0_lt_compat. now apply (IZR_lt 0). }
  assert (Hcmp0 : 0 <= IZR e1 * log2 (IZR nb1)).
  { apply Rmult_le_pos; [now apply (IZR_le 0)|].
    apply log2_nonneg. apply (IZR_le 1). lia. }
  pose proof (Hio_mono _ _ Hops0 Hops). pose proof (Hcmp_mono _ _ Hcmp0 Hcmp).
  lra.
Qed.

Lemma merge_passes_done (fuel : nat) (elem_size : Z) (s : Merge_state) :
  (ms_num_buffers s < MERGEBUFF2)%Z ->
  merge_passes fuel elem_size cost_model s = Some s.
Proof.
  intros Hdone.
  destruct fuel; cbn [merge_passes];
    (destruct (Z.geb_spec (ms_num_buffers s) MERGEBUFF2); [lia|reflexivity]).
Qed.

Lemma merge_passes_step (fuel : nat) (elem_size : Z) (s : Merge_state) :
  (MERGEBUFF2 <= ms_num_buffers s)%Z ->
  merge_passes (S fuel) elem_size cost_model s
  = merge_passes fuel elem_size cost_model
      (merge_pass elem_size cost_model s).
Proof.
  intros Hmore. cbn [merge_passes].
  destruct (Z.geb_spec (ms_num_buffers s) MERGEBUFF2); [reflexivity|lia].
Qed.

End MergeMonotone.

(** *** The tables of the examples *)

Section StepTable.
Local Open Scope R_scope.

Lemma io_only_table_monotone :
  cost_monotone (io_block_read_cost io_only_table)
  /\ cost_monotone (key_compare_cost io_only_table).
Proof. unfold cost_monotone. cbn. repeat split; intros; lra. Qed.

End StepTable.

Lemma mysql_merge_constants_ok : @merge_constants_ok mysql_merge_constants.
Proof. unfold merge_constants_ok. cbn. repeat split; lia. Qed.

(** * Further properties of the operations *)

(** ** The comparators *)

Lemma lex_lt_trans a b c :
  lex_lt a b = true -> lex_lt b c = true -> lex_lt a c = true.
Proof.
  revert b c. induction a as [|x a IH]; intros [|y b] [|z c]; cbn;
    try easy.
  destruct (Z.eqb_spec x y) as [Hxy|Hxy], (Z.eqb_spec y z) as [Hyz|Hyz],
    (Z.eqb_spec x z) as [Hxz|Hxz];
    destruct (Z.ltb_spec x y), (Z.ltb_spec y z), (Z.ltb_spec x z);
    try lia; try easy.
  apply IH.
Qed.

Lemma lex_lt_total a b :
  length a = length b -> lex_lt a b = false -> lex_lt b a = false -> a = b.
Proof.
  revert b. induction a as [|x a IH]; intros [|y b]; cbn; try easy.
  intros [= Hlen]. rewrite (Z.eqb_sym y x).
  destruct (Z.eqb_spec x y) as [->|Hne].
  - intros Hab Hba. f_equal. now apply IH.
  - destruct (Z.ltb_spec x y), (Z.ltb_spec y x); try easy; lia.
Qed.

(** X1.  The three comparisons of fixed-length keys are one function:
    for a length from 4 on, the unrolled [my_mem_compare_longkey] returns
    what the byte-by-byte [my_mem_compare] returns, and that is what
    [memcmp (s1, s2, len) < 0] returns, the variant for Solaris. *)
Theorem comparators_agree (m : memory) (s1 s2 : Z) (len : Z) :
  4 <= len < 2 ^ 64 ->
  my_mem_compare_longkey m s1 s2 len = my_mem_compare m s1 s2 (Z.to_nat len)
  /\ my_mem_compare m s1 s2 (Z.to_nat len)
     = (memcmp m s1 s2 (Z.to_nat len) <? 0).
Proof.
  intros Hlen. split.
  - rewrite my_mem_compare_longkey_lex by exact Hlen.
    now rewrite my_mem_compare_lex.
  - now rewrite my_mem_compare_lex, memcmp_lex.
Qed.

Lemma comparators_agree_witness :
  my_mem_compare_longkey example_memory 1000 1005 10
  = my_mem_compare example_memory 1000 1005 (Z.to_nat 10)
  /\ my_mem_compare example_memory 1000 1005 (Z.to_nat 10)
     = (memcmp example_memory 1000 1005 (Z.to_nat 10) <? 0).
Proof. apply (comparators_agree example_memory 1000 1005 10). lia. Defined.

(** X2.  [my_mem_compare] is a strict total order of the keys, as
    [std::sort] and [std::stable_sort] need it: no key is before itself,
    two keys are not before each other, the order is transitive, and two
    keys of which neither is before the other have the same bytes. *)
Theorem my_mem_compare_strict_order (m : memory) (len : nat) :
  (forall s, my_mem_compare m s s len = false)
  /\ (forall s1 s2,
        my_mem_compare m s1 s2 len = true ->
        my_mem_compare m s2 s1 len = false)
  /\ (forall s1 s2 s3,
        my_mem_compare m s1 s2 len = true ->
        my_mem_compare m s2 s3 len = true ->
        my_mem_compare m s1 s3 len = true)
  /\ (forall s1 s2,
        my_mem_compare m s1 s2 len = false ->
        my_mem_compare m s2 s1 len = false ->
        key_bytes m s1 len = key_bytes m s2 len).
Proof.
  repeat split.
  - intros s. rewrite my_mem_compare_lex. apply lex_lt_irrefl.
  - intros s1 s2. rewrite !my_mem_compare_lex. apply lex_lt_asym.
  - intros s1 s2 s3. rewrite !my_mem_compare_lex. apply lex_lt_trans.
  - intros s1 s2. rewrite !my_mem_compare_lex.
    apply lex_lt_total. now rewrite !key_bytes_length.
Qed.

(** ** [sort_buffer] *)

Section SortBufferResult.
Context `{Sort_env}.

(** The algorithm that [sort_buffer] records names the call it makes. *)
Lemma sort_buffer_dispatch_algorithm (param : Sort_param) (count : Z)
  (alg : enum_sort_algorithm) (call : Sort_call) :
  sort_buffer_dispatch param count = Some (alg, call) ->
  match call with
  | No_sort => alg = FILESORT_ALG_NONE
  | Call_std_sort _ => alg = FILESORT_ALG_STD_SORT
  | Call_std_stable_sort _ => alg = FILESORT_ALG_STD_STABLE
  end.
Proof.
  unfold sort_buffer_dispatch.
  destruct (count <=? 1); [now intros [= <- <-]|].
  destruct (max_compare_length param =? 0); [now intros [= <- <-]|].
  destruct (using_varlen_keys param).
  { destruct (m_force_stable_sort param); now intros [= <- <-]. }
  destruct ((count <=? 100) && negb (m_force_stable_sort param)).
  { destruct (_ <? 10); now intros [= <- <-]. }
  destruct (m_force_stable_sort param && negb (using_addon_fields param)).
  - destruct ((max_compare_length param >? ref_length param) && negb false);
      cbn; [|discriminate].
    destruct (_ <? 10); now intros [= <- <-].
  - cbn. destruct (_ <? 10); now intros [= <- <-].
Qed.

(** X3.  [sort_buffer] only reorders the record pointers: when
    [std::sort] returns a permutation of its range, the pointers after
    the call are a permutation of the pointers before it, in an array of
    the same capacity, every other member of the buffer is as it was, and
    of the parameters only the recorded algorithm has changed. *)
Theorem sort_buffer_permutes (m : memory) (param : Sort_param) (count : Z)
  (buf : Filesort_buffer) (param' : Sort_param) (buf' : Filesort_buffer) :
  std_sort_permutes ->
  sort_buffer m param count buf = Some (param', buf') ->
  Permutation (vec_data (m_record_pointers buf))
    (vec_data (m_record_pointers buf'))
  /\ vec_capacity (m_record_pointers buf')
     = vec_capacity (m_record_pointers buf)
  /\ set_record_pointers (m_record_pointers buf) buf' = buf
  /\ set_sort_algorithm (m_sort_algorithm param) param' = param.
Proof.
  intros Hperm Hsort. unfold sort_buffer in Hsort.
  destruct (sort_buffer_dispatch param count) as [[alg call]|];
    [|discriminate].
  cbn in Hsort. inversion Hsort; subst param' buf'. clear Hsort.
  repeat split.
  - cbn. destruct call as [|c|c]; cbn [run_sort_call].
    + apply Permutation_refl.
    + rewrite <- (firstn_skipn (Z.to_nat count)
                    (vec_data (m_record_pointers buf))) at 1.
      apply Permutation_app_tail, Hperm.
    + rewrite <- (firstn_skipn (Z.to_nat count)
                    (vec_data (m_record_pointers buf))) at 1.
      apply Permutation_app_tail, std_stable_sort_perm.
  - destruct buf as [[d c] ? ? ? ? ? ? ? ?]. reflexivity.
  - destruct param. reflexivity.
Qed.

(** X4.  When [sort_buffer] on fixed-length keys records
    [FILESORT_ALG_STD_STABLE] (stability is forced, or more than 100
    records are sorted), the sorted range comes out in the order of the
    compared key bytes, it is a permutation of what it was, records with
    the same compared key bytes keep their order, and the pointers past
    the range stay. *)
Theorem sort_buffer_stable_sorts (m : memory) (param : Sort_param)
  (count : Z) (buf : Filesort_buffer) (param' : Sort_param)
  (buf' : Filesort_buffer) :
  param_in_range param ->
  using_varlen_keys param = false ->
  sort_buffer m param count buf = Some (param', buf') ->
  m_sort_algorithm param' = FILESORT_ALG_STD_STABLE ->
  let before := vec_data (m_record_pointers buf) in
  let after := vec_data (m_record_pointers buf') in
  sorted_by_key m param (firstn (Z.to_nat count) after)
  /\ Permutation (firstn (Z.to_nat count) before)
       (firstn (Z.to_nat count) after)
  /\ (forall key,
        filter (fun p => bytes_eqb (compared_key m param p) key)
          (firstn (Z.to_nat count) after)
        = filter (fun p => bytes_eqb (compared_key m param p) key)
            (firstn (Z.to_nat count) before))
  /\ skipn (Z.to_nat count) after = skipn (Z.to_nat count) before.
Proof.
  intros [Hmcl Href] Hvar Hsort Halg. unfold sort_buffer in Hsort.
  destruct (sort_buffer_dispatch param count) as [[alg call]|] eqn:Hd;
    [|discriminate].
  cbn in Hsort. inversion Hsort; subst param' buf'. clear Hsort.
  cbn in Halg. subst alg. cbn.
  pose proof (sort_buffer_dispatch_algorithm _ _ _ _ Hd) as Hcall.
  apply sort_buffer_dispatch_cases in Hd.
  destruct Hd as [(Hnone & _) | (Hcount & Hnz & Hd)]; [discriminate|].
  destruct Hd as [[Hvar' _] | [(_ & _ & _ & ->) | (_ & _ & Hd)]];
    [congruence|discriminate|].
  destruct Hd as (compare_len & Hlen & _ & ->).
  assert (Hcl : 0 <= compare_len < 2 ^ 64
                /\ compare_len = compared_length param).
  { unfold compared_length.
    destruct (m_force_stable_sort param && negb (using_addon_fields param)).
    - destruct Hlen as [Hgt ->]. rewrite wrap32_small; lia.
    - subst compare_len. lia. }
  destruct Hcl as [Hrange Hcl].
  set (ptrs := vec_data (m_record_pointers buf)).
  set (n := Z.to_nat count).
  set (c := if compare_len <? 10 then Mem_compare compare_len
            else Mem_compare_longkey compare_len).
  destruct (stable_call_by_key m param c count ptrs) as (Hstable & Hskip & _).
  { intros x y Hxy. subst c. rewrite fixed_comparator_lex by exact Hrange.
    unfold compared_key in Hxy. rewrite Hvar, <- Hcl in Hxy.
    rewrite Hxy. apply lex_lt_irrefl. }
  fold n in Hstable, Hskip.
  destruct (firstn_sorted_prefix n
              (std_stable_sort (compare_with c m) (firstn n ptrs)) ptrs)
    as [Hfirst _].
  { apply std_stable_sort_length. }
  repeat split.
  - cbn [run_sort_call]. fold n. rewrite Hfirst.
    unfold sorted_by_key, compared_key. rewrite Hvar, <- Hcl.
    subst c. now apply fixed_stable_sort_sorted.
  - cbn [run_sort_call]. fold n. rewrite Hfirst.
    apply std_stable_sort_perm.
  - exact Hstable.
  - exact Hskip.
Qed.

(** X5.  The algorithm that [sort_buffer] records: none exactly for at
    most one record or a compare length of 0; [std::stable_sort] exactly
    when, besides, stability is forced or more than 100 records with
    fixed-length keys are sorted; [std::sort] in the other cases, and so
    never when stability is forced. *)
Theorem sort_algorithm_choice (param : Sort_param) (count : Z)
  (alg : enum_sort_algorithm) (call : Sort_call) :
  sort_buffer_dispatch param count = Some (alg, call) ->
  (alg = FILESORT_ALG_NONE <-> count <= 1 \/ max_compare_length param = 0)
  /\ (alg = FILESORT_ALG_STD_STABLE <->
      1 < count /\ max_compare_length param <> 0
      /\ (m_force_stable_sort param = true
          \/ (using_varlen_keys param = false /\ 100 < count)))
  /\ (alg = FILESORT_ALG_STD_SORT -> m_force_stable_sort param = false).
Proof.
  intros Hd.
  pose proof (sort_buffer_dispatch_algorithm _ _ _ _ Hd) as Hcall.
  apply sort_buffer_dispatch_cases in Hd.
  destruct Hd as [(-> & _ & Htrivial) | (Hcount & Hnz & Hd)].
  { repeat split; try easy; intros; lia. }
  destruct Hd as [[Hvar ->] | [(Hvar & Hfs & Hle & ->) | (Hvar & Hst & Hd)]].
  - destruct (m_force_stable_sort param); subst alg.
    + repeat split; try easy; try lia; auto.
    + repeat split; try easy; try lia.
      intros (_ & _ & [Hf | [Hv _]]); congruence.
  - subst alg. repeat split; try easy; try lia.
    intros (_ & _ & [Hf | [_ Hgt]]); [congruence|lia].
  - destruct Hd as (compare_len & _ & -> & _).
    repeat split; try easy; try lia.
    all: destruct Hst as [Hf|Hgt]; auto.
Qed.
End SortBufferResult.

Lemma example_std_sort_permutes : @std_sort_permutes example_sort_env.
Proof. intros less l. apply std_stable_sort_perm. Qed.

Lemma sort_buffer_permutes_witness :
  exists param' buf',
    sort_buffer example_memory example_param 3 example_records
    = Some (param', buf')
    /\ Permutation (vec_data (m_record_pointers example_records))
         (vec_data (m_record_pointers buf')).
Proof.
  eexists _, _. split; [reflexivity|].
  apply (sort_buffer_permutes example_memory example_param 3 example_records
           _ _ example_std_sort_permutes eq_refl).
Defined.

Lemma sort_buffer_stable_sorts_witness :
  exists param' buf',
    sort_buffer example_memory example_param 3 example_records
    = Some (param', buf')
    /\ sorted_by_key example_memory example_param
         (firstn (Z.to_nat 3) (vec_data (m_record_pointers buf'))).
Proof.
  eexists _, _. split; [reflexivity|].
  apply (sort_buffer_stable_sorts example_memory example_param 3
           example_records _ _ example_param_in_range eq_refl eq_refl
           eq_refl).
Defined.

Lemma sort_algorithm_choice_witness :
  FILESORT_ALG_STD_STABLE = FILESORT_ALG_STD_STABLE <->
  1 < 3 /\ max_compare_length example_param <> 0
  /\ (m_force_stable_sort example_param = true
      \/ (using_varlen_keys example_param = false /\ 100 < 3)).
Proof.
  apply (sort_algorithm_choice example_param 3 FILESORT_ALG_STD_STABLE
           (Call_std_stable_sort (Mem_compare 1)) eq_refl).
Defined.

(** ** Sorting twice *)

Lemma std_stable_sort_sorted_id {A : Type} (less : A -> A -> bool)
  (l : list A) :
  StronglySorted (fun p q => less q p = false) l ->
  std_stable_sort less l = l.
Proof.
  induction 1 as [|x l Hsorted IH Hall]; [reflexivity|].
  cbn [std_stable_sort]. rewrite IH.
  destruct l as [|y l]; [reflexivity|].
  cbn [stable_insert]. inversion Hall as [|? ? Hy _]; subst.
  now rewrite Hy.
Qed.

Section SortTwice.
Context `{Sort_env}.

Lemma sort_buffer_dispatch_set_algorithm (alg : enum_sort_algorithm)
  (param : Sort_param) (count : Z) :
  sort_buffer_dispatch (set_sort_algorithm alg param) count
  = sort_buffer_dispatch param count.
Proof. reflexivity. Qed.

(** X6.  Sorting fixed-length keys twice is sorting once: when
    [sort_buffer] has recorded [FILESORT_ALG_STD_STABLE], or
    [FILESORT_ALG_NONE], a second call with the same count returns the
    parameters and the buffer that the first call returned. *)
Theorem sort_buffer_twice (m : memory) (param : Sort_param) (count : Z)
  (buf : Filesort_buffer) (param' : Sort_param) (buf' : Filesort_buffer) :
  param_in_range param ->
  using_varlen_keys param = false ->
  sort_buffer m param count buf = Some (param', buf') ->
  m_sort_algorithm param' <> FILESORT_ALG_STD_SORT ->
  sort_buffer m param' count buf' = Some (param', buf').
Proof.
  intros [Hmcl Href] Hvar Hsort Halg. unfold sort_buffer in Hsort.
  destruct (sort_buffer_dispatch param count) as [[alg call]|] eqn:Hd;
    [|discriminate].
  cbn in Hsort. inversion Hsort; subst param' buf'. clear Hsort.
  cbn in Halg. unfold sort_buffer.
  rewrite sort_buffer_dispatch_set_algorithm, Hd. cbn [bind fst snd].
  f_equal. f_equal.
  pose proof (sort_buffer_dispatch_algorithm _ _ _ _ Hd) as Hcall.
  apply sort_buffer_dispatch_cases in Hd.
  destruct buf as [[ptrs cap] ? ? ? ? ? ? ? ?].
  unfold set_record_pointers. buffer_members. f_equal. f_equal.
  destruct Hd as [(_ & -> & _) | (Hcount & Hnz & Hd)]; [reflexivity|].
  destruct Hd as [[Hvar' _] | [(_ & _ & _ & ->) | (_ & _ & Hd)]];
    [congruence|contradiction|].
  destruct Hd as (compare_len & Hlen & _ & ->).
  assert (Hrange : 0 <= compare_len < 2 ^ 64).
  { destruct (m_force_stable_sort param && negb (using_addon_fields param)).
    - destruct Hlen as [Hgt ->]. rewrite wrap32_small; lia.
    - subst compare_len. lia. }
  cbn [run_sort_call].
  set (n := Z.to_nat count).
  set (less := compare_with
                 (if compare_len <? 10 then Mem_compare compare_len
                  else Mem_compare_longkey compare_len) m).
  set (sorted := std_stable_sort less (firstn n ptrs)).
  destruct (firstn_sorted_prefix n sorted ptrs) as [Hfirst Hskip].
  { apply std_stable_sort_length. }
  rewrite Hfirst, Hskip. f_equal.
  apply std_stable_sort_sorted_id. subst sorted.
  assert (Hless : forall p q,
            less p q
            = lex_lt (key_bytes m p (Z.to_nat compare_len))
                (key_bytes m q (Z.to_nat compare_len))).
  { intros p q. subst less. now apply fixed_comparator_lex. }
  apply std_stable_sort_sorted.
  - intros x y. rewrite !Hless. apply lex_lt_asym.
  - intros x y z. rewrite !Hless.
    apply lex_lt_not_trans; now rewrite !key_bytes_length.
Qed.
End SortTwice.

Lemma sort_buffer_twice_witness :
  exists param' buf',
    sort_buffer example_memory example_param 3 example_records
    = Some (param', buf')
    /\ sort_buffer example_memory param' 3 buf' = Some (param', buf').
Proof.
  eexists _, _. split; [reflexivity|].
  apply (sort_buffer_twice example_memory example_param 3 example_records
           _ _ example_param_in_range eq_refl eq_refl).
  discriminate.
Defined.

(** ** [reset], [free_sort_buffer] and the recorded peak *)

(** What [reset] leaves of a buffer. *)
Lemma reset_shape (b b1 : Filesort_buffer) :
  reset b = Some b1 ->
  vec_data (m_record_pointers b1) = []
  /\ m_space_used_other_blocks b1 = 0
  /\ m_max_record_length b1 = m_max_record_length b
  /\ m_max_size_in_bytes b1 = m_max_size_in_bytes b
  /\ (m_max_record_length b <= m_current_block_size b ->
      m_blocks b1
      = match m_blocks b with
        | [] => []
        | _ :: _ => [last (m_blocks b) (mkBlock nullptr 0)]
        end
      /\ vec_capacity (m_record_pointers b1)
         = vec_capacity (m_record_pointers b)
      /\ m_current_block_size b1 = m_current_block_size b
      /\ m_current_block_end b1 = m_current_block_end b
      /\ (m_blocks b <> [] ->
          m_next_rec_ptr b1
          = blk_start (last (m_blocks b) (mkBlock nullptr 0))))
  /\ (m_max_record_length b > m_current_block_size b ->
      m_blocks b1 = [] /\ vec_capacity (m_record_pointers b1) = 0
      /\ m_current_block_size b1 = 0
      /\ m_next_rec_ptr b1 = nullptr /\ m_current_block_end b1 = nullptr).
Proof.
  destruct b as [[data cap] blocks next e cur other mrl budget peak].
  reset_members.
  set (peak1 := Z.max peak _).
  destruct blocks as [|blk [|blk' bl]].
  - cbn [length Nat.leb]. buffer_members.
    destruct (Z.gtb_spec mrl cur); buffer_members; cbn [bind DBUG_ASSERT].
    + cbn. intros [= <-]. cbn. repeat split; try reflexivity; lia.
    + destruct (Z.eqb_spec next nullptr), (Z.eqb_spec e nullptr),
        (Z.eqb_spec cur 0); cbn; try discriminate; intros [= <-]; cbn.
      repeat split; try reflexivity; try lia; easy.
  - cbn [length Nat.leb]. buffer_members.
    destruct (Z.gtb_spec mrl cur); buffer_members.
    + cbn. intros [= <-]. cbn. repeat split; try reflexivity; lia.
    + cbn. destruct (e =? blk_start blk + cur); cbn;
        try discriminate; intros [= <-]; cbn.
      repeat split; try reflexivity; lia.
  - replace (2 <=? length (blk :: blk' :: bl))%nat with true by reflexivity.
    buffer_members.
    rewrite (skipn_last_block blk (mkBlock nullptr 0)) in *.
    destruct (Z.gtb_spec mrl cur); buffer_members.
    + cbn. intros [= <-]. cbn. repeat split; try reflexivity; lia.
    + cbn [bind DBUG_ASSERT]. buffer_members.
      destruct (e =? _); cbn [bind];
        try discriminate; intros [= <-]; buffer_members.
      repeat split; try reflexivity; lia.
Qed.

(** X7.  [reset] keeps the block that was added last, and only that one,
    when a record of the maximum length fits it: the block, its size, the
    end of the cursor and the storage of the record pointer array stay, and
    the cursor is back at the start of the block.  When the block is too
    small for one record, [reset] releases everything.  In both cases the
    record pointers are gone and no bytes are counted for other blocks. *)
Theorem reset_retains_last_block (b b1 : Filesort_buffer) :
  reset b = Some b1 ->
  vec_data (m_record_pointers b1) = []
  /\ m_space_used_other_blocks b1 = 0
  /\ m_max_record_length b1 = m_max_record_length b
  /\ m_max_size_in_bytes b1 = m_max_size_in_bytes b
  /\ (m_max_record_length b <= m_current_block_size b ->
      m_blocks b1
      = match m_blocks b with
        | [] => []
        | _ :: _ => [last (m_blocks b) (mkBlock nullptr 0)]
        end
      /\ vec_capacity (m_record_pointers b1)
         = vec_capacity (m_record_pointers b)
      /\ m_current_block_size b1 = m_current_block_size b
      /\ m_current_block_end b1 = m_current_block_end b
      /\ (m_blocks b <> [] ->
          m_next_rec_ptr b1
          = blk_start (last (m_blocks b) (mkBlock nullptr 0))))
  /\ (m_max_record_length b > m_current_block_size b ->
      m_blocks b1 = [] /\ vec_capacity (m_record_pointers b1) = 0
      /\ m_current_block_size b1 = 0
      /\ m_next_rec_ptr b1 = nullptr /\ m_current_block_end b1 = nullptr).
Proof. apply reset_shape. Qed.

Lemma reset_retains_last_block_witness :
  exists b1,
    reset example_two_blocks = Some b1
    /\ m_blocks b1 = [mkBlock 40000 49152]
    /\ m_next_rec_ptr b1 = 40000.
Proof.
  eexists. split; [reflexivity|].
  destruct (reset_retains_last_block example_two_blocks _ eq_refl)
    as (_ & _ & _ & _ & Hkeep & _).
  destruct Hkeep as (Hblocks & _ & _ & _ & Hnext).
  - cbn. lia.
  - split; [exact Hblocks|]. apply Hnext. discriminate.
Defined.

Section Peak.
Context `{Arena_env}.

Lemma allocate_block_rec_peak (fuel : nat) (new_block num_rows : Z)
  (b : Filesort_buffer) (failed : bool) (b' : Filesort_buffer) :
  allocate_block_rec fuel new_block num_rows b = Some (failed, b') ->
  m_peak_memory_used b' = m_peak_memory_used b.
Proof.
  revert b. induction fuel as [|fuel IH]; intros b; [discriminate|].
  cbn [allocate_block_rec].
  destruct (Z.min _ _ <? _).
  - destruct (_ >=? 32768); [|now intros [= <- <-]].
    destruct (_ <? _).
    + intros Hrec. now rewrite (IH _ Hrec).
    + now intros [= <- <-].
  - unfold allocate_sized_block.
    destruct (new_block =? nullptr); now intros [= <- <-].
Qed.

Lemma reset_peak (b b1 : Filesort_buffer) :
  reset b = Some b1 ->
  m_peak_memory_used b1
  = Z.max (m_peak_memory_used b)
      (wrap64
         (wrap64
            (wrap64 (vec_capacity (m_record_pointers b) * pointer_size)
             + m_current_block_size b)
          + m_space_used_other_blocks b)).
Proof.
  destruct b as [[data cap] blocks next e cur other mrl budget peak].
  reset_members.
  set (peak1 := Z.max peak _).
  destruct (2 <=? length blocks)%nat; buffer_members.
  - destruct (mrl >? cur); buffer_members.
    + cbn. intros [= <-]. cbn. apply Z.max_l, Z.le_max_r.
    + destruct (skipn _ _); cbn [bind DBUG_ASSERT]; buffer_members;
        repeat (destruct (_ =? _); cbn [bind]; try discriminate);
        now intros [= <-].
  - destruct (mrl >? cur); buffer_members.
    + cbn. intros [= <-]. cbn. apply Z.max_l, Z.le_max_r.
    + destruct blocks; cbn [bind DBUG_ASSERT]; buffer_members;
        repeat (destruct (_ =? _); cbn [bind]; try discriminate);
        now intros [= <-].
Qed.

(** X8.  The recorded peak is a high-water mark: [reset],
    [free_sort_buffer] and [get_contiguous_buffer] never lower it,
    [allocate_sized_block] and [allocate_block] leave it as it is, and
    after [reset] or [free_sort_buffer] it is no less than the footprint
    that the buffer had: the capacity of the record pointer array times
    the pointer size, plus the bytes of all blocks. *)
Theorem peak_memory_is_high_water_mark (b : Filesort_buffer) :
  m_peak_memory_used b <= m_peak_memory_used (free_sort_buffer b)
  /\ (forall b1, reset b = Some b1 ->
        m_peak_memory_used b <= m_peak_memory_used b1)
  /\ (forall new_block,
        m_peak_memory_used b
        <= m_peak_memory_used (snd (get_contiguous_buffer new_block b)))
  /\ (forall new_block block_size,
        m_peak_memory_used
          (snd (allocate_sized_block new_block block_size b))
        = m_peak_memory_used b)
  /\ (forall new_block num_rows failed b',
        allocate_block new_block num_rows b = Some (failed, b') ->
        m_peak_memory_used b' = m_peak_memory_used b)
  /\ (footprint_fits b ->
      footprint b <= m_peak_memory_used (free_sort_buffer b)
      /\ forall b1, reset b = Some b1 -> footprint b <= m_peak_memory_used b1).
Proof.
  repeat split.
  - cbn. lia.
  - intros b1 Hreset. rewrite (reset_peak _ _ Hreset). lia.
  - intros new_block. unfold get_contiguous_buffer, allocate_sized_block.
    destruct (negb _); [|cbn; lia].
    cbn [m_max_size_in_bytes free_sort_buffer].
    destruct (new_block =? nullptr); cbn; lia.
  - intros new_block block_size. unfold allocate_sized_block.
    now destruct (new_block =? nullptr).
  - intros new_block num_rows failed b' Hcall.
    exact (allocate_block_rec_peak _ _ _ _ _ _ Hcall).
  - destruct H0 as (Hcap & Hcur & Hother & Hfits).
    unfold footprint. cbn. unfold pointer_size in *.
    rewrite !(wrap64_small (vec_capacity (m_record_pointers b) * 8)) by lia.
    rewrite !(wrap64_small (_ + m_current_block_size b)) by lia.
    rewrite wrap64_small by lia. lia.
  - intros b1 Hreset. rewrite (reset_peak _ _ Hreset).
    destruct H0 as (Hcap & Hcur & Hother & Hfits).
    unfold footprint, pointer_size in *.
    rewrite !(wrap64_small (vec_capacity (m_record_pointers b) * 8)) by lia.
    rewrite !(wrap64_small (_ + m_current_block_size b)) by lia.
    rewrite wrap64_small by lia. lia.
Qed.
End Peak.

Lemma example_two_blocks_footprint_fits : footprint_fits example_two_blocks.
Proof. unfold footprint_fits, pointer_size. cbn. lia. Qed.

Lemma peak_memory_is_high_water_mark_witness :
  footprint example_two_blocks
  <= m_peak_memory_used (free_sort_buffer example_two_blocks).
Proof.
  destruct (@peak_memory_is_high_water_mark example_arena_env
              example_two_blocks) as (_ & _ & _ & _ & _ & Hfoot).
  exact (proj1 (Hfoot example_two_blocks_footprint_fits)).
Defined.

(** ** [get_contiguous_buffer] *)

(** X9.  [get_contiguous_buffer] hands out the whole budget as one
    block.  When the current block does not have the size of the budget,
    the buffer is released first; if the host then has memory, the buffer
    is left with the one new block of [m_max_size_in_bytes] bytes and
    without record pointer storage, so that the committed bytes are the
    budget, and the view returned is that block; if the host has none,
    the view is [(nullptr, 0)] and the buffer holds nothing. *)
Theorem get_contiguous_buffer_result (new_block : Z) (b : Filesort_buffer) :
  m_current_block_size b <> m_max_size_in_bytes b ->
  let view := fst (get_contiguous_buffer new_block b) in
  let b' := snd (get_contiguous_buffer new_block b) in
  (new_block <> nullptr ->
   view = (new_block, m_max_size_in_bytes b)
   /\ m_blocks b' = [mkBlock new_block (m_max_size_in_bytes b)]
   /\ m_record_pointers b' = vec_empty
   /\ m_next_rec_ptr b' = new_block
   /\ m_current_block_end b' = new_block + m_max_size_in_bytes b
   /\ m_current_block_size b' = m_max_size_in_bytes b
   /\ m_space_used_other_blocks b' = 0
   /\ committed_bytes b' = m_max_size_in_bytes b)
  /\ (new_block = nullptr ->
      view = (nullptr, 0) /\ b' = free_sort_buffer b
      /\ committed_bytes b' = 0)
  /\ m_max_size_in_bytes b' = m_max_size_in_bytes b
  /\ m_max_record_length b' = m_max_record_length b.
Proof.
  intros Hsize. unfold get_contiguous_buffer.
  destruct (Z.eqb_spec (m_current_block_size b) (m_max_size_in_bytes b));
    [contradiction|].
  cbn [negb]. unfold allocate_sized_block.
  destruct (Z.eqb_spec new_block nullptr) as [Hnull|Hnull].
  - cbn. repeat split; try reflexivity; contradiction.
  - cbn. unfold committed_bytes, blocks_total_bytes. cbn.
    repeat split; try reflexivity; try contradiction; intros; lia.
Qed.

Lemma get_contiguous_buffer_result_witness :
  fst (get_contiguous_buffer 8192 example_two_blocks) = (8192, 1048576)
  /\ committed_bytes (snd (get_contiguous_buffer 8192 example_two_blocks))
     = 1048576.
Proof.
  destruct (get_contiguous_buffer_result 8192 example_two_blocks)
    as (Hok & _).
  - cbn. lia.
  - destruct Hok as (Hview & _ & _ & _ & _ & _ & _ & Hbytes).
    + unfold nullptr. lia.
    + split; [exact Hview | exact Hbytes].
Defined.

(** X10.  A view that [get_contiguous_buffer] has handed out stays: when
    a call did not fail, the next call returns the same address and size
    and leaves the buffer as it is, whatever the host would answer.  The
    cursor of the buffer is as the operations leave it, so that a current
    block of the size of the budget is a block that exists. *)
Theorem get_contiguous_buffer_twice (new_block new_block' : Z)
  (b : Filesort_buffer) :
  cursor_ok b ->
  fst (get_contiguous_buffer new_block b) <> (nullptr, 0) ->
  get_contiguous_buffer new_block' (snd (get_contiguous_buffer new_block b))
  = get_contiguous_buffer new_block b.
Proof.
  intros _. unfold get_contiguous_buffer at 1 3 4.
  destruct (Z.eqb_spec (m_current_block_size b) (m_max_size_in_bytes b))
    as [Heq|Hne]; cbn [negb].
  - intros _. cbn [snd]. unfold get_contiguous_buffer.
    rewrite Heq, Z.eqb_refl. reflexivity.
  - unfold allocate_sized_block.
    destruct (Z.eqb_spec new_block nullptr) as [Hnull|Hnull].
    + cbn. intros Hview. now contradiction Hview.
    + intros _. cbn [fst snd]. unfold get_contiguous_buffer.
      cbn [m_current_block_size m_max_size_in_bytes free_sort_buffer
           update_peak_memory_used set_peak_memory_used].
      rewrite Z.eqb_refl. cbn [negb m_blocks].
      reflexivity.
Qed.

Lemma get_contiguous_buffer_twice_witness :
  get_contiguous_buffer 0
    (snd (get_contiguous_buffer 8192 example_two_blocks))
  = get_contiguous_buffer 8192 example_two_blocks.
Proof.
  apply (get_contiguous_buffer_twice 8192 0 example_two_blocks).
  - reflexivity.
  - cbn. discriminate.
Defined.

(** ** [allocate_block] and [allocate_sized_block] *)

Section Allocation.
Context `{Arena_env}.

Lemma allocate_block_rec_success (fuel : nat) (new_block num_rows : Z)
  (b b' : Filesort_buffer) :
  allocate_block_rec fuel new_block num_rows b = Some (false, b') ->
  new_block <> nullptr
  /\ exists size,
       m_blocks b' = m_blocks b ++ [mkBlock new_block size]
       /\ wrap64 (num_rows * m_max_record_length b) <= size
          <= Z.max (growth_target b)
               (wrap64 (num_rows * m_max_record_length b))
       /\ m_next_rec_ptr b' = new_block
       /\ m_current_block_end b' = new_block + size
       /\ m_current_block_size b' = size
       /\ m_space_used_other_blocks b'
          = wrap64 (m_space_used_other_blocks b + m_current_block_size b)
       /\ vec_data (m_record_pointers b') = vec_data (m_record_pointers b)
       /\ m_max_record_length b' = m_max_record_length b
       /\ m_max_size_in_bytes b' = m_max_size_in_bytes b.
Proof.
  revert b. induction fuel as [|fuel IH]; intros b; [discriminate|].
  cbn [allocate_block_rec]. fold (growth_target b).
  match goal with
  | |- context [Z.min (Z.max (growth_target b) ?needed) ?sl] =>
      set (space_left := sl)
  end.
  set (bytes_needed := wrap64 (num_rows * m_max_record_length b)).
  destruct (Z.ltb_spec (Z.min (Z.max (growth_target b) bytes_needed)
                          space_left) bytes_needed) as [Hfull|Hroom].
  - destruct (_ >=? 32768); [|discriminate].
    destruct (_ <? _); [|discriminate].
    intros Hrec. apply IH in Hrec. exact Hrec.
  - unfold allocate_sized_block.
    destruct (Z.eqb_spec new_block nullptr) as [Hnull|Hnull];
      [discriminate|].
    intros [= <-]. split; [exact Hnull|].
    exists (Z.min (Z.max (growth_target b) bytes_needed) space_left).
    buffer_members. repeat split; try reflexivity; lia.
Qed.

(** X11.  A call of [allocate_block] that reports success has added
    exactly one block, the one that the host returned, after the blocks
    that were there.  The block has room for the bytes asked for as the
    function computes them, [num_rows * m_max_record_length] in [size_t]:
    that is room for the rows themselves when the product does not
    overflow, and not otherwise (2 ^ 61 rows of 8 bytes are 0 bytes in
    [size_t]).  The block is no larger than the greater of the growth
    target (the first block [MIN_SORT_MEMORY], later ones half as much
    again as the current block) and the bytes asked for, the cursor spans
    it, the size of the block before it is added to the bytes of the other
    blocks, and the record pointers are as they were.  Without memory from
    the host the call never reports success. *)
Theorem allocate_block_success (new_block num_rows : Z)
  (b b' : Filesort_buffer) :
  allocate_block new_block num_rows b = Some (false, b') ->
  new_block <> nullptr
  /\ exists size,
       m_blocks b' = m_blocks b ++ [mkBlock new_block size]
       /\ wrap64 (num_rows * m_max_record_length b) <= size
          <= Z.max (growth_target b)
               (wrap64 (num_rows * m_max_record_length b))
       /\ (0 <= num_rows * m_max_record_length b < 2 ^ 64 ->
           num_rows * m_max_record_length b <= size)
       /\ m_next_rec_ptr b' = new_block
       /\ m_current_block_end b' = new_block + size
       /\ m_current_block_size b' = size
       /\ m_space_used_other_blocks b'
          = wrap64 (m_space_used_other_blocks b + m_current_block_size b)
       /\ vec_data (m_record_pointers b') = vec_data (m_record_pointers b)
       /\ m_max_record_length b' = m_max_record_length b
       /\ m_max_size_in_bytes b' = m_max_size_in_bytes b.
Proof.
  intros Hcall.
  destruct (allocate_block_rec_success _ _ _ _ _ Hcall)
    as (Hnull & size & Hblocks & Hsize & Hrest).
  split; [exact Hnull|]. exists size.
  split; [exact Hblocks|]. split; [exact Hsize|]. split; [|exact Hrest].
  intros Hfits. rewrite wrap64_small in Hsize by exact Hfits. lia.
Qed.

(** The space that [allocate_block] finds left has room for the records
    whose bytes and pointers fit what the budget leaves. *)
Lemma space_left_rows (cur other cap size mrl budget num_rows : Z) :
  0 <= size <= cap -> 0 <= cur -> 0 <= other -> 0 <= mrl ->
  mrl + pointer_size <= size_t_max ->
  budget < 2 ^ 64 ->
  0 <= num_rows ->
  num_rows * (mrl + pointer_size)
  <= budget - (cur + other + cap * pointer_size) ->
  let space_used := wrap64 (cur + other) in
  let space_used := wrap64 (space_used + wrap64 (cap * pointer_size)) in
  let space_left :=
    if space_used >? budget then 0 else budget - space_used in
  let min_num_rows_capacity :=
    wrap64 (size + space_left / AddWithSaturate mrl pointer_size) in
  let space_left :=
    if min_num_rows_capacity >? cap
    then wrap64 (space_left
                 - wrap64 (wrap64 (min_num_rows_capacity - cap)
                           * pointer_size))
    else space_left in
  num_rows * mrl <= space_left.
Proof.
  intros Hsize Hcur Hother Hmrl Hsat Hbudget Hrows Hfit.
  unfold AddWithSaturate.
  destruct (Z.gtb_spec (mrl + pointer_size) size_t_max) as [Hover|_]; [lia|].
  unfold pointer_size, size_t_max in *.
  assert (Hprod : 0 <= num_rows * (mrl + 8))
    by (apply Z.mul_nonneg_nonneg; lia).
  rewrite (wrap64_small (cur + other)) by lia.
  rewrite (wrap64_small (cap * 8)) by lia.
  rewrite (wrap64_small (cur + other + cap * 8)) by lia.
  destruct (Z.gtb_spec (cur + other + cap * 8) budget) as [Hover|_]; [lia|].
  set (left0 := budget - (cur + other + cap * 8)) in *.
  set (A := mrl + 8) in *.
  assert (HA : 0 < A) by (subst A; lia).
  assert (Hq : num_rows <= left0 / A).
  { apply Z.div_le_lower_bound; [exact HA|]. lia. }
  assert (Hqle : A * (left0 / A) <= left0) by (apply Z.mul_div_le; lia).
  assert (Hqmrl : num_rows * mrl <= (left0 / A) * mrl)
    by (apply Z.mul_le_mono_nonneg_r; lia).
  assert (HqA : A * (left0 / A) = (left0 / A) * mrl + (left0 / A) * 8)
    by (subst A; ring).
  assert (Hnn : 0 <= (left0 / A) * mrl)
    by (apply Z.mul_nonneg_nonneg; lia).
  cbv zeta.
  rewrite (wrap64_small (size + left0 / A)) by (subst left0; lia).
  destruct (Z.gtb_spec (size + left0 / A) cap) as [Hgrow|_]; [|lia].
  rewrite (wrap64_small (size + left0 / A - cap)) by (subst left0; lia).
  rewrite (wrap64_small ((size + left0 / A - cap) * 8)) by (subst left0; lia).
  rewrite wrap64_small by (subst left0; lia).
  lia.
Qed.

(** X12.  [allocate_block] succeeds when it can: on a buffer within its
    budget, when the host has memory and the rows asked for fit what the
    budget leaves, each with its record pointer, the call adds a block.
    Failure is reported only when the budget or the host is exhausted. *)
Theorem allocate_block_succeeds (new_block num_rows : Z)
  (b : Filesort_buffer) :
  counters_ok b -> within_budget b ->
  new_block <> nullptr ->
  0 <= num_rows ->
  m_max_record_length b + pointer_size <= size_t_max ->
  num_rows * (m_max_record_length b + pointer_size)
  <= m_max_size_in_bytes b - committed_bytes b ->
  exists b', allocate_block new_block num_rows b = Some (false, b').
Proof.
  intros Hok Hin Hnull Hrows Hsat Hfit.
  unfold allocate_block. cbn [allocate_block_rec].
  pose proof Hok as (Hvec & Hcur & Hother & Hmrl & Hbudget & Htotal).
  pose proof (Zle_0_nat (length (vec_data (m_record_pointers b)))) as Hlen.
  assert (Hfit' :
    num_rows * (m_max_record_length b + pointer_size)
    <= m_max_size_in_bytes b
       - (m_current_block_size b + m_space_used_other_blocks b
          + vec_capacity (m_record_pointers b) * pointer_size)).
  { unfold committed_bytes in Hfit. lia. }
  pose proof (space_left_rows (m_current_block_size b)
                (m_space_used_other_blocks b)
                (vec_capacity (m_record_pointers b))
                (vec_size (m_record_pointers b))
                (m_max_record_length b) (m_max_size_in_bytes b) num_rows
                ltac:(unfold vec_size in *; lia) Hcur Hother
                ltac:(lia) Hsat ltac:(lia) Hrows Hfit') as Hleft.
  cbv zeta in Hleft.
  match type of Hleft with
  | _ <= ?sl => set (space_left := sl) in *
  end.
  match goal with
  | |- context [Z.min (Z.max ?n ?needed) space_left] =>
      set (bytes_needed := needed); set (next_block_size := n)
  end.
  assert (Hneeded : bytes_needed <= num_rows * m_max_record_length b).
  { apply wrap64_le. apply Z.mul_nonneg_nonneg; lia. }
  destruct (Z.ltb_spec (Z.min (Z.max next_block_size bytes_needed)
                          space_left) bytes_needed) as [Hfull|_]; [lia|].
  unfold allocate_sized_block.
  destruct (Z.eqb_spec new_block nullptr); [contradiction|].
  eexists. reflexivity.
Qed.

Lemma allocate_block_rec_pointers (fuel : nat) (new_block num_rows : Z)
  (b : Filesort_buffer) (failed : bool) (b' : Filesort_buffer) :
  pointers_in_blocks b ->
  allocate_block_rec fuel new_block num_rows b = Some (failed, b') ->
  pointers_in_blocks b'.
Proof.
  revert b. induction fuel as [|fuel IH]; intros b Hin; [discriminate|].
  cbn [allocate_block_rec].
  destruct (Z.min _ _ <? _).
  - destruct (_ >=? 32768); [|now intros [= <- <-]].
    destruct (_ <? _).
    + apply IH. exact Hin.
    + now intros [= <- <-].
  - unfold allocate_sized_block.
    destruct (new_block =? nullptr); intros [= <- <-]; [exact Hin|].
    unfold pointers_in_blocks in *. buffer_members.
    eapply Forall_impl; [|exact Hin].
    intros p Hp. apply Exists_app. now left.
Qed.

(** X13.  No operation leaves a record pointer behind that points into
    a block the buffer has given up: when every record pointer lies in a
    block of the buffer, the same holds after [reset],
    [free_sort_buffer], [allocate_sized_block], [allocate_block] and
    [get_contiguous_buffer].  The operations that release blocks drop the
    record pointers with them. *)
Theorem record_pointers_stay_in_blocks (b : Filesort_buffer) :
  pointers_in_blocks b ->
  pointers_in_blocks (free_sort_buffer b)
  /\ (forall b1, reset b = Some b1 -> pointers_in_blocks b1)
  /\ (forall new_block block_size,
        pointers_in_blocks
          (snd (allocate_sized_block new_block block_size b)))
  /\ (forall new_block num_rows failed b',
        allocate_block new_block num_rows b = Some (failed, b') ->
        pointers_in_blocks b')
  /\ (forall new_block,
        pointers_in_blocks (snd (get_contiguous_buffer new_block b))).
Proof.
  intros Hin. repeat split.
  - constructor.
  - intros b1 Hreset. unfold pointers_in_blocks.
    destruct (reset_shape b b1 Hreset) as [-> _].
    constructor.
  - intros new_block block_size. unfold allocate_sized_block.
    destruct (new_block =? nullptr); [exact Hin|].
    unfold pointers_in_blocks in *. buffer_members.
    eapply Forall_impl; [|exact Hin].
    intros p Hp. apply Exists_app. now left.
  - intros new_block num_rows failed b' Hcall.
    exact (allocate_block_rec_pointers _ _ _ _ _ _ Hin Hcall).
  - intros new_block. unfold get_contiguous_buffer, allocate_sized_block.
    destruct (negb _); [|exact Hin].
    cbn [m_max_size_in_bytes free_sort_buffer].
    destruct (new_block =? nullptr); constructor.
Qed.
End Allocation.

(** *** The allocation at the examples *)

(** A count of rows whose bytes overflow [size_t]: the call succeeds with
    the first block of the default size. *)
Lemma allocate_block_rows_overflow :
  @allocate_block example_arena_env 4096 (2 ^ 61) (empty_buffer 1048576 8)
  = Some (false,
          mkFilesort_buffer (mkVector [] 0) [mkBlock 4096 32768] 4096
            36864 32768 0 8 1048576 0).
Proof. vm_compute. reflexivity. Qed.

Lemma allocate_block_success_witness :
  exists b' size,
    @allocate_block example_arena_env 4096 10 (empty_buffer 1048576 100)
    = Some (false, b')
    /\ m_blocks b'
       = m_blocks (empty_buffer 1048576 100) ++ [mkBlock 4096 size]
    /\ 10 * 100 <= size.
Proof.
  assert (Hcall :
    @allocate_block example_arena_env 4096 10 (empty_buffer 1048576 100)
    = Some (false,
            mkFilesort_buffer (mkVector [] 0) [mkBlock 4096 32768] 4096
              36864 32768 0 100 1048576 0)).
  { vm_compute. reflexivity. }
  destruct (@allocate_block_success example_arena_env _ _ _ _ Hcall)
    as (_ & size & Hblocks & _ & Hrows & _).
  eexists _, size. split; [exact Hcall|]. split; [exact Hblocks|].
  apply Hrows. cbn. lia.
Defined.

Lemma allocate_block_succeeds_witness :
  exists b',
    @allocate_block example_arena_env 4096 10 (empty_buffer 1048576 100)
    = Some (false, b').
Proof.
  apply (@allocate_block_succeeds example_arena_env 4096 10
           (empty_buffer 1048576 100)).
  - apply empty_buffer_ok; lia.
  - apply empty_buffer_ok; lia.
  - discriminate.
  - lia.
  - unfold pointer_size, size_t_max. cbn. lia.
  - unfold committed_bytes, blocks_total_bytes, pointer_size. cbn. lia.
Defined.

Lemma example_two_blocks_pointers : pointers_in_blocks example_two_blocks.
Proof.
  unfold pointers_in_blocks. cbn.
  constructor; [|constructor; [|constructor]];
    apply Exists_cons_tl, Exists_cons_hd; cbn; lia.
Qed.

Lemma record_pointers_stay_in_blocks_witness :
  pointers_in_blocks
    (snd (allocate_sized_block 200000 1000 example_two_blocks)).
Proof.
  destruct (@record_pointers_stay_in_blocks example_arena_env
              example_two_blocks example_two_blocks_pointers)
    as (_ & _ & Hsized & _).
  apply Hsized.
Defined.

(** ** [preallocate_records] *)

Section PreallocateRefusals.
Context `{Arena_env}.

(** [reset] leaves the cursor spanning the current block. *)
Lemma reset_cursor_spans (b b1 : Filesort_buffer) :
  reset b = Some b1 ->
  m_current_block_end b1 = m_next_rec_ptr b1 + m_current_block_size b1.
Proof.
  destruct b as [[data cap] blocks next e cur other mrl budget peak].
  reset_members.
  set (peak1 := Z.max peak _).
  destruct (2 <=? length blocks)%nat; buffer_members.
  - destruct (mrl >? cur); buffer_members.
    + cbn. now intros [= <-].
    + destruct (skipn _ _); cbn [bind DBUG_ASSERT]; buffer_members.
      * destruct (Z.eqb_spec next nullptr), (Z.eqb_spec e nullptr),
          (Z.eqb_spec cur 0); cbn [bind]; try discriminate.
        intros [= <-]. cbn. unfold nullptr in *. lia.
      * destruct (Z.eqb_spec e (blk_start b + cur)); cbn [bind];
          try discriminate.
        intros [= <-]. cbn. lia.
  - destruct (mrl >? cur); buffer_members.
    + cbn. now intros [= <-].
    + destruct blocks; cbn [bind DBUG_ASSERT]; buffer_members.
      * destruct (Z.eqb_spec next nullptr), (Z.eqb_spec e nullptr),
          (Z.eqb_spec cur 0); cbn [bind]; try discriminate.
        intros [= <-]. cbn. unfold nullptr in *. lia.
      * destruct (Z.eqb_spec e (blk_start b + cur)); cbn [bind];
          try discriminate.
        intros [= <-]. cbn. lia.
Qed.

(** X14.  When [preallocate_records] refuses.  A request whose records
    and record pointers do not fit the budget is refused after the
    [reset], with which the call begins, and nothing else is done: no block
    is asked of the host.  A request that fits the budget but not the
    block that [reset] kept is refused when the host has no memory, and
    then the kept block is gone as well: the buffer is released. *)
Theorem preallocate_records_refusals (new_block : Z) (host : nat -> Z)
  (num_records : Z) (b b1 : Filesort_buffer) :
  reset b = Some b1 ->
  0 <= num_records -> 0 <= m_max_record_length b ->
  num_records * (m_max_record_length b + pointer_size) < 2 ^ 64 ->
  (m_max_size_in_bytes b
   < num_records * (m_max_record_length b + pointer_size) ->
   preallocate_records new_block host num_records b = Some (true, b1))
  /\ (num_records * (m_max_record_length b + pointer_size)
      <= m_max_size_in_bytes b ->
      m_current_block_size b1 < num_records * m_max_record_length b ->
      preallocate_records nullptr host num_records b
      = Some (true, free_sort_buffer b1)).
Proof.
  intros Hreset Hrows Hmrl Hfits.
  pose proof (reset_shape b b1 Hreset) as (_ & _ & Hlen & Hbudget & _).
  pose proof (reset_cursor_spans b b1 Hreset) as Hspan.
  unfold preallocate_records. rewrite Hreset. cbn [bind].
  rewrite Hlen, Hbudget. unfold pointer_size in *.
  assert (Hbytes : 0 <= num_records * m_max_record_length b)
    by (apply Z.mul_nonneg_nonneg; lia).
  rewrite (wrap64_small (num_records * m_max_record_length b)) by lia.
  rewrite (wrap64_small (num_records * 8)) by lia.
  rewrite wrap64_small by lia.
  split.
  - intros Hover.
    destruct (Z.gtb_spec
                (num_records * m_max_record_length b + num_records * 8)
                (m_max_size_in_bytes b)); [reflexivity|lia].
  - intros Hin Hsmall.
    destruct (Z.gtb_spec
                (num_records * m_max_record_length b + num_records * 8)
                (m_max_size_in_bytes b)); [lia|].
    destruct (Z.gtb_spec
                (m_next_rec_ptr b1 + num_records * m_max_record_length b)
                (m_current_block_end b1)); [|lia].
    reflexivity.
Qed.
End PreallocateRefusals.

Lemma preallocate_records_refusals_witness :
  @preallocate_records example_arena_env 8192 (fun _ => 0) 400
    example_grown_buffer
  = Some (true, set_peak_memory_used 30344 example_grown_buffer).
Proof.
  apply (@preallocate_records_refusals example_arena_env 8192 (fun _ => 0)
           400 example_grown_buffer
           (set_peak_memory_used 30344 example_grown_buffer)).
  - vm_compute. reflexivity.
  - lia.
  - cbn. lia.
  - unfold pointer_size. cbn. lia.
  - unfold pointer_size. cbn. lia.
Defined.

(** ** The invariant of the arena *)

Section ArenaInvariant.
Context `{Arena_env}.
Hypothesis shrink_sound : shrink_to_fit_sound.

Lemma allocate_block_rec_current (fuel : nat) (new_block num_rows : Z)
  (b : Filesort_buffer) (failed : bool) (b' : Filesort_buffer) :
  current_block_ok b ->
  allocate_block_rec fuel new_block num_rows b = Some (failed, b') ->
  current_block_ok b'.
Proof.
  revert b. induction fuel as [|fuel IH]; intros b Hcur; [discriminate|].
  cbn [allocate_block_rec].
  destruct (Z.min _ _ <? _).
  - destruct (_ >=? 32768); [|now intros [= <- <-]].
    destruct (_ <? _).
    + apply IH. exact Hcur.
    + now intros [= <- <-].
  - unfold allocate_sized_block.
    destruct (new_block =? nullptr); intros [= <- <-]; [exact Hcur|].
    unfold current_block_ok. buffer_members. now rewrite last_last.
Qed.

Lemma arena_ok_footprint_fits (b : Filesort_buffer) :
  arena_ok b -> footprint_fits b.
Proof.
  intros ((Hvec & Hcur & Hother & Hmrl & Hbudget & Htotal) & Hin & _).
  pose proof (Zle_0_nat (length (vec_data (m_record_pointers b)))) as Hlen.
  unfold footprint_fits, within_budget, committed_bytes, vec_size,
    pointer_size in *.
  repeat split; lia.
Qed.

(** X15.  The operations keep the buffer consistent and within its
    budget.  From a buffer whose counters agree with its blocks, whose
    committed bytes are within the budget and whose cursor ends at the
    last block, [free_sort_buffer], [reset], [allocate_block] and
    [get_contiguous_buffer] all return, and each leaves a buffer with the
    same properties, in whatever order they are called. *)
Theorem arena_ok_preserved (b : Filesort_buffer) :
  arena_ok b ->
  arena_ok (free_sort_buffer b)
  /\ (exists b1, reset b = Some b1 /\ arena_ok b1)
  /\ (forall new_block num_rows, exists failed b',
        allocate_block new_block num_rows b = Some (failed, b')
        /\ arena_ok b')
  /\ (forall new_block,
        arena_ok (snd (get_contiguous_buffer new_block b))).
Proof.
  intros Hok.
  pose proof (arena_ok_footprint_fits b Hok) as Hfits.
  destruct Hok as (Hcount & Hin & Hcursor & Hcurrent).
  pose proof Hcount as (Hvec & Hcur & Hother & Hmrl & Hbudget & Htotal).
  pose proof (Zle_0_nat (length (vec_data (m_record_pointers b)))) as Hlen.
  assert (Hfree : arena_ok (free_sort_buffer b)).
  { unfold arena_ok, counters_ok, within_budget, cursor_ok, current_block_ok,
      committed_bytes, blocks_total_bytes, vec_size, pointer_size.
    cbn. repeat split; lia. }
  split; [exact Hfree|]. split; [|split].
  - destruct (reset_is_reset b Hfits Hcursor) as (b1 & Hreset & _).
    exists b1. split; [exact Hreset|].
    pose proof (reset_cursor_ok b b1 Hfits Hcursor Hreset) as Hcursor1.
    destruct (reset_shape b b1 Hreset)
      as (Hdata & Hother1 & Hmrl1 & Hbudget1 & Hkeep & Hdrop).
    unfold arena_ok. split; [|split; [|split; [exact Hcursor1|]]].
    + unfold counters_ok, within_budget, committed_bytes, blocks_total_bytes,
        current_block_ok, vec_size, pointer_size in *.
      rewrite Hdata, Hother1, Hmrl1, Hbudget1.
      destruct (Z.le_gt_cases (m_max_record_length b)
                  (m_current_block_size b)) as [Hle|Hgt].
      * destruct (Hkeep Hle) as (Hbl & Hcap & Hcur1 & _).
        rewrite Hbl, Hcap, Hcur1.
        destruct (m_blocks b); cbn in *; repeat split; lia.
      * destruct (Hdrop ltac:(lia)) as (Hbl & Hcap & Hcur1 & _).
        rewrite Hbl, Hcap, Hcur1. cbn. repeat split; lia.
    + unfold counters_ok, within_budget, committed_bytes, blocks_total_bytes,
        current_block_ok, vec_size, pointer_size in *.
      rewrite Hbudget1.
      destruct (Z.le_gt_cases (m_max_record_length b)
                  (m_current_block_size b)) as [Hle|Hgt].
      * destruct (Hkeep Hle) as (Hbl & Hcap & Hcur1 & _).
        rewrite Hbl, Hcap.
        destruct (m_blocks b) eqn:Hblocks; cbn [fold_right] in *.
        -- lia.
        -- rewrite <- Hcurrent. lia.
      * destruct (Hdrop ltac:(lia)) as (Hbl & Hcap & Hcur1 & _).
        rewrite Hbl, Hcap. cbn. lia.
    + unfold current_block_ok in *.
      destruct (Z.le_gt_cases (m_max_record_length b)
                  (m_current_block_size b)) as [Hle|Hgt].
      * destruct (Hkeep Hle) as (Hbl & Hcap & Hcur1 & _).
        rewrite Hbl, Hcur1.
        destruct (m_blocks b); [exact Hcurrent|]. cbn [last]. exact Hcurrent.
      * destruct (Hdrop ltac:(lia)) as (Hbl & Hcap & Hcur1 & _).
        rewrite Hbl, Hcur1. reflexivity.
  - intros new_block num_rows.
    destruct (allocate_block_rec_frame shrink_sound
                (S (Z.to_nat (vec_capacity (m_record_pointers b))))
                new_block num_rows b Hvec ltac:(lia))
      as (failed & b' & Hcall & _).
    exists failed, b'. split; [exact Hcall|].
    destruct (allocate_block_rec_budget shrink_sound _ _ _ _ _ _ Hcount Hin
                Hcall) as [Hcount' Hin'].
    repeat split; try apply Hcount'; try exact Hin'.
    + exact (allocate_block_rec_cursor_ok _ _ _ _ _ _ Hcursor Hcall).
    + exact (allocate_block_rec_current _ _ _ _ _ _ Hcurrent Hcall).
  - intros new_block. unfold get_contiguous_buffer.
    destruct (negb _); cbn [snd].
    2:{ repeat split; try apply Hcount; assumption. }
    unfold allocate_sized_block.
    cbn [m_max_size_in_bytes free_sort_buffer update_peak_memory_used
         set_peak_memory_used].
    destruct (new_block =? nullptr); cbn [fst snd]; [exact Hfree|].
    unfold arena_ok, counters_ok, within_budget, cursor_ok, current_block_ok,
      committed_bytes, blocks_total_bytes, vec_size, pointer_size.
    buffer_members. cbn [app last fold_right length vec_empty vec_data
                         vec_capacity blk_size blk_start].
    change (wrap64 (0 + 0)) with 0.
    repeat split; cbn; try lia. apply wrap64_range.
Qed.
End ArenaInvariant.

Lemma example_two_blocks_arena_ok : arena_ok example_two_blocks.
Proof.
  unfold arena_ok, counters_ok, within_budget, cursor_ok, current_block_ok,
    committed_bytes, blocks_total_bytes, vec_size, pointer_size.
  cbn. repeat split; lia.
Qed.

Lemma arena_ok_preserved_witness :
  arena_ok (snd (get_contiguous_buffer 8192 example_two_blocks)).
Proof.
  destruct (@arena_ok_preserved example_arena_env example_shrink_to_fit_sound
              example_two_blocks example_two_blocks_arena_ok)
    as (_ & _ & _ & Hview).
  apply Hview.
Defined.

(** ** The rows and the passes of the estimate, in exact arithmetic *)

Section MergeRows.
Context `{Merge_constants}.
Variable cost_model : Cost_model_table.
Hypothesis constants_ok : merge_constants_ok.

Lemma get_merge_cost_nonneg (num_elements num_buffers elem_size : Z) :
  cost_monotone (io_block_read_cost cost_model) ->
  cost_monotone (key_compare_cost cost_model) ->
  0 <= num_elements -> 1 <= num_buffers ->
  (0 <= get_merge_cost num_elements num_buffers elem_size cost_model)%R.
Proof.
  intros [Hio_pos _] [Hcmp_pos _] Helems Hbuffers.
  destruct constants_ok as (_ & _ & _ & Hio).
  unfold get_merge_cost.
  assert (Hops :
    (0 <= IZR (wrap64 (num_elements * elem_size)) / IZR IO_SIZE)%R).
  { apply Rmult_le_pos.
    - apply (IZR_le 0). apply wrap64_range.
    - apply Rlt_le, Rinv_0_lt_compat. now apply (IZR_lt 0). }
  assert (Hcmp : (0 <= IZR num_elements * log2 (IZR num_buffers))%R).
  { apply Rmult_le_pos; [now apply (IZR_le 0)|].
    apply log2_nonneg. now apply (IZR_le 1). }
  pose proof (Hio_pos _ Hops). pose proof (Hcmp_pos _ Hcmp). lra.
Qed.

(** One pass of the loop keeps the rows, leaves at most half of the
    buffers, and adds a cost that is not negative. *)
Lemma merge_pass_accounts (num_rows elem_size : Z) (s : Merge_state) :
  num_rows < 2 ^ 64 ->
  MERGEBUFF2 <= ms_num_buffers s ->
  rows_accounted num_rows s ->
  rows_accounted num_rows (merge_pass elem_size cost_model s)
  /\ 2 * ms_num_buffers (merge_pass elem_size cost_model s)
     <= ms_num_buffers s
  /\ (cost_monotone (io_block_read_cost cost_model) ->
      cost_monotone (key_compare_cost cost_model) ->
      (ms_total_cost s
       <= ms_total_cost (merge_pass elem_size cost_model s))%R).
Proof.
  intros Hmax Hmore (Hnbpos & Hlast & Hk & Hrows).
  destruct constants_ok as (Hfan & Hlimit & Hlimit2 & Hio).
  destruct s as [nb last k total].
  cbn [ms_num_buffers ms_last_n_elems ms_num_keys_per_buffer ms_total_cost]
    in *.
  unfold merge_pass, rows_accounted.
  cbn [ms_num_buffers ms_last_n_elems ms_num_keys_per_buffer ms_total_cost].
  set (c := MERGEBUFF * 3 / 2) in *.
  assert (Hc : 3 <= c).
  { subst c. apply Z.div_le_lower_bound; lia. }
  assert (HcM : MERGEBUFF <= c).
  { subst c. apply Z.div_le_lower_bound; lia. }
  assert (Hknb : 0 <= k * nb) by (apply Z.mul_nonneg_nonneg; lia).
  assert (Hnbk : 1 * nb <= k * nb)
    by (apply Z.mul_le_mono_nonneg_r; lia).
  rewrite (wrap64_small (nb - c)) by lia.
  set (q := (nb - c) / MERGEBUFF).
  assert (Hq : 0 <= q /\ MERGEBUFF * q <= nb - c /\ 2 * q <= nb - c).
  { subst q. split; [apply Z.div_pos; lia|].
    assert (MERGEBUFF * ((nb - c) / MERGEBUFF) <= nb - c)
      by (apply Z.mul_div_le; lia).
    assert (0 <= (nb - c) / MERGEBUFF) by (apply Z.div_pos; lia).
    assert (2 * ((nb - c) / MERGEBUFF)
            <= MERGEBUFF * ((nb - c) / MERGEBUFF))
      by (apply Z.mul_le_mono_nonneg_r; lia).
    split; [assumption | lia]. }
  rewrite (wrap64_small (1 + q)) by lia.
  assert (Hcalls : (1 + q) * MERGEBUFF = MERGEBUFF + MERGEBUFF * q) by ring.
  rewrite (wrap64_small ((1 + q) * MERGEBUFF)) by lia.
  rewrite (wrap64_small (nb - (1 + q) * MERGEBUFF)) by lia.
  set (rem := nb - (1 + q) * MERGEBUFF).
  assert (Hrem : 0 <= rem <= nb) by (subst rem; lia).
  assert (HkM : 0 <= k * MERGEBUFF <= k * nb).
  { split; [apply Z.mul_nonneg_nonneg; lia|].
    apply Z.mul_le_mono_nonneg_l; lia. }
  assert (Hremk : 0 <= rem * k <= k * nb).
  { split; [apply Z.mul_nonneg_nonneg; lia|].
    rewrite (Z.mul_comm rem k). apply Z.mul_le_mono_nonneg_l; lia. }
  assert (Hfold : rem * k + k * MERGEBUFF * (1 + q) = k * nb)
    by (subst rem; ring).
  assert (HkM1 : 1 * MERGEBUFF <= k * MERGEBUFF)
    by (apply Z.mul_le_mono_nonneg_r; lia).
  rewrite (wrap64_small (k * MERGEBUFF)) by lia.
  rewrite (wrap64_small (rem * k)) by lia.
  rewrite (wrap64_small (last + rem * k)) by lia.
  rewrite (wrap64_small (1 + rem)) by lia.
  split; [|split].
  - repeat split; lia.
  - lia.
  - intros Hio_mono Hcmp_mono.
    assert (Hfull :
      (0 <= get_merge_cost (k * MERGEBUFF) MERGEBUFF elem_size cost_model)%R)
      by (apply get_merge_cost_nonneg; try assumption; lia).
    assert (Hpart :
      (0 <= get_merge_cost (last + rem * k) (1 + rem) elem_size
              cost_model)%R)
      by (apply get_merge_cost_nonneg; try assumption; lia).
    assert (Hcallspos : (0 <= IZR (1 + q))%R) by (apply (IZR_le 0); lia).
    pose proof (Rmult_le_pos _ _ Hcallspos Hfull). lra.
Qed.

(** The loop ends within as many passes as the count of buffers has
    binary digits. *)
Lemma merge_passes_accounts (fuel : nat) (num_rows elem_size : Z)
  (s : Merge_state) :
  num_rows < 2 ^ 64 ->
  ms_num_buffers s < 2 ^ Z.of_nat fuel ->
  rows_accounted num_rows s ->
  exists r,
    merge_passes fuel elem_size cost_model s = Some r
    /\ rows_accounted num_rows r
    /\ ms_num_buffers r < MERGEBUFF2
    /\ (cost_monotone (io_block_read_cost cost_model) ->
        cost_monotone (key_compare_cost cost_model) ->
        (ms_total_cost s <= ms_total_cost r)%R).
Proof.
  intros Hmax. revert s.
  destruct constants_ok as (Hfan & Hlimit & _).
  assert (Hthree : 3 <= MERGEBUFF2).
  { assert (3 <= MERGEBUFF * 3 / 2)
      by (apply Z.div_le_lower_bound; lia). lia. }
  induction fuel as [|fuel IH]; intros s Hdigits Hrows.
  - exists s.
    assert (Hdone : ms_num_buffers s < MERGEBUFF2)
      by (cbn in Hdigits; lia).
    rewrite merge_passes_done by exact Hdone.
    repeat split; try apply Hrows; try exact Hdone. intros; lra.
  - destruct (Z.lt_ge_cases (ms_num_buffers s) MERGEBUFF2) as [Hdone|Hmore].
    + exists s. rewrite merge_passes_done by exact Hdone.
      repeat split; try apply Hrows; try exact Hdone. intros; lra.
    + destruct (merge_pass_accounts num_rows elem_size s Hmax Hmore Hrows)
        as (Hrows' & Hhalf & Hcost).
      rewrite merge_passes_step by exact Hmore.
      destruct (IH (merge_pass elem_size cost_model s)) as
        (r & Hrun & Hrows'' & Hdone & Hcost'); [|exact Hrows'|].
      { rewrite Nat2Z.inj_succ, Z.pow_succ_r in Hdigits by lia. lia. }
      exists r. repeat split; try apply Hrows''; try assumption.
      intros Hio_mono Hcmp_mono.
      specialize (Hcost Hio_mono Hcmp_mono).
      specialize (Hcost' Hio_mono Hcmp_mono). lra.
Qed.

Lemma initial_rows_accounted (num_rows num_keys_per_buffer : Z) (total : R) :
  0 <= num_rows -> 0 < num_keys_per_buffer ->
  rows_accounted num_rows
    (mkMerge_state (num_rows / num_keys_per_buffer)
       (num_rows mod num_keys_per_buffer) num_keys_per_buffer total)
  /\ num_rows / num_keys_per_buffer <= num_rows.
Proof.
  intros Hrows Hk.
  pose proof (Z.div_mod num_rows num_keys_per_buffer ltac:(lia)) as Hdiv.
  pose proof (Z.mod_pos_bound num_rows num_keys_per_buffer Hk) as Hmod.
  assert (Hq : 0 <= num_rows / num_keys_per_buffer)
    by (apply Z.div_pos; lia).
  assert (Hle : 1 * (num_rows / num_keys_per_buffer)
                <= num_keys_per_buffer * (num_rows / num_keys_per_buffer))
    by (apply Z.mul_le_mono_nonneg_r; lia).
  unfold rows_accounted.
  cbn [ms_num_buffers ms_last_n_elems ms_num_keys_per_buffer].
  repeat split; lia.
Qed.

(** The estimate from a state that has left the loop. *)
Lemma final_merge_accounts (num_rows elem_size : Z) (r : Merge_state) :
  num_rows < 2 ^ 64 ->
  rows_accounted num_rows r ->
  ms_num_buffers r < MERGEBUFF2 ->
  wrap64 (ms_last_n_elems r
          + wrap64 (ms_num_keys_per_buffer r * ms_num_buffers r))
  = num_rows
  /\ wrap64 (1 + ms_num_buffers r) = 1 + ms_num_buffers r.
Proof.
  intros Hmax (Hnb & Hlast & Hk & Hrows) Hdone.
  destruct constants_ok as (_ & _ & Hlimit2 & _).
  assert (Hprod : 0 <= ms_num_keys_per_buffer r * ms_num_buffers r)
    by (apply Z.mul_nonneg_nonneg; lia).
  rewrite (wrap64_small (ms_num_keys_per_buffer r * ms_num_buffers r))
    by lia.
  rewrite (wrap64_small (ms_last_n_elems r + _)) by lia.
  rewrite (wrap64_small (1 + ms_num_buffers r)) by lia.
  split; [exact Hrows | reflexivity].
Qed.

(** X16.  [get_merge_many_buffs_cost_fast] returns for every count of
    rows of 64 bits and every buffer capacity above 0: each pass of its
    loop leaves at most half of the buffers, so that the loop ends, and
    no pass loses or adds a row, so that the merge which ends the estimate
    is one of all [num_rows] rows, from one more buffer than the loop has
    left, which are fewer than [MERGEBUFF2]. *)
Theorem get_merge_many_buffs_cost_fast_returns
  (num_rows num_keys_per_buffer elem_size : Z) :
  0 <= num_rows < 2 ^ 64 -> 0 < num_keys_per_buffer ->
  exists s,
    merge_passes 64 elem_size cost_model
      (mkMerge_state (num_rows / num_keys_per_buffer)
         (num_rows mod num_keys_per_buffer) num_keys_per_buffer
         (sort_cost cost_model num_rows num_keys_per_buffer))
    = Some s
    /\ 0 <= ms_num_buffers s < MERGEBUFF2
    /\ ms_last_n_elems s + ms_num_keys_per_buffer s * ms_num_buffers s
       = num_rows
    /\ get_merge_many_buffs_cost_fast num_rows num_keys_per_buffer elem_size
         cost_model
       = Some (ms_total_cost s
               + get_merge_cost num_rows (1 + ms_num_buffers s) elem_size
                   cost_model)%R.
Proof.
  intros Hrows Hk.
  destruct (initial_rows_accounted num_rows num_keys_per_buffer
              (sort_cost cost_model num_rows num_keys_per_buffer)
              ltac:(lia) Hk) as [Hinit Hle].
  assert (Hmax : num_rows < 2 ^ 64) by lia.
  assert (Hdigits : num_rows / num_keys_per_buffer < 2 ^ Z.of_nat 64).
  { change (2 ^ Z.of_nat 64) with (2 ^ 64). lia. }
  destruct (merge_passes_accounts 64 num_rows elem_size
              (mkMerge_state (num_rows / num_keys_per_buffer)
                 (num_rows mod num_keys_per_buffer) num_keys_per_buffer
                 (sort_cost cost_model num_rows num_keys_per_buffer))
              Hmax Hdigits Hinit)
    as (s & Hrun & Hacc & Hdone & _).
  exists s. split; [exact Hrun|].
  destruct (final_merge_accounts num_rows elem_size s Hmax Hacc Hdone)
    as [Hall Hone].
  split; [split; [apply Hacc | exact Hdone]|].
  split; [apply Hacc|].
  unfold get_merge_many_buffs_cost_fast.
  destruct (Z.eqb_spec num_keys_per_buffer 0) as [Hzero|_]; [lia|].
  fold (sort_cost cost_model num_rows num_keys_per_buffer).
  rewrite Hrun. cbn [bind]. now rewrite Hall, Hone.
Qed.

(** X17.  When the rows fill fewer than [MERGEBUFF2] buffers, the
    estimate is the cost of sorting the buffers plus the cost of one merge
    of all rows from one more buffer than the full ones: no merge pass is
    counted. *)
Theorem get_merge_many_buffs_cost_fast_single_merge
  (num_rows num_keys_per_buffer elem_size : Z) :
  0 <= num_rows < 2 ^ 64 -> 0 < num_keys_per_buffer ->
  num_rows / num_keys_per_buffer < MERGEBUFF2 ->
  get_merge_many_buffs_cost_fast num_rows num_keys_per_buffer elem_size
    cost_model
  = Some (sort_cost cost_model num_rows num_keys_per_buffer
          + get_merge_cost num_rows (1 + num_rows / num_keys_per_buffer)
              elem_size cost_model)%R.
Proof.
  intros Hrows Hk Hsingle.
  destruct (initial_rows_accounted num_rows num_keys_per_buffer
              (sort_cost cost_model num_rows num_keys_per_buffer)
              ltac:(lia) Hk) as [Hinit _].
  assert (Hmax : num_rows < 2 ^ 64) by lia.
  destruct (final_merge_accounts num_rows elem_size _ Hmax Hinit Hsingle)
    as [Hall Hone].
  cbn [ms_num_buffers ms_last_n_elems ms_num_keys_per_buffer] in Hall, Hone.
  unfold get_merge_many_buffs_cost_fast.
  destruct (Z.eqb_spec num_keys_per_buffer 0) as [Hzero|_]; [lia|].
  fold (sort_cost cost_model num_rows num_keys_per_buffer).
  rewrite merge_passes_done by exact Hsingle.
  cbn [bind ms_num_buffers ms_last_n_elems ms_num_keys_per_buffer
       ms_total_cost].
  now rewrite Hall, Hone.
Qed.

Hypothesis io_monotone : cost_monotone (io_block_read_cost cost_model).
Hypothesis compare_monotone : cost_monotone (key_compare_cost cost_model).

Lemma sort_cost_nonneg (num_rows num_keys_per_buffer : Z) :
  0 <= num_rows -> 0 < num_keys_per_buffer ->
  (0 <= sort_cost cost_model num_rows num_keys_per_buffer)%R.
Proof.
  intros Hrows Hk. unfold sort_cost.
  destruct compare_monotone as [Hpos _].
  pose proof (Z.mod_pos_bound num_rows num_keys_per_buffer Hk) as Hmod.
  assert (Hq : 0 <= num_rows / num_keys_per_buffer)
    by (apply Z.div_pos; lia).
  assert (Hwork : forall m, 0 <= m -> (0 <= IZR m * ln (1 + IZR m))%R).
  { intros m Hm. pose proof (IZR_le 0 m Hm).
    apply Rmult_le_pos; [assumption|]. apply ln_nonneg. lra. }
  pose proof (Hpos _ (Hwork num_keys_per_buffer ltac:(lia))) as Hfull.
  pose proof (Hpos _ (Hwork (num_rows mod num_keys_per_buffer) ltac:(lia)))
    as Hlast.
  pose proof (IZR_le 0 _ Hq) as Hbuffers.
  pose proof (Rmult_le_pos _ _ Hbuffers Hfull). lra.
Qed.

(** X18.  With a cost table whose two costs are non-negative and
    non-decreasing, the estimate is never negative and never below the
    cost of sorting the buffers, with which it starts: the merge passes
    and the final merge only add to it, also where the byte counts wrap. *)
Theorem get_merge_many_buffs_cost_fast_lower_bound
  (num_rows num_keys_per_buffer elem_size : Z) :
  0 <= num_rows < 2 ^ 64 -> 0 < num_keys_per_buffer ->
  exists cost,
    get_merge_many_buffs_cost_fast num_rows num_keys_per_buffer elem_size
      cost_model = Some cost
    /\ (0 <= sort_cost cost_model num_rows num_keys_per_buffer <= cost)%R.
Proof.
  intros Hrows Hk.
  destruct (initial_rows_accounted num_rows num_keys_per_buffer
              (sort_cost cost_model num_rows num_keys_per_buffer)
              ltac:(lia) Hk) as [Hinit Hle].
  assert (Hmax : num_rows < 2 ^ 64) by lia.
  assert (Hdigits : num_rows / num_keys_per_buffer < 2 ^ Z.of_nat 64).
  { change (2 ^ Z.of_nat 64) with (2 ^ 64). lia. }
  destruct (merge_passes_accounts 64 num_rows elem_size
              (mkMerge_state (num_rows / num_keys_per_buffer)
                 (num_rows mod num_keys_per_buffer) num_keys_per_buffer
                 (sort_cost cost_model num_rows num_keys_per_buffer))
              Hmax Hdigits Hinit)
    as (s & Hrun & Hacc & Hdone & Hcost).
  specialize (Hcost io_monotone compare_monotone).
  cbn [ms_total_cost] in Hcost.
  destruct (final_merge_accounts num_rows elem_size s Hmax Hacc Hdone)
    as [Hall Hone].
  unfold get_merge_many_buffs_cost_fast.
  destruct (Z.eqb_spec num_keys_per_buffer 0) as [Hzero|_]; [lia|].
  fold (sort_cost cost_model num_rows num_keys_per_buffer).
  rewrite Hrun. cbn [bind]. rewrite Hall, Hone.
  eexists. split; [reflexivity|].
  pose proof (sort_cost_nonneg num_rows num_keys_per_buffer ltac:(lia) Hk)
    as Hsort.
  pose proof (get_merge_cost_nonneg num_rows (1 + ms_num_buffers s)
                elem_size io_monotone compare_monotone ltac:(lia)
                ltac:(destruct Hacc; lia)) as Hfinal.
  lra.
Qed.

(** X19.  With such a cost table, [get_merge_cost] is never negative,
    and merging more elements, or from more buffers, never costs less,
    as long as the bytes of the elements fit [ha_rows]. *)
Theorem get_merge_cost_grows (e1 e2 nb1 nb2 elem_size : Z) :
  0 <= e1 <= e2 -> 1 <= nb1 <= nb2 -> 0 <= elem_size ->
  e2 * elem_size < 2 ^ 64 ->
  (0 <= get_merge_cost e1 nb1 elem_size cost_model
   <= get_merge_cost e2 nb2 elem_size cost_model)%R.
Proof.
  intros He Hnb Hsize Hfits. split.
  - apply get_merge_cost_nonneg; try assumption; lia.
  - now apply get_merge_cost_monotone.
Qed.
End MergeRows.

(** *** The estimators at MySQL's constants *)

Lemma get_merge_many_buffs_cost_fast_returns_witness :
  exists s,
    @merge_passes mysql_merge_constants 64 100 io_only_table
      (mkMerge_state (100000 / 100) (100000 mod 100) 100
         (sort_cost io_only_table 100000 100))
    = Some s
    /\ ms_last_n_elems s + ms_num_keys_per_buffer s * ms_num_buffers s
       = 100000.
Proof.
  destruct (@get_merge_many_buffs_cost_fast_returns mysql_merge_constants
              io_only_table mysql_merge_constants_ok 100000 100 100
              ltac:(lia) ltac:(lia))
    as (s & Hrun & _ & Hrows & _).
  exists s. split; [exact Hrun | exact Hrows].
Defined.

Lemma get_merge_many_buffs_cost_fast_single_merge_witness :
  @get_merge_many_buffs_cost_fast mysql_merge_constants 1450 100 100
    io_only_table
  = Some (sort_cost io_only_table 1450 100
          + @get_merge_cost mysql_merge_constants 1450 (1 + 1450 / 100) 100
              io_only_table)%R.
Proof.
  apply (@get_merge_many_buffs_cost_fast_single_merge mysql_merge_constants
           io_only_table mysql_merge_constants_ok 1450 100 100).
  - lia.
  - lia.
  - reflexivity.
Defined.

Lemma get_merge_many_buffs_cost_fast_lower_bound_witness :
  exists cost,
    @get_merge_many_buffs_cost_fast mysql_merge_constants 100000 100 100
      io_only_table = Some cost
    /\ (0 <= sort_cost io_only_table 100000 100 <= cost)%R.
Proof.
  apply (@get_merge_many_buffs_cost_fast_lower_bound mysql_merge_constants
           io_only_table mysql_merge_constants_ok
           (proj1 io_only_table_monotone) (proj2 io_only_table_monotone)
           100000 100 100).
  - lia.
  - lia.
Defined.

Lemma get_merge_cost_grows_witness :
  (0 <= @get_merge_cost mysql_merge_constants 700 7 100 io_only_table
   <= @get_merge_cost mysql_merge_constants 900 8 100 io_only_table)%R.
Proof.
  apply (@get_merge_cost_grows mysql_merge_constants io_only_table
           mysql_merge_constants_ok (proj1 io_only_table_monotone)
           (proj2 io_only_table_monotone) 700 900 7 8 100); lia.
Defined.

(** ** The estimators in [double] *)

Section DoubleMergeCost.
Context `{Merge_constants} `{Double_env}.

(** C5, as the code has it.  For at least one buffer, and when the
    product [num_elements * elem_size] fits [ha_rows], [get_merge_cost]
    is the formula evaluated in [double]: twice the I/O cost of
    [num_elements * elem_size / IO_SIZE] blocks plus the cost of
    [num_elements * log2 (num_buffers)] key comparisons, each count
    converted to [double] and each operation that of [double].  This holds
    in every arithmetic, that of binary64 with its rounding included. *)
Theorem get_merge_cost_formula (num_elements num_buffers elem_size : Z)
  (cost_model : Double.Cost_model_table) :
  1 <= num_buffers ->
  0 <= num_elements * elem_size < 2 ^ 64 ->
  Double.get_merge_cost num_elements num_buffers elem_size cost_model
  = Double.merge_cost_formula num_elements num_buffers elem_size cost_model.
Proof.
  intros _ Hfits. unfold Double.get_merge_cost, Double.merge_cost_formula.
  now rewrite wrap64_small by exact Hfits.
Qed.
End DoubleMergeCost.

(** The estimators in exact arithmetic are the estimators in [double]
    with the reals for [double]. *)
Lemma real_get_merge_cost `{Merge_constants}
  (num_elements num_buffers elem_size : Z) (cost_model : Cost_model_table) :
  @Double.get_merge_cost _ real_double_env num_elements num_buffers
    elem_size (real_table cost_model)
  = get_merge_cost num_elements num_buffers elem_size cost_model.
Proof. reflexivity. Qed.

Lemma real_merge_passes `{Merge_constants} (fuel : nat) (elem_size : Z)
  (cost_model : Cost_model_table) (s : Merge_state) :
  option_map
    (fun r : @Double.Merge_state real_double_env =>
       mkMerge_state (Double.ms_num_buffers r) (Double.ms_last_n_elems r)
         (Double.ms_num_keys_per_buffer r) (Double.ms_total_cost r))
    (@Double.merge_passes _ real_double_env fuel elem_size
       (real_table cost_model)
       (@Double.mkMerge_state real_double_env (ms_num_buffers s)
          (ms_last_n_elems s) (ms_num_keys_per_buffer s) (ms_total_cost s)))
  = merge_passes fuel elem_size cost_model s.
Proof.
  revert s. induction fuel as [|fuel IH]; intros s;
    cbn [Double.merge_passes merge_passes Double.ms_num_buffers];
    destruct (ms_num_buffers s >=? MERGEBUFF2); try reflexivity.
  - now destruct s.
  - rewrite <- IH. reflexivity.
  - now destruct s.
Qed.

Lemma real_get_merge_many_buffs_cost_fast `{Merge_constants}
  (num_rows num_keys_per_buffer elem_size : Z)
  (cost_model : Cost_model_table) :
  @Double.get_merge_many_buffs_cost_fast _ real_double_env num_rows
    num_keys_per_buffer elem_size (real_table cost_model)
  = get_merge_many_buffs_cost_fast num_rows num_keys_per_buffer elem_size
      cost_model.
Proof.
  unfold Double.get_merge_many_buffs_cost_fast,
    get_merge_many_buffs_cost_fast.
  destruct (num_keys_per_buffer =? 0); [reflexivity|].
  rewrite <- real_merge_passes.
  cbn [ms_num_buffers ms_last_n_elems ms_num_keys_per_buffer ms_total_cost].
  match goal with
  | |- context [Double.merge_passes 64 elem_size _ ?s0] =>
      change s0 with
        (@Double.mkMerge_state real_double_env
           (num_rows / num_keys_per_buffer)
           (num_rows mod num_keys_per_buffer) num_keys_per_buffer
           (@Double.sort_cost real_double_env (real_table cost_model)
              (num_rows / num_keys_per_buffer)
              (num_rows mod num_keys_per_buffer) num_keys_per_buffer))
  end.
  destruct (Double.merge_passes 64 elem_size (real_table cost_model) _);
    reflexivity.
Qed.

(** *** [get_merge_cost] in binary64 *)

(** The conversion rounds: 2 ^ 63 - 1 elements of 2 bytes are 2 ^ 64 - 2
    bytes, which become 2 ^ 64 in [double], and the cost is that of 2 ^ 52
    blocks. *)
Lemma get_merge_cost_rounds :
  @Double.get_merge_cost mysql_merge_constants example_binary64
    (2 ^ 63 - 1) 1 2 binary64_io_only_table
  = 9007199254740992%float.
Proof. vm_compute. reflexivity. Qed.

(** The estimator at the largest byte count below the wrap-around, where
    the formula rounds as the code does. *)
Lemma get_merge_cost_formula_witness :
  @Double.get_merge_cost mysql_merge_constants example_binary64
    (2 ^ 63 - 1) 1 2 binary64_io_only_table
  = @Double.merge_cost_formula mysql_merge_constants example_binary64
      (2 ^ 63 - 1) 1 2 binary64_io_only_table.
Proof.
  apply (@get_merge_cost_formula mysql_merge_constants example_binary64
           (2 ^ 63 - 1) 1 2 binary64_io_only_table).
  - lia.
  - lia.
Defined.

(** C5 as stated fails: for 2 ^ 63 elements of 2 bytes the product wraps
    to 0 in [ha_rows], and the I/O cost is that of no block at all, where
    the formula has 2 ^ 52 blocks. *)
Lemma get_merge_cost_wraps :
  @Double.get_merge_cost mysql_merge_constants example_binary64
    (2 ^ 63) 1 2 binary64_io_only_table
  = 0%float
  /\ @Double.merge_cost_formula mysql_merge_constants example_binary64
       (2 ^ 63) 1 2 binary64_io_only_table
     = 9007199254740992%float
  /\ @Double.get_merge_cost mysql_merge_constants example_binary64
       (2 ^ 63) 1 2 binary64_io_only_table
     <> @Double.merge_cost_formula mysql_merge_constants example_binary64
          (2 ^ 63) 1 2 binary64_io_only_table.
Proof.
  assert (Hcode :
    @Double.get_merge_cost mysql_merge_constants example_binary64
      (2 ^ 63) 1 2 binary64_io_only_table = 0%float).
  { vm_compute. reflexivity. }
  assert (Hformula :
    @Double.merge_cost_formula mysql_merge_constants example_binary64
      (2 ^ 63) 1 2 binary64_io_only_table = 9007199254740992%float).
  { vm_compute. reflexivity. }
  split; [exact Hcode|]. split; [exact Hformula|].
  rewrite Hcode, Hformula. intros Heq.
  apply (f_equal (fun x => PrimFloat.ltb x 1)) in Heq.
  vm_compute in Heq. discriminate.
Qed.

(** ** The estimate and the number of rows *)

Section DoubleMonotone.
Context `{Merge_constants} `{Double_env}.
Variable cost_model : Double.Cost_model_table.
Hypothesis constants_ok : merge_constants_in_range.
Hypothesis laws : double_laws.
Hypothesis io_monotone :
  double_cost_monotone (Double.io_block_read_cost cost_model).
Hypothesis compare_monotone :
  double_cost_monotone (Double.key_compare_cost cost_model).

Lemma double_get_merge_cost_nonneg (e nb elem_size : Z) :
  0 <= e < 2 ^ 64 -> 1 <= nb < 2 ^ 64 ->
  dnonneg (Double.get_merge_cost e nb elem_size cost_model).
Proof.
  intros He Hnb.
  destruct constants_ok as [(_ & _ & _ & Hio) Hio_max].
  destruct io_monotone as [Hio_fin _].
  destruct compare_monotone as [Hcmp_fin _].
  unfold Double.get_merge_cost.
  apply (dadd_nonneg laws).
  - apply (scale_nonneg laws); [lia|].
    apply Hio_fin, (io_ops_finite laws); [apply wrap64_range | lia].
  - apply (dfinite_nonneg laws), Hcmp_fin.
    now apply (merge_work_finite laws).
Qed.

(** [get_merge_cost] grows with the elements and with the buffers, as
    long as the bytes of the elements fit [ha_rows]. *)
Lemma double_get_merge_cost_monotone (e1 e2 nb1 nb2 elem_size : Z) :
  0 <= e1 <= e2 -> e2 < 2 ^ 64 -> 1 <= nb1 <= nb2 -> nb2 < 2 ^ 64 ->
  0 <= elem_size -> e2 * elem_size < 2 ^ 64 ->
  dle (Double.get_merge_cost e1 nb1 elem_size cost_model)
    (Double.get_merge_cost e2 nb2 elem_size cost_model).
Proof.
  intros He Hemax Hnb Hnbmax Hsize Hfits.
  destruct constants_ok as [(_ & _ & _ & Hio) Hio_max].
  destruct io_monotone as [Hio_fin Hio_mono].
  destruct compare_monotone as [Hcmp_fin Hcmp_mono].
  assert (Hbytes : 0 <= e1 * elem_size <= e2 * elem_size).
  { split; [apply Z.mul_nonneg_nonneg; lia|].
    apply Z.mul_le_mono_nonneg_r; lia. }
  unfold Double.get_merge_cost.
  rewrite !wrap64_small by lia.
  apply (dadd_monotone laws).
  - apply (scale_nonneg laws); [lia|].
    apply Hio_fin, (io_ops_finite laws); lia.
  - apply (dfinite_nonneg laws), Hcmp_fin, (merge_work_finite laws); lia.
  - apply (scale_monotone laws); try lia.
    + apply Hio_fin, (io_ops_finite laws); lia.
    + apply Hio_fin, (io_ops_finite laws); lia.
    + apply Hio_mono.
      * apply (io_ops_finite laws); lia.
      * apply (io_ops_finite laws); lia.
      * apply (io_ops_monotone laws); lia.
  - apply Hcmp_mono.
    + apply (merge_work_finite laws); lia.
    + apply (merge_work_finite laws); lia.
    + apply (merge_work_monotone laws); lia.
Qed.

Lemma double_sort_cost_monotone (nb1 nb2 last1 last2 k : Z) :
  0 <= nb1 <= nb2 -> nb2 < 2 ^ 64 -> 0 <= last1 <= last2 ->
  last2 < 2 ^ 64 -> 0 <= k < 2 ^ 64 ->
  dnonneg (Double.sort_cost cost_model nb1 last1 k)
  /\ dle (Double.sort_cost cost_model nb1 last1 k)
       (Double.sort_cost cost_model nb2 last2 k).
Proof.
  intros Hnb Hnbmax Hlast Hlastmax Hk.
  destruct compare_monotone as [Hcmp_fin Hcmp_mono].
  unfold Double.sort_cost.
  assert (Hfull :
    dfinite
      (Double.key_compare_cost cost_model
         (dmul (to_double k) (std_log (dadd (to_double 1) (to_double k)))))).
  { apply Hcmp_fin, (sort_work_finite laws). exact Hk. }
  assert (Hscaled : forall nb, 0 <= nb < 2 ^ 64 ->
    dnonneg
      (dmul (to_double nb)
         (Double.key_compare_cost cost_model
            (dmul (to_double k)
               (std_log (dadd (to_double 1) (to_double k))))))).
  { intros nb Hrange. now apply (scale_nonneg laws). }
  assert (Hpart : forall last, 0 <= last < 2 ^ 64 ->
    dfinite
      (Double.key_compare_cost cost_model
         (dmul (to_double last)
            (std_log (dadd (to_double 1) (to_double last)))))).
  { intros last Hrange. now apply Hcmp_fin, (sort_work_finite laws). }
  split.
  - apply (dadd_nonneg laws); [apply Hscaled; lia|].
    apply (dfinite_nonneg laws), Hpart. lia.
  - apply (dadd_monotone laws).
    + apply Hscaled. lia.
    + apply (dfinite_nonneg laws), Hpart. lia.
    + apply (scale_monotone laws); try assumption; try lia.
      apply (dle_refl laws), (dfinite_nonneg laws), Hfull.
    + apply Hcmp_mono.
      * apply (sort_work_finite laws). lia.
      * apply (sort_work_finite laws). lia.
      * apply (sort_work_monotone laws); lia.
Qed.

Lemma double_merge_passes_done (fuel : nat) (elem_size : Z)
  (s : Double.Merge_state) :
  Double.ms_num_buffers s < MERGEBUFF2 ->
  Double.merge_passes fuel elem_size cost_model s = Some s.
Proof.
  intros Hdone.
  destruct fuel; cbn [Double.merge_passes];
    (destruct (Z.geb_spec (Double.ms_num_buffers s) MERGEBUFF2);
     [lia|reflexivity]).
Qed.

Lemma double_merge_passes_step (fuel : nat) (elem_size : Z)
  (s : Double.Merge_state) :
  MERGEBUFF2 <= Double.ms_num_buffers s ->
  Double.merge_passes (S fuel) elem_size cost_model s
  = Double.merge_passes fuel elem_size cost_model
      (Double.merge_pass elem_size cost_model s).
Proof.
  intros Hmore. cbn [Double.merge_passes].
  destruct (Z.geb_spec (Double.ms_num_buffers s) MERGEBUFF2);
    [reflexivity|lia].
Qed.

(** The counts of a pass from at least [MERGEBUFF2] buffers do not wrap:
    the pass makes at least one merge call, leaves at most half of the
    buffers, and the buffers that it leaves to its last merge are those
    that the merge calls have not taken. *)
Lemma pass_counts (nb : Z) :
  MERGEBUFF2 <= nb < 2 ^ 64 ->
  pass_merge_calls nb = 1 + (nb - MERGEBUFF * 3 / 2) / MERGEBUFF
  /\ pass_remaining_buffs nb = nb - pass_merge_calls nb * MERGEBUFF
  /\ 1 <= pass_merge_calls nb
  /\ 2 * pass_merge_calls nb <= nb
  /\ 0 <= pass_remaining_buffs nb <= nb.
Proof.
  intros Hnb.
  destruct constants_ok as [(Hfan & Hlimit & Hlimit2 & Hio) Hio_max].
  unfold pass_remaining_buffs, pass_merge_calls.
  set (c := MERGEBUFF * 3 / 2) in *.
  assert (Hc : 3 <= c).
  { subst c. apply Z.div_le_lower_bound; lia. }
  assert (HcM : MERGEBUFF <= c).
  { subst c. apply Z.div_le_lower_bound; lia. }
  rewrite (wrap64_small (nb - c)) by lia.
  set (q := (nb - c) / MERGEBUFF).
  assert (Hq : 0 <= q /\ MERGEBUFF * q <= nb - c /\ 2 * q <= nb - c).
  { subst q.
    assert (MERGEBUFF * ((nb - c) / MERGEBUFF) <= nb - c)
      by (apply Z.mul_div_le; lia).
    assert (0 <= (nb - c) / MERGEBUFF) by (apply Z.div_pos; lia).
    assert (2 * ((nb - c) / MERGEBUFF)
            <= MERGEBUFF * ((nb - c) / MERGEBUFF))
      by (apply Z.mul_le_mono_nonneg_r; lia).
    lia. }
  rewrite (wrap64_small (1 + q)) by lia.
  assert (Hmul : (1 + q) * MERGEBUFF = MERGEBUFF + MERGEBUFF * q) by ring.
  rewrite (wrap64_small ((1 + q) * MERGEBUFF)) by lia.
  rewrite (wrap64_small (nb - (1 + q) * MERGEBUFF)) by lia.
  lia.
Qed.

Lemma pass_merge_calls_monotone (nb1 nb2 : Z) :
  MERGEBUFF2 <= nb1 <= nb2 -> nb2 < 2 ^ 64 ->
  pass_merge_calls nb1 <= pass_merge_calls nb2.
Proof.
  intros Hnb Hmax.
  destruct (pass_counts nb1 ltac:(lia)) as (-> & _).
  destruct (pass_counts nb2 ltac:(lia)) as (-> & _).
  destruct constants_ok as [(Hfan & _) _].
  assert ((nb1 - MERGEBUFF * 3 / 2) / MERGEBUFF
          <= (nb2 - MERGEBUFF * 3 / 2) / MERGEBUFF)
    by (apply Z.div_le_mono; lia).
  lia.
Qed.

(** The pass of the loop, with its counts by their names. *)
Lemma merge_pass_counts (elem_size : Z) (s : Double.Merge_state) :
  Double.merge_pass elem_size cost_model s
  = let num_buffers := Double.ms_num_buffers s in
    let k := Double.ms_num_keys_per_buffer s in
    let last_n_elems :=
      wrap64 (Double.ms_last_n_elems s
              + wrap64 (pass_remaining_buffs num_buffers * k)) in
    Double.mkMerge_state (pass_merge_calls num_buffers) last_n_elems
      (wrap64 (k * MERGEBUFF))
      (dadd
         (dadd (Double.ms_total_cost s)
            (dmul (to_double (pass_merge_calls num_buffers))
               (Double.get_merge_cost (wrap64 (k * MERGEBUFF)) MERGEBUFF
                  elem_size cost_model)))
         (Double.get_merge_cost last_n_elems
            (wrap64 (1 + pass_remaining_buffs num_buffers)) elem_size
            cost_model)).
Proof. reflexivity. Qed.

Lemma merge_schedule_done (fuel : nat) (nb : Z) :
  nb < MERGEBUFF2 -> merge_schedule fuel nb = ([], nb).
Proof.
  intros Hdone.
  destruct fuel; cbn [merge_schedule];
    (destruct (Z.geb_spec nb MERGEBUFF2); [lia|reflexivity]).
Qed.

Lemma merge_schedule_step (fuel : nat) (nb : Z) :
  MERGEBUFF2 <= nb ->
  merge_schedule (S fuel) nb
  = (pass_remaining_buffs nb
       :: fst (merge_schedule fuel (pass_merge_calls nb)),
     snd (merge_schedule fuel (pass_merge_calls nb))).
Proof.
  intros Hmore. cbn [merge_schedule].
  destruct (Z.geb_spec nb MERGEBUFF2); [reflexivity|lia].
Qed.

(** One pass keeps two ordered runs ordered when it leaves at least as
    many buffers to the last merge of the second run; that run is left
    with at most half of its buffers. *)
Lemma merge_pass_ordered (max_rows elem_size : Z)
  (s1 s2 : Double.Merge_state) :
  0 <= elem_size -> max_rows < 2 ^ 64 -> max_rows * elem_size < 2 ^ 64 ->
  MERGEBUFF2 <= Double.ms_num_buffers s1 ->
  pass_remaining_buffs (Double.ms_num_buffers s1)
  <= pass_remaining_buffs (Double.ms_num_buffers s2) ->
  pass_ordered max_rows s1 s2 ->
  pass_ordered max_rows (Double.merge_pass elem_size cost_model s1)
    (Double.merge_pass elem_size cost_model s2)
  /\ 2 * Double.ms_num_buffers (Double.merge_pass elem_size cost_model s2)
     <= Double.ms_num_buffers s2.
Proof.
  intros Hsize Hmax Hbytes Hmore Hleft
    (Hkeys & Hnb & Hlast & Hk & Hrows & Hpos & Hpos2 & Htotal).
  destruct constants_ok as [(Hfan & Hlimit & Hlimit2 & Hio) Hio_max].
  rewrite !merge_pass_counts.
  destruct s1 as [nb1 last1 k1 total1], s2 as [nb2 last2 k total2].
  cbn [Double.ms_num_buffers Double.ms_last_n_elems
       Double.ms_num_keys_per_buffer Double.ms_total_cost] in *.
  subst k1. cbv zeta.
  assert (Hknb2 : 0 <= k * nb2) by (apply Z.mul_nonneg_nonneg; lia).
  assert (Hnbk : 1 * nb2 <= k * nb2)
    by (apply Z.mul_le_mono_nonneg_r; lia).
  assert (HcM : MERGEBUFF <= MERGEBUFF * 3 / 2)
    by (apply Z.div_le_lower_bound; lia).
  destruct (pass_counts nb1 ltac:(lia))
    as (_ & Hrem1 & Hcalls1 & _ & Hrange1).
  destruct (pass_counts nb2 ltac:(lia))
    as (_ & Hrem2 & Hcalls2 & Hhalf2 & Hrange2).
  pose proof (pass_merge_calls_monotone nb1 nb2 ltac:(lia) ltac:(lia))
    as Hcalls.
  set (calls1 := pass_merge_calls nb1) in *.
  set (calls2 := pass_merge_calls nb2) in *.
  set (rem1 := pass_remaining_buffs nb1) in *.
  set (rem2 := pass_remaining_buffs nb2) in *.
  assert (HkM : 0 <= k * MERGEBUFF <= k * nb2).
  { split; [apply Z.mul_nonneg_nonneg; lia|].
    apply Z.mul_le_mono_nonneg_l; lia. }
  assert (HkM1 : 1 * MERGEBUFF <= k * MERGEBUFF)
    by (apply Z.mul_le_mono_nonneg_r; lia).
  assert (Hremk2 : 0 <= rem2 * k <= k * nb2).
  { split; [apply Z.mul_nonneg_nonneg; lia|].
    rewrite (Z.mul_comm rem2 k). apply Z.mul_le_mono_nonneg_l; lia. }
  assert (Hremk1 : 0 <= rem1 * k <= rem2 * k).
  { split; [apply Z.mul_nonneg_nonneg; lia|].
    apply Z.mul_le_mono_nonneg_r; lia. }
  assert (Hfold : rem2 * k + k * MERGEBUFF * calls2 = k * nb2)
    by (rewrite Hrem2; ring).
  rewrite (wrap64_small (k * MERGEBUFF)) by lia.
  rewrite (wrap64_small (rem1 * k)), (wrap64_small (rem2 * k)) by lia.
  rewrite (wrap64_small (last1 + rem1 * k)),
    (wrap64_small (last2 + rem2 * k)) by lia.
  rewrite (wrap64_small (1 + rem1)), (wrap64_small (1 + rem2)) by lia.
  split; [|cbn [Double.ms_num_buffers]; lia].
  unfold pass_ordered.
  cbn [Double.ms_num_buffers Double.ms_last_n_elems
       Double.ms_num_keys_per_buffer Double.ms_total_cost].
  assert (Hbytes2 : (last2 + rem2 * k) * elem_size < 2 ^ 64).
  { apply Z.le_lt_trans with (max_rows * elem_size); [|exact Hbytes].
    apply Z.mul_le_mono_nonneg_r; lia. }
  assert (Hcall :
    dnonneg (Double.get_merge_cost (k * MERGEBUFF) MERGEBUFF elem_size
               cost_model)).
  { apply double_get_merge_cost_nonneg; lia. }
  assert (Hscaled : forall calls, 1 <= calls < 2 ^ 64 ->
    dnonneg
      (dmul (to_double calls)
         (Double.get_merge_cost (k * MERGEBUFF) MERGEBUFF elem_size
            cost_model))).
  { intros calls Hrange. now apply (scale_positive_nonneg laws). }
  assert (Hrest1 :
    dnonneg (Double.get_merge_cost (last1 + rem1 * k) (1 + rem1) elem_size
               cost_model)).
  { apply double_get_merge_cost_nonneg; lia. }
  assert (Hrest2 :
    dnonneg (Double.get_merge_cost (last2 + rem2 * k) (1 + rem2) elem_size
               cost_model)).
  { apply double_get_merge_cost_nonneg; lia. }
  repeat split; try lia.
  - apply (dadd_nonneg laws); [|exact Hrest1].
    apply (dadd_nonneg laws); [exact Hpos|]. apply Hscaled. lia.
  - apply (dadd_nonneg laws); [|exact Hrest2].
    apply (dadd_nonneg laws); [exact Hpos2|]. apply Hscaled. lia.
  - apply (dadd_monotone laws); try assumption.
    + apply (dadd_nonneg laws); [exact Hpos|]. apply Hscaled. lia.
    + apply (dadd_monotone laws); try assumption.
      * apply Hscaled. lia.
      * apply (scale_positive_monotone laws); [lia|lia|exact Hcall].
    + apply double_get_merge_cost_monotone; lia.
Qed.

(** A run ends within as many passes as its number of buffers has binary
    digits.  The passes keep its rows and never lower its cost, and its
    final merge finds the buffers that [merge_schedule] tells. *)
Lemma merge_passes_grow (fuel : nat) (max_rows elem_size : Z)
  (s : Double.Merge_state) :
  0 <= elem_size -> max_rows < 2 ^ 64 -> max_rows * elem_size < 2 ^ 64 ->
  0 <= Double.ms_num_buffers s < 2 ^ Z.of_nat fuel ->
  0 <= Double.ms_last_n_elems s ->
  1 <= Double.ms_num_keys_per_buffer s ->
  Double.ms_last_n_elems s
  + Double.ms_num_keys_per_buffer s * Double.ms_num_buffers s <= max_rows ->
  dnonneg (Double.ms_total_cost s) ->
  exists r,
    Double.merge_passes fuel elem_size cost_model s = Some r
    /\ Double.ms_num_buffers r
       = snd (merge_schedule fuel (Double.ms_num_buffers s))
    /\ 0 <= Double.ms_num_buffers r < MERGEBUFF2
    /\ 0 <= Double.ms_last_n_elems r
    /\ 1 <= Double.ms_num_keys_per_buffer r
    /\ Double.ms_last_n_elems r
       + Double.ms_num_keys_per_buffer r * Double.ms_num_buffers r
       = Double.ms_last_n_elems s
         + Double.ms_num_keys_per_buffer s * Double.ms_num_buffers s
    /\ dle (Double.ms_total_cost s) (Double.ms_total_cost r).
Proof.
  intros Hsize Hmax Hbytes. revert s.
  destruct constants_ok as [(Hfan & Hlimit & Hlimit2 & Hio) Hio_max].
  assert (HcM : MERGEBUFF <= MERGEBUFF * 3 / 2)
    by (apply Z.div_le_lower_bound; lia).
  assert (Hdone_case : forall fuel' s,
    0 <= Double.ms_num_buffers s < MERGEBUFF2 ->
    0 <= Double.ms_last_n_elems s ->
    1 <= Double.ms_num_keys_per_buffer s ->
    dnonneg (Double.ms_total_cost s) ->
    exists r,
      Double.merge_passes fuel' elem_size cost_model s = Some r
      /\ Double.ms_num_buffers r
         = snd (merge_schedule fuel' (Double.ms_num_buffers s))
      /\ 0 <= Double.ms_num_buffers r < MERGEBUFF2
      /\ 0 <= Double.ms_last_n_elems r
      /\ 1 <= Double.ms_num_keys_per_buffer r
      /\ Double.ms_last_n_elems r
         + Double.ms_num_keys_per_buffer r * Double.ms_num_buffers r
         = Double.ms_last_n_elems s
           + Double.ms_num_keys_per_buffer s * Double.ms_num_buffers s
      /\ dle (Double.ms_total_cost s) (Double.ms_total_cost r)).
  { intros fuel' s Hnb Hlast Hk Hpos. exists s.
    rewrite double_merge_passes_done, merge_schedule_done by lia.
    repeat split; try lia. now apply (dle_refl laws). }
  induction fuel as [|fuel IH]; intros s Hnb Hlast Hk Hrows Hpos.
  - apply Hdone_case; try assumption. cbn in Hnb. lia.
  - destruct (Z.lt_ge_cases (Double.ms_num_buffers s) MERGEBUFF2)
      as [Hdone|Hmore].
    + apply Hdone_case; try assumption. lia.
    + rewrite double_merge_passes_step, merge_schedule_step by exact Hmore.
      cbn [snd].
      assert (Hknb : 0 <= Double.ms_num_keys_per_buffer s
                          * Double.ms_num_buffers s)
        by (apply Z.mul_nonneg_nonneg; lia).
      assert (Hnbk : 1 * Double.ms_num_buffers s
                     <= Double.ms_num_keys_per_buffer s
                        * Double.ms_num_buffers s)
        by (apply Z.mul_le_mono_nonneg_r; lia).
      destruct (pass_counts (Double.ms_num_buffers s) ltac:(lia))
        as (_ & Hrem & Hcalls & Hhalf & Hrange).
      pose proof (merge_pass_counts elem_size s) as Hpass.
      cbv zeta in Hpass.
      destruct s as [nb last k total].
      cbn [Double.ms_num_buffers Double.ms_last_n_elems
           Double.ms_num_keys_per_buffer Double.ms_total_cost] in *.
      set (calls := pass_merge_calls nb) in *.
      set (rem := pass_remaining_buffs nb) in *.
      assert (HkM : 0 <= k * MERGEBUFF <= k * nb).
      { split; [apply Z.mul_nonneg_nonneg; lia|].
        apply Z.mul_le_mono_nonneg_l; lia. }
      assert (HkM1 : 1 * MERGEBUFF <= k * MERGEBUFF)
        by (apply Z.mul_le_mono_nonneg_r; lia).
      assert (Hremk : 0 <= rem * k <= k * nb).
      { split; [apply Z.mul_nonneg_nonneg; lia|].
        rewrite (Z.mul_comm rem k). apply Z.mul_le_mono_nonneg_l; lia. }
      assert (Hfold : rem * k + k * MERGEBUFF * calls = k * nb)
        by (rewrite Hrem; ring).
      rewrite (wrap64_small (k * MERGEBUFF)) in Hpass by lia.
      rewrite (wrap64_small (rem * k)) in Hpass by lia.
      rewrite (wrap64_small (last + rem * k)) in Hpass by lia.
      rewrite (wrap64_small (1 + rem)) in Hpass by lia.
      assert (Hcall :
        dnonneg
          (dmul (to_double calls)
             (Double.get_merge_cost (k * MERGEBUFF) MERGEBUFF elem_size
                cost_model))).
      { apply (scale_positive_nonneg laws); [lia|].
        apply double_get_merge_cost_nonneg; lia. }
      assert (Hrest :
        dnonneg (Double.get_merge_cost (last + rem * k) (1 + rem) elem_size
                   cost_model)).
      { apply double_get_merge_cost_nonneg; lia. }
      assert (Hsum :
        dnonneg
          (dadd total
             (dmul (to_double calls)
                (Double.get_merge_cost (k * MERGEBUFF) MERGEBUFF elem_size
                   cost_model))))
        by now apply (dadd_nonneg laws).
      destruct (IH (Double.merge_pass elem_size cost_model
                      (Double.mkMerge_state nb last k total)))
        as (r & Hrun & Hfinal & Hnbr & Hlastr & Hkr & Hrowsr & Hcost).
      * rewrite Hpass. cbn [Double.ms_num_buffers].
        rewrite Nat2Z.inj_succ, Z.pow_succ_r in Hnb by lia. lia.
      * rewrite Hpass. cbn [Double.ms_last_n_elems]. lia.
      * rewrite Hpass. cbn [Double.ms_num_keys_per_buffer]. lia.
      * rewrite Hpass.
        cbn [Double.ms_num_buffers Double.ms_last_n_elems
             Double.ms_num_keys_per_buffer]. lia.
      * rewrite Hpass. cbn [Double.ms_total_cost].
        now apply (dadd_nonneg laws).
      * exists r. rewrite Hpass in Hfinal, Hrowsr, Hcost.
        cbn [Double.ms_num_buffers Double.ms_last_n_elems
             Double.ms_num_keys_per_buffer Double.ms_total_cost]
          in Hfinal, Hrowsr, Hcost.
        repeat split; try assumption; try lia.
        apply (dle_trans laws) with
          (dadd
             (dadd total
                (dmul (to_double calls)
                   (Double.get_merge_cost (k * MERGEBUFF) MERGEBUFF
                      elem_size cost_model)))
             (Double.get_merge_cost (last + rem * k) (1 + rem) elem_size
                cost_model)); [|exact Hcost].
        apply (dle_trans laws) with
          (dadd total
             (dmul (to_double calls)
                (Double.get_merge_cost (k * MERGEBUFF) MERGEBUFF elem_size
                   cost_model))).
        -- now apply (dadd_grows laws).
        -- now apply (dadd_grows laws).
Qed.

(** The loop on two ordered runs, the merges of the first covered by
    those of the second: both runs end, ordered. *)
Lemma merge_passes_covered (fuel : nat) (max_rows elem_size : Z)
  (s1 s2 : Double.Merge_state) :
  0 <= elem_size -> max_rows < 2 ^ 64 -> max_rows * elem_size < 2 ^ 64 ->
  Double.ms_num_buffers s2 < 2 ^ Z.of_nat fuel ->
  pass_ordered max_rows s1 s2 ->
  schedule_covered (merge_schedule fuel (Double.ms_num_buffers s1))
    (merge_schedule fuel (Double.ms_num_buffers s2)) ->
  exists r1 r2,
    Double.merge_passes fuel elem_size cost_model s1 = Some r1
    /\ Double.merge_passes fuel elem_size cost_model s2 = Some r2
    /\ run_ordered max_rows r1 r2.
Proof.
  intros Hsize Hmax Hbytes. revert s1 s2.
  assert (Hdone_case : forall fuel' s1 s2,
    Double.ms_num_buffers s1 < MERGEBUFF2 ->
    Double.ms_num_buffers s2 < 2 ^ Z.of_nat fuel' ->
    pass_ordered max_rows s1 s2 ->
    schedule_covered (merge_schedule fuel' (Double.ms_num_buffers s1))
      (merge_schedule fuel' (Double.ms_num_buffers s2)) ->
    exists r1 r2,
      Double.merge_passes fuel' elem_size cost_model s1 = Some r1
      /\ Double.merge_passes fuel' elem_size cost_model s2 = Some r2
      /\ run_ordered max_rows r1 r2).
  { intros fuel' s1 s2 Hdone Hdigits
      (Hkeys & Hnb & Hlast & Hk & Hrows & Hpos & Hpos2 & Htotal) [_ Hfinal].
    rewrite merge_schedule_done in Hfinal by exact Hdone.
    cbn [snd] in Hfinal.
    destruct (merge_passes_grow fuel' max_rows elem_size s2)
      as (r2 & Hrun & Hnbr & Hrange & Hlastr & Hkr & Hrowsr & Hcost);
      try assumption; try lia.
    exists s1, r2. rewrite double_merge_passes_done by exact Hdone.
    split; [reflexivity|]. split; [exact Hrun|].
    unfold run_ordered. rewrite Hkeys, Hrowsr, Hnbr.
    assert (Double.ms_num_keys_per_buffer s2 * Double.ms_num_buffers s1
            <= Double.ms_num_keys_per_buffer s2 * Double.ms_num_buffers s2)
      by (apply Z.mul_le_mono_nonneg_l; lia).
    repeat split; try lia; try assumption.
    now apply (dle_trans laws) with (Double.ms_total_cost s2). }
  induction fuel as [|fuel IH]; intros s1 s2 Hdigits Hrel Hcover.
  - apply Hdone_case; try assumption.
    destruct Hrel as (_ & Hnb & _). cbn in Hdigits.
    destruct constants_ok as [(Hfan & Hlimit & _) _].
    assert (3 <= MERGEBUFF * 3 / 2) by (apply Z.div_le_lower_bound; lia).
    lia.
  - destruct (Z.lt_ge_cases (Double.ms_num_buffers s1) MERGEBUFF2)
      as [Hdone|Hmore].
    + now apply Hdone_case.
    + assert (Hmore2 : MERGEBUFF2 <= Double.ms_num_buffers s2)
        by (destruct Hrel as (_ & Hnb & _); lia).
      rewrite !merge_schedule_step in Hcover by assumption.
      destruct Hcover as [[Hleft Hpasses] Hfinal]. cbn [fst snd] in *.
      destruct (merge_pass_ordered max_rows elem_size s1 s2 Hsize Hmax
                  Hbytes Hmore Hleft Hrel) as [Hrel' Hhalf].
      rewrite !double_merge_passes_step by assumption.
      apply IH.
      * rewrite Nat2Z.inj_succ, Z.pow_succ_r in Hdigits by lia. lia.
      * exact Hrel'.
      * rewrite !merge_pass_counts. cbn [Double.ms_num_buffers].
        split; assumption.
Qed.

(** The estimate from two ordered runs that have left the loop. *)
Lemma final_merge_ordered (max_rows elem_size : Z)
  (r1 r2 : Double.Merge_state) :
  0 <= elem_size -> max_rows < 2 ^ 64 -> max_rows * elem_size < 2 ^ 64 ->
  run_ordered max_rows r1 r2 ->
  dle
    (dadd (Double.ms_total_cost r1)
       (Double.get_merge_cost
          (wrap64 (Double.ms_last_n_elems r1
                   + wrap64 (Double.ms_num_keys_per_buffer r1
                             * Double.ms_num_buffers r1)))
          (wrap64 (1 + Double.ms_num_buffers r1)) elem_size cost_model))
    (dadd (Double.ms_total_cost r2)
       (Double.get_merge_cost
          (wrap64 (Double.ms_last_n_elems r2
                   + wrap64 (Double.ms_num_keys_per_buffer r2
                             * Double.ms_num_buffers r2)))
          (wrap64 (1 + Double.ms_num_buffers r2)) elem_size cost_model)).
Proof.
  intros Hsize Hmax Hbytes
    (Hnb & Hdone & Hlast1 & Hk1 & Hlast2 & Hk2 & Hrows & Hrows2 & Hpos
     & Htotal).
  destruct constants_ok as [(_ & _ & Hlimit2 & _) _].
  assert (Hprod1 : 0 <= Double.ms_num_keys_per_buffer r1
                        * Double.ms_num_buffers r1)
    by (apply Z.mul_nonneg_nonneg; lia).
  assert (Hprod2 : 0 <= Double.ms_num_keys_per_buffer r2
                        * Double.ms_num_buffers r2)
    by (apply Z.mul_nonneg_nonneg; lia).
  rewrite (wrap64_small (Double.ms_num_keys_per_buffer r1 * _)),
    (wrap64_small (Double.ms_num_keys_per_buffer r2 * _)) by lia.
  rewrite (wrap64_small (Double.ms_last_n_elems r1 + _)),
    (wrap64_small (Double.ms_last_n_elems r2 + _)) by lia.
  rewrite (wrap64_small (1 + Double.ms_num_buffers r1)),
    (wrap64_small (1 + Double.ms_num_buffers r2)) by lia.
  apply (dadd_monotone laws); try assumption.
  - apply double_get_merge_cost_nonneg; lia.
  - apply double_get_merge_cost_monotone; try lia.
    apply Z.le_lt_trans with (max_rows * elem_size); [|exact Hbytes].
    apply Z.mul_le_mono_nonneg_r; lia.
Qed.

End DoubleMonotone.

(** *** Pairs of row counts whose merges are covered *)

Lemma passes_covered_refl (passes : list Z) : passes_covered passes passes.
Proof. induction passes as [|r rest IH]; cbn; [exact I|]. split; [lia|exact IH]. Qed.

(** Two counts that both end in a single merge. *)
Lemma schedule_covered_single_merge `{Merge_constants} (fuel : nat)
  (nb1 nb2 : Z) :
  nb1 <= nb2 -> nb2 < MERGEBUFF2 ->
  schedule_covered (merge_schedule fuel nb1) (merge_schedule fuel nb2).
Proof.
  intros Hnb Hdone. rewrite !merge_schedule_done by lia.
  split; [exact I|exact Hnb].
Qed.

(** Two counts that enter the loop and make the same number of merge
    calls in its first pass; counts that fill the same number of buffers
    are among them. *)
Lemma schedule_covered_same_calls `{Merge_constants} (fuel : nat)
  (nb1 nb2 : Z) :
  merge_constants_in_range ->
  MERGEBUFF2 <= nb1 <= nb2 -> nb2 < 2 ^ 64 ->
  pass_merge_calls nb1 = pass_merge_calls nb2 ->
  schedule_covered (merge_schedule (S fuel) nb1)
    (merge_schedule (S fuel) nb2).
Proof.
  intros Hconstants Hnb Hmax Hcalls.
  rewrite !merge_schedule_step by lia.
  destruct (pass_counts Hconstants nb1 ltac:(lia)) as (_ & Hrem1 & _).
  destruct (pass_counts Hconstants nb2 ltac:(lia)) as (_ & Hrem2 & _).
  rewrite Hcalls in *. split; cbn [fst snd passes_covered]; [|lia].
  split; [lia|apply passes_covered_refl].
Qed.

(** *** Exact arithmetic satisfies the laws *)

Lemma real_double_laws : @double_laws real_double_env.
Proof.
  constructor;
    cbn [double to_double dadd dmul ddiv std_log std_log2 dle dnonneg
         dfinite real_double_env].
  - intros a _. apply Rle_refl.
  - intros a b c. apply Rle_trans.
  - auto.
  - intros a b Ha Hb. lra.
  - intros a b c d Ha Hc Hab Hcd. lra.
  - intros a b Ha Hb. lra.
  - intros n c Hn Hc. apply Rmult_le_pos; [apply (IZR_le 0); lia|exact Hc].
  - intros n c Hn Hc. apply Rmult_le_pos; [apply (IZR_le 0); lia|exact Hc].
  - intros n1 n2 c1 c2 Hn Hmax Hc1 Hc2 Hle.
    apply Rmult_le_compat; try assumption;
      [apply (IZR_le 0) | apply IZR_le]; lia.
  - intros n1 n2 c Hn Hmax Hc. apply Rmult_le_compat_r; [exact Hc|].
    apply IZR_le. lia.
  - intros bytes io_size Hbytes Hio. apply Rmult_le_pos.
    + apply (IZR_le 0). lia.
    + apply Rlt_le, Rinv_0_lt_compat, (IZR_lt 0). lia.
  - intros bytes1 bytes2 io_size Hbytes Hmax Hio. apply Rmult_le_compat_r.
    + apply Rlt_le, Rinv_0_lt_compat, (IZR_lt 0). lia.
    + apply IZR_le. lia.
  - intros e nb He Hnb. apply Rmult_le_pos; [apply (IZR_le 0); lia|].
    apply log2_nonneg, (IZR_le 1). lia.
  - intros e1 e2 nb1 nb2 He Hemax Hnb Hnbmax. apply Rmult_le_compat.
    + apply (IZR_le 0). lia.
    + apply log2_nonneg, (IZR_le 1). lia.
    + apply IZR_le. lia.
    + apply log2_monotone; [apply (IZR_le 1) | apply IZR_le]; lia.
  - intros n Hn. pose proof (IZR_le 0 n ltac:(lia)) as Hpos.
    apply Rmult_le_pos; [exact Hpos|]. apply ln_nonneg. lra.
  - intros n1 n2 Hn Hmax. apply x_ln_monotone.
    + apply (IZR_le 0). lia.
    + apply IZR_le. lia.
Qed.

Lemma real_table_monotone (cost_model : Cost_model_table) :
  cost_monotone (io_block_read_cost cost_model) ->
  cost_monotone (key_compare_cost cost_model) ->
  @table_monotone real_double_env (real_table cost_model).
Proof.
  intros [Hio_pos Hio_mono] [Hcmp_pos Hcmp_mono].
  unfold table_monotone, double_cost_monotone. cbn. repeat split; auto.
Qed.

Lemma mysql_merge_constants_in_range :
  @merge_constants_in_range mysql_merge_constants.
Proof. split; [exact mysql_merge_constants_ok | reflexivity]. Qed.


(** *** The estimate in binary64 *)

Lemma SFleb_trans (a b c : spec_float) :
  SFleb a b = true -> SFleb b c = true -> SFleb a c = true.
Proof.
  unfold SFleb, SFcompare.
  destruct a as [sa|sa| |sa ma ea], b as [sb|sb| |sb mb eb],
    c as [sc|sc| |sc mc ec];
    try destruct sa; try destruct sb; try destruct sc; cbn;
    try congruence.
  all: destruct (Z.compare_spec ea eb), (Z.compare_spec eb ec),
         (Z.compare_spec ea ec); try lia; try congruence; subst.
  all: fold (Pos.compare ma mb); fold (Pos.compare mb mc);
    fold (Pos.compare ma mc).
  all: destruct (Pos.compare_spec ma mb), (Pos.compare_spec mb mc),
         (Pos.compare_spec ma mc); cbn; try lia; try congruence.
Qed.

Lemma binary64_leb_trans (x y z : float) :
  PrimFloat.leb x y = true -> PrimFloat.leb y z = true ->
  PrimFloat.leb x z = true.
Proof. rewrite !leb_spec. apply SFleb_trans. Qed.

(** A step from one finite cost to a greater one is a cost function. *)
Lemma binary64_step_monotone (t lo hi : float) :
  @dfinite example_binary64 lo -> @dfinite example_binary64 hi ->
  PrimFloat.leb lo lo = true -> PrimFloat.leb hi hi = true ->
  PrimFloat.leb lo hi = true ->
  @double_cost_monotone example_binary64
    (fun x => if PrimFloat.leb t x then hi else lo).
Proof.
  intros Hlo Hhi Hlolo Hhihi Hlohi. split.
  - intros x _. destruct (PrimFloat.leb t x); assumption.
  - intros x y _ _ Hxy. cbn [dle example_binary64 binary64_env] in *.
    destruct (PrimFloat.leb t x) eqn:Hx, (PrimFloat.leb t y) eqn:Hy;
      try assumption.
    rewrite (binary64_leb_trans t x y Hx Hxy) in Hy. discriminate.
Qed.

Lemma binary64_free_monotone :
  @double_cost_monotone example_binary64 (fun _ => 0%float).
Proof. split; intros; reflexivity. Qed.

Lemma binary64_linear_monotone :
  @double_cost_monotone example_binary64 (fun x => x).
Proof. split; intros; assumption. Qed.

(** In binary64 too the estimate grows along covered pairs: from 15
    buffers of 10 rows to 16 and to 22, at 0.3 for work from one
    comparison on. *)
Lemma estimate_grows_in_binary64 :
  exists cost15 cost16 cost22,
    binary64_estimate 150 10 100 binary64_rounding_table = Some cost15
    /\ binary64_estimate 160 10 100 binary64_rounding_table = Some cost16
    /\ binary64_estimate 220 10 100 binary64_rounding_table = Some cost22
    /\ PrimFloat.leb cost15 cost16 = true
    /\ PrimFloat.leb cost15 cost22 = true.
Proof.
  eexists _, _, _.
  split; [vm_compute; reflexivity|].
  split; [vm_compute; reflexivity|].
  split; [vm_compute; reflexivity|].
  split; reflexivity.
Qed.

